(** * arc-raiders-advanced-tooltip: the live detection-and-matching pipeline

    A shallow embedding of the parts of [arc_companion.py] that the
    specification makes claims about: the name matcher
    ([normalize_name_for_match], [build_item_lookup],
    [find_item_row_by_name]), the panel filter of
    [find_tooltip_panel_by_color], the region extractor, the OCR throttle,
    the OCR worker loop, the result drain of [main_live] and the placement
    arithmetic of [show_helper_tooltip].

    Python [str] values are lists of characters.  The character type is
    Rocq's 8-bit [ascii], read as the code points 0..255 (Latin-1); the
    character classes below are the ones Python 3 uses on that range.
    Python ints are [Z].  Python floats are IEEE 754 doubles where the code
    multiplies or divides them and truncates or sorts by the result (the
    fill ratio, the aspect ratio and the sort key of the panel filter, the
    scaling of the crops): module [Float64] below, on the standard
    library's specification of the operations.  Elsewhere (similarity
    ratios, clock readings, pixel means, the gaps of the overlay) a float is
    the rational [Q] it stands for. *)

From Stdlib Require Import List Ascii String ZArith QArith Qround Lia Bool Arith.
From Stdlib Require SpecFloat.
Import ListNotations.

Close Scope Q_scope.

Set Implicit Arguments.

(** ** Python string primitives *)

Module PyStr.

Definition str := list ascii.

Definition lit (s : string) : str := list_ascii_of_string s.

(** [len(s)] *)
Definition len (s : str) : nat := List.length s.

Definition code (c : ascii) : nat := nat_of_ascii c.

Definition between (lo hi n : nat) : bool := (lo <=? n) && (n <=? hi).

(** [str.isspace], also the class [\s] of [re] on str patterns. *)
Definition isspace (c : ascii) : bool :=
  let n := code c in
  between 9 13 n || between 28 32 n || (n =? 133) || (n =? 160).

(** The class [\d] of [re]: decimal digits. *)
Definition isdecimal (c : ascii) : bool := between 48 57 (code c).

(** The class [\w] of [re]: alphanumeric characters and the underscore. *)
Definition isword (c : ascii) : bool :=
  let n := code c in
  between 48 57 n || between 65 90 n || between 97 122 n || (n =? 95)
  || (n =? 170) || (n =? 178) || (n =? 179) || (n =? 181) || (n =? 185)
  || (n =? 186) || between 188 190 n || between 192 214 n
  || between 216 246 n || between 248 255 n.

(** [str.lower] on one character. *)
Definition lower_char (c : ascii) : ascii :=
  let n := code c in
  if between 65 90 n || between 192 214 n || between 216 222 n
  then ascii_of_nat (n + 32) else c.

(** [str.upper] on one character; the matcher applies it to the
    characters of a numeral token only, which are ASCII letters or digits. *)
Definition upper_char (c : ascii) : ascii :=
  let n := code c in
  if between 97 122 n || between 224 246 n || between 248 254 n
  then ascii_of_nat (n - 32) else c.

Definition lower (s : str) : str := map lower_char s.
Definition upper (s : str) : str := map upper_char s.

Fixpoint lstrip (s : str) : str :=
  match s with
  | c :: s' => if isspace c then lstrip s' else s
  | [] => []
  end.

Definition rstrip (s : str) : str := rev (lstrip (rev s)).

(** [s.strip()] *)
Definition strip (s : str) : str := rstrip (lstrip s).

(** [s.replace(old, new)] for one-character [old] and [new]. *)
Definition replace_char (old new : ascii) (s : str) : str :=
  map (fun c => if Ascii.eqb c old then new else c) s.

(** [s.translate(str.maketrans(table))] for a table of single characters. *)
Fixpoint trans_char (table : list (ascii * ascii)) (c : ascii) : ascii :=
  match table with
  | [] => c
  | (k, v) :: t => if Ascii.eqb c k then v else trans_char t c
  end.

Definition translate (table : list (ascii * ascii)) (s : str) : str :=
  map (trans_char table) s.

(** [re.sub(r"\s+", "", s)] *)
Definition remove_ws (s : str) : str := filter (fun c => negb (isspace c)) s.

(** [re.sub(r"\s+", " ", s)]: every maximal run of whitespace becomes one
    space. *)
Fixpoint collapse_aux (in_run : bool) (s : str) : str :=
  match s with
  | [] => []
  | c :: s' =>
      if isspace c
      then (if in_run then collapse_aux true s'
            else " "%char :: collapse_aux true s')
      else c :: collapse_aux false s'
  end.

Definition collapse_ws (s : str) : str := collapse_aux false s.

(** The maximal prefix of [s] whose characters satisfy [p], and the rest. *)
Fixpoint span (p : ascii -> bool) (s : str) : str * str :=
  match s with
  | c :: s' =>
      if p c then let (a, b) := span p s' in (c :: a, b) else ([], s)
  | [] => ([], [])
  end.

(** [s.split()]: the maximal runs of non-whitespace characters. *)
Fixpoint split_aux (cur : str) (s : str) : list str :=
  match s with
  | [] => match cur with [] => [] | _ => [cur] end
  | c :: s' =>
      if isspace c
      then match cur with
           | [] => split_aux [] s'
           | _ => cur :: split_aux [] s'
           end
      else split_aux (cur ++ [c]) s'
  end.

Definition split_ws (s : str) : list str := split_aux [] s.

Definition str_eqb (a b : str) : bool :=
  if list_eq_dec ascii_dec a b then true else false.

Fixpoint startswith (p s : str) : bool :=
  match p, s with
  | [], _ => true
  | c :: p', d :: s' => Ascii.eqb c d && startswith p' s'
  | _ :: _, [] => false
  end.

(** [t in s] for strings: [t] occurs as a contiguous substring of [s]. *)
Fixpoint contains (t s : str) : bool :=
  startswith t s ||
  match s with
  | [] => false
  | _ :: s' => contains t s'
  end.

(** [a < b] on Python strings: lexicographic on code points. *)
Fixpoint str_ltb (a b : str) : bool :=
  match a, b with
  | [], [] => false
  | [], _ :: _ => true
  | _ :: _, [] => false
  | c :: a', d :: b' =>
      if code c <? code d then true
      else if code d <? code c then false
      else str_ltb a' b'
  end.

(** [s.isdigit()] on strings of ASCII characters: non-empty, all digits. *)
Definition isdigit_str (s : str) : bool :=
  match s with
  | [] => false
  | _ => forallb isdecimal s
  end.

End PyStr.

Import PyStr.

(** ** Insertion-ordered dictionaries

    A Python [dict] keeps its keys in insertion order, and assigning to a key
    that is present keeps the key's position.  [list(d.keys())] and the
    tie-breaks of [max] over it depend on that order. *)

Module PyDict.

Section Dict.
Variable V : Type.

Definition dict := list (str * V).

Fixpoint dict_get (d : dict) (k : str) : option V :=
  match d with
  | [] => None
  | (k', v) :: d' => if str_eqb k k' then Some v else dict_get d' k
  end.

Definition dict_mem (d : dict) (k : str) : bool :=
  match dict_get d k with Some _ => true | None => false end.

(** [d[k] = v] *)
Fixpoint dict_set (d : dict) (k : str) (v : V) : dict :=
  match d with
  | [] => [(k, v)]
  | (k', v') :: d' =>
      if str_eqb k k' then (k', v) :: d' else (k', v') :: dict_set d' k v
  end.

Definition dict_keys (d : dict) : list str := map fst d.

End Dict.

End PyDict.

Import PyDict.

(** ** Name matcher *)

Module Matcher.

(** *** The trailing-numeral pattern

    [re.search(r"(\b[IVXLCDM]+\b|\b\d+\b)$", s, re.IGNORECASE)] *)

(** The class [[IVXLCDM]] under [re.IGNORECASE]. *)
Definition is_roman_letter (c : ascii) : bool :=
  existsb (Ascii.eqb c) (lit "IVXLCDMivxlcdm").

Definition head_word (s : str) : bool :=
  match s with
  | c :: _ => isword c
  | [] => false
  end.

(** [\b] between a position whose left neighbour is a word character iff
    [before] and whose right neighbour is one iff [after]. *)
Definition boundary (before after : bool) : bool := xorb before after.

(** [$] without [re.MULTILINE]: at the end of the string, or just before a
    newline that ends the string. *)
Definition at_dollar (rest : str) : bool :=
  match rest with
  | [] => true
  | [c] => Ascii.eqb c "010"%char
  | _ => false
  end.

(** One alternative, [\b cls+ \b] followed by [$], tried at the current
    position.  The greedy run takes the maximal prefix in [cls]; giving
    characters back leaves a [cls] character after the run, where [$] fails,
    so only the maximal run can match. *)
Definition match_alt (cls : ascii -> bool) (before : bool) (s : str)
  : option str :=
  let (tok, rest) := span cls s in
  match tok with
  | [] => None
  | _ =>
      if boundary before (head_word tok)
         && boundary (head_word (rev tok)) (head_word rest)
         && at_dollar rest
      then Some tok else None
  end.

Definition match_here (before : bool) (s : str) : option str :=
  match match_alt is_roman_letter before s with
  | Some tok => Some tok
  | None => match_alt isdecimal before s
  end.

(** The leftmost match: [(m.start(1), m.group(1))]. *)
Fixpoint search_from (before : bool) (start : nat) (s : str)
  : option (nat * str) :=
  match match_here before s with
  | Some tok => Some (start, tok)
  | None =>
      match s with
      | [] => None
      | c :: s' => search_from (isword c) (S start) s'
      end
  end.

Definition search_trailing_numeral (s : str) : option (nat * str) :=
  search_from false 0 s.

(** *** [normalize_name_for_match] *)

Definition roman_map : list (str * str) :=
  [ (lit "I", lit "1"); (lit "II", lit "2");
    (lit "III", lit "3"); (lit "IV", lit "4") ].

Fixpoint assoc_str (m : list (str * str)) (k : str) : option str :=
  match m with
  | [] => None
  | (k', v) :: m' => if str_eqb k k' then Some v else assoc_str m' k
  end.

(** [token.upper().replace("|", "I").replace("L", "I")] *)
Definition token_clean (token : str) : str :=
  replace_char "L" "I" (replace_char "|" "I" (upper token)).

Definition numeral_digit (token : str) : option str :=
  match assoc_str roman_map (token_clean token) with
  | Some d => Some d
  | None =>
      if isdigit_str (token_clean token) then Some (token_clean token)
      else None
  end.

Definition convert_numeral (s : str) : str :=
  match s with
  | [] => s
  | _ =>
      match search_trailing_numeral s with
      | Some (start, token) =>
          match numeral_digit token with
          | Some digit => firstn start s ++ digit
          | None => s
          end
      | None => s
      end
  end.

(** The three ways the rewrite can go on a string. *)
Inductive convert_case (s0 : str) : Prop :=
| conv_no_token :
    search_trailing_numeral s0 = None ->
    convert_numeral s0 = s0 -> convert_case s0
| conv_no_digit (i : nat) (tok : str) :
    search_trailing_numeral s0 = Some (i, tok) ->
    numeral_digit tok = None ->
    convert_numeral s0 = s0 -> convert_case s0
| conv_digit (P tok d : str) :
    s0 = P ++ tok ->
    search_trailing_numeral s0 = Some (List.length P, tok) ->
    head_word (rev P) = false ->
    tok <> [] ->
    forallb is_roman_letter tok = true \/ forallb isdecimal tok = true ->
    numeral_digit tok = Some d ->
    convert_numeral s0 = P ++ d -> convert_case s0.

Definition trans_short : list (ascii * ascii) :=
  [ ("0", "o") ]%char.

Definition trans_long : list (ascii * ascii) :=
  [ ("I", "l"); ("|", "l"); ("1", "l"); ("0", "o") ]%char.

Definition normalize_name_for_match (name : str) : str :=
  let s := strip name in
  let s := convert_numeral s in
  let core := remove_ws s in
  let trans := if len core <=? 3 then trans_short else trans_long in
  let s := lower (translate trans s) in
  collapse_ws s.

(** What the translation and the lower-casing do to one character. *)
Definition fold_char (table : list (ascii * ascii)) (c : ascii) : ascii :=
  lower_char (trans_char table c).

(** [token_clean] on one character. *)
Definition clean_char (c : ascii) : ascii :=
  let c := upper_char c in
  let c := if Ascii.eqb c "|" then "I"%char else c in
  if Ascii.eqb c "L" then "I"%char else c.

(** The translation table [normalize_name_for_match] picks for [s]. *)
Definition table_for (s : str) : list (ascii * ascii) :=
  if len (remove_ws s) <=? 3 then trans_short else trans_long.

(** The trailing token of [s] reads as one of the numerals II, III, IV
    of [roman_map], with l, L or i standing for I. *)
Definition reads_II_III_IV (s : str) : bool :=
  match search_trailing_numeral s with
  | Some (_, token) =>
      match assoc_str roman_map (token_clean token) with
      | Some d => negb (str_eqb d (lit "1"))
      | None => false
      end
  | None => false
  end.

(** No leading and no trailing whitespace. *)
Definition trimmed (s : str) : Prop :=
  lstrip s = s /\ lstrip (rev s) = rev s.

(** *** [build_item_lookup] *)

(** A database row: column name to value, as [csv.DictReader] yields it. *)
Definition Row := list (string * str).

Fixpoint row_get (row : Row) (col : string) (default : str) : str :=
  match row with
  | [] => default
  | (c, v) :: row' => if String.eqb c col then v else row_get row' col default
  end.

Fixpoint build_loop (idx : nat) (rows : list Row)
         (ITEM_LOOKUP : dict Row) (ITEM_ORDER : dict nat)
  : dict Row * dict nat :=
  match rows with
  | [] => (ITEM_LOOKUP, ITEM_ORDER)
  | row :: rest =>
      let name := strip (row_get row "Name" []) in
      match name with
      | [] => build_loop (S idx) rest ITEM_LOOKUP ITEM_ORDER
      | _ =>
          let norm := normalize_name_for_match name in
          let ITEM_LOOKUP := dict_set ITEM_LOOKUP norm row in
          let ITEM_ORDER :=
            if dict_mem ITEM_ORDER norm then ITEM_ORDER
            else dict_set ITEM_ORDER norm idx in
          build_loop (S idx) rest ITEM_LOOKUP ITEM_ORDER
      end
  end.

Definition build_item_lookup (arc_raider_item_names : list Row)
  : dict Row * dict nat :=
  build_loop 0 arc_raider_item_names [] [].

Definition get_csv_index_for_name (ITEM_ORDER : dict nat) (name : str)
  : option nat :=
  dict_get ITEM_ORDER (normalize_name_for_match name).

(** The key under which [build_item_lookup] files a row; none for a row
    whose name is empty after stripping. *)
Definition row_key (row : Row) : option str :=
  match strip (row_get row "Name" []) with
  | [] => None
  | name => Some (normalize_name_for_match name)
  end.

Definition has_key (k : str) (row : Row) : bool :=
  match row_key row with
  | Some k' => str_eqb k' k
  | None => false
  end.

(** The position of the first element that satisfies [p]. *)
Fixpoint first_index {A : Type} (p : A -> bool) (l : list A) : option nat :=
  match l with
  | [] => None
  | x :: l' => if p x then Some 0 else option_map S (first_index p l')
  end.

(** The last element that satisfies [p]. *)
Definition last_such {A : Type} (p : A -> bool) (l : list A) : option A :=
  find p (rev l).

(** Two rows whose names collide on the key ["mag 2"]. *)
Definition colliding_rows : list Row :=
  [ [("Name"%string, lit "Mag II"); ("Verdict"%string, lit "KEEP")];
    [("Name"%string, lit "MAG 2"); ("Verdict"%string, lit "SELL")] ].

(** *** [find_item_row_by_name]

    The similarity measure is [difflib.SequenceMatcher(None, a, b).ratio()]
    of the Python library, with its two documented upper bounds
    [quick_ratio] and [real_quick_ratio]; the resolver takes them as
    parameters. *)

Definition Qltb (a b : Q) : bool := negb (Qle_bool b a).

Section Resolve.

Variables ratio quick_ratio real_quick_ratio : str -> str -> Q.

(** [max(l, key=f)]: the first element whose key is maximal. *)
Fixpoint max_by (f : str -> Q) (best : str) (l : list str) : str :=
  match l with
  | [] => best
  | k :: l' => max_by f (if Qltb (f best) (f k) then k else best) l'
  end.

Definition py_max (f : str -> Q) (l : list str) : option str :=
  match l with
  | [] => None
  | k :: l' => Some (max_by f k l')
  end.

(** [t1 > t2] on [(score, string)] tuples. *)
Definition tuple_gtb (t1 t2 : Q * str) : bool :=
  if Qeq_bool (fst t1) (fst t2) then str_ltb (snd t2) (snd t1)
  else Qltb (fst t2) (fst t1).

(** [heapq.nlargest(1, result)]: [max(result)], nothing on an empty list. *)
Fixpoint max_tuple (best : Q * str) (l : list (Q * str)) : Q * str :=
  match l with
  | [] => best
  | t :: l' => max_tuple (if tuple_gtb t best then t else best) l'
  end.

(** The test [get_close_matches] applies to a possibility [x]. *)
Definition close_enough (cutoff : Q) (word x : str) : bool :=
  Qle_bool cutoff (real_quick_ratio x word)
  && Qle_bool cutoff (quick_ratio x word)
  && Qle_bool cutoff (ratio x word).

(** Its list [result] of [(score, x)] pairs. *)
Definition scored (cutoff : Q) (word : str) (possibilities : list str)
  : list (Q * str) :=
  flat_map
    (fun x => if close_enough cutoff word x then [(ratio x word, x)]
              else [])
    possibilities.

(** [difflib.get_close_matches(word, possibilities, n=1, cutoff)] *)
Definition get_close_matches (word : str) (possibilities : list str)
           (cutoff : Q) : list str :=
  match scored cutoff word possibilities with
  | [] => []
  | t :: l => [snd (max_tuple t l)]
  end.

Definition long_tokens (norm : str) : list str :=
  filter (fun t => 3 <=? len t) (split_ws norm).

Definition strict_stage (keys : list str) (norm : str) : option str :=
  match long_tokens norm with
  | [] => None
  | tokens =>
      let strict_candidates :=
        filter (fun k => forallb (fun t => contains t k) tokens) keys in
      match py_max (ratio norm) strict_candidates with
      | None => None
      | Some best_key =>
          if Qle_bool (6 # 10)%Q (ratio norm best_key)
          then Some best_key else None
      end
  end.

Definition partial_stage (keys : list str) (norm : str) : option str :=
  let partial_candidates :=
    filter (fun k => contains norm k || contains k norm) keys in
  match py_max (ratio norm) partial_candidates with
  | None => None
  | Some best_key =>
      if Qle_bool (70 # 100)%Q (ratio norm best_key)
      then Some best_key else None
  end.

Definition fuzzy_stage (keys : list str) (norm : str) : option str :=
  match get_close_matches norm keys (70 # 100)%Q with
  | [] => None
  | best0 :: _ => Some best0
  end.

Definition find_item_row_by_name (ITEM_LOOKUP : dict Row) (name : str)
  : option Row :=
  match name, ITEM_LOOKUP with
  | [], _ => None
  | _, [] => None
  | _, _ =>
      let norm := normalize_name_for_match name in
      let keys := dict_keys ITEM_LOOKUP in
      match dict_get ITEM_LOOKUP norm with
      | Some row => Some row
      | None =>
          match strict_stage keys norm with
          | Some best_key => dict_get ITEM_LOOKUP best_key
          | None =>
              match partial_stage keys norm with
              | Some best_key => dict_get ITEM_LOOKUP best_key
              | None =>
                  match fuzzy_stage keys norm with
                  | Some best0 => dict_get ITEM_LOOKUP best0
                  | None => None
                  end
              end
          end
      end
  end.

End Resolve.

(** *** The resolution order, as a relation

    [best_of sim cands k]: [k] is a candidate of greatest similarity.  A
    stage accepts such a key when its similarity reaches the threshold and
    is rejected when no such key reaches it (in particular when there is no
    candidate). *)

Definition best_of (sim : str -> Q) (cands : list str) (k : str) : Prop :=
  In k cands /\ forall k', In k' cands -> (sim k' <= sim k)%Q.

Definition accepted (sim : str -> Q) (thr : Q) (cands : list str)
           (k : str) : Prop :=
  best_of sim cands k /\ (thr <= sim k)%Q.

Definition rejected (sim : str -> Q) (thr : Q) (cands : list str) : Prop :=
  forall k, best_of sim cands k -> (sim k < thr)%Q.

(** Keys that contain every token of length at least 3 of the query. *)
Definition strict_candidates_stated (keys : list str) (norm : str)
  : list str :=
  filter (fun k => forallb (fun t => contains t k) (long_tokens norm)) keys.

(** The same, when the query has such a token; no key otherwise. *)
Definition strict_candidates_guarded (keys : list str) (norm : str)
  : list str :=
  match long_tokens norm with
  | [] => []
  | _ => strict_candidates_stated keys norm
  end.

(** Keys that are a substring of the query, or of which it is one. *)
Definition partial_candidates (keys : list str) (norm : str) : list str :=
  filter (fun k => contains norm k || contains k norm) keys.

Section Stages.

Variable ratio : str -> str -> Q.
Variable strict : list str.         (* the candidates of stage 2 *)
Variable ITEM_LOOKUP : dict Row.
Variable norm : str.

Definition table_keys : list str := dict_keys ITEM_LOOKUP.

Inductive resolves_with : option Row -> Prop :=
| res_exact (row : Row) :
    dict_get ITEM_LOOKUP norm = Some row ->
    resolves_with (Some row)
| res_strict (k : str) (row : Row) :
    dict_get ITEM_LOOKUP norm = None ->
    accepted (ratio norm) (6 # 10) strict k ->
    dict_get ITEM_LOOKUP k = Some row ->
    resolves_with (Some row)
| res_partial (k : str) (row : Row) :
    dict_get ITEM_LOOKUP norm = None ->
    rejected (ratio norm) (6 # 10) strict ->
    accepted (ratio norm) (70 # 100) (partial_candidates table_keys norm) k ->
    dict_get ITEM_LOOKUP k = Some row ->
    resolves_with (Some row)
| res_fuzzy (k : str) (row : Row) :
    dict_get ITEM_LOOKUP norm = None ->
    rejected (ratio norm) (6 # 10) strict ->
    rejected (ratio norm) (70 # 100) (partial_candidates table_keys norm) ->
    accepted (fun k => ratio k norm) (70 # 100) table_keys k ->
    dict_get ITEM_LOOKUP k = Some row ->
    resolves_with (Some row)
| res_none :
    dict_get ITEM_LOOKUP norm = None ->
    rejected (ratio norm) (6 # 10) strict ->
    rejected (ratio norm) (70 # 100) (partial_candidates table_keys norm) ->
    rejected (fun k => ratio k norm) (70 # 100) table_keys ->
    resolves_with None.

End Stages.

(** The resolution order as the specification words it: stage 2 ranges
    over every key that contains all long tokens. *)
Definition resolves_as_stated (ratio : str -> str -> Q)
           (ITEM_LOOKUP : dict Row) (name : str) (r : option Row) : Prop :=
  let norm := normalize_name_for_match name in
  resolves_with ratio
    (strict_candidates_stated (dict_keys ITEM_LOOKUP) norm)
    ITEM_LOOKUP norm r.

(** The same with stage 2 skipped for a query without long token. *)
Definition resolves_guarded (ratio : str -> str -> Q)
           (ITEM_LOOKUP : dict Row) (name : str) (r : option Row) : Prop :=
  let norm := normalize_name_for_match name in
  resolves_with ratio
    (strict_candidates_guarded (dict_keys ITEM_LOOKUP) norm)
    ITEM_LOOKUP norm r.

(** [quick_ratio] and [real_quick_ratio] bound [ratio] from above on the
    keys of the table, as [difflib] documents. *)
Definition upper_bounds_hold (ratio quick_ratio real_quick_ratio
                              : str -> str -> Q)
           (keys : list str) (norm : str) : bool :=
  forallb (fun k => Qle_bool (ratio k norm) (quick_ratio k norm)
                    && Qle_bool (ratio k norm) (real_quick_ratio k norm))
          keys.

(** The empty string is not similar to any key. *)
Definition empty_dissimilar (ratio : str -> str -> Q) (keys : list str)
  : bool :=
  forallb (fun k => Qltb (ratio [] k) (70 # 100)
                    && Qltb (ratio k []) (70 # 100))
          keys.

(** A small database for the examples. *)
Definition sample_rows : list Row :=
  [ [("Name"%string, lit "Rope"); ("Verdict"%string, lit "SELL")];
    [("Name"%string, lit "Oil"); ("Verdict"%string, lit "KEEP")];
    [("Name"%string, lit "Extended Light Mag II");
     ("Verdict"%string, lit "RECYCLE")] ].

Definition rope_table : dict Row :=
  fst (build_item_lookup [[("Name"%string, lit "Rope")]]).

End Matcher.

Import Matcher.

(** ** Reference model of [difflib.SequenceMatcher]

    The Ratcliff/Obershelp measure as [difflib] computes it when no element is
    junk, which is the case for [SequenceMatcher(None, a, b)] on a second
    sequence of fewer than 200 elements (the automatic junk heuristic starts
    at 200).  The resolver above is parametric in the measure; this model
    instantiates it on concrete inputs. *)

Module Difflib.

Fixpoint common_prefix (a b : str) : nat :=
  match a, b with
  | c :: a', d :: b' => if Ascii.eqb c d then S (common_prefix a' b') else 0
  | _, _ => 0
  end.

Definition block := (nat * nat * nat)%type.

Definition block_size (m : block) : nat := snd m.

Fixpoint scan_b (a_suf : str) (i j : nat) (b_suf : str) (best : block)
  : block :=
  match b_suf with
  | [] => best
  | _ :: b' =>
      let k := common_prefix a_suf b_suf in
      scan_b a_suf i (S j) b'
             (if block_size best <? k then (i, j, k) else best)
  end.

Fixpoint scan_a (a_suf : str) (i : nat) (b : str) (best : block) : block :=
  match a_suf with
  | [] => best
  | _ :: a' => scan_a a' (S i) b (scan_b a_suf i 0 b best)
  end.

(** [find_longest_match]: of all maximal matching blocks, the one that
    starts earliest in [a], and of those the one that starts earliest in
    [b]. *)
Definition find_longest_match (a b : str) : block :=
  scan_a a 0 b (0, 0, 0).

(** The total size of [get_matching_blocks()]. *)
Fixpoint matches_fuel (fuel : nat) (a b : str) : nat :=
  match fuel with
  | O => 0
  | S fuel' =>
      let '(i, j, k) := find_longest_match a b in
      if k =? 0 then 0
      else k + matches_fuel fuel' (firstn i a) (firstn j b)
             + matches_fuel fuel' (skipn (i + k) a) (skipn (j + k) b)
  end.

Definition matches (a b : str) : nat := matches_fuel (S (len a)) a b.

(** [_calculate_ratio(matches, length)] *)
Definition calculate_ratio (m length : nat) : Q :=
  match length with
  | O => 1%Q
  | _ => (Z.of_nat (2 * m) # Pos.of_nat length)%Q
  end.

Definition ratio (a b : str) : Q :=
  calculate_ratio (matches a b) (len a + len b).

Fixpoint remove_first (c : ascii) (l : str) : option str :=
  match l with
  | [] => None
  | d :: l' =>
      if Ascii.eqb c d then Some l'
      else match remove_first c l' with
           | Some r => Some (d :: r)
           | None => None
           end
  end.

(** The count of [quick_ratio]: elements of [a] matched against the
    multiset of elements of [b]. *)
Fixpoint quick_matches (a avail : str) : nat :=
  match a with
  | [] => 0
  | c :: a' =>
      match remove_first c avail with
      | Some avail' => S (quick_matches a' avail')
      | None => quick_matches a' avail
      end
  end.

Definition quick_ratio (a b : str) : Q :=
  calculate_ratio (quick_matches a b) (len a + len b).

Definition real_quick_ratio (a b : str) : Q :=
  calculate_ratio (Nat.min (len a) (len b)) (len a + len b).

(** The matched characters themselves: the blocks of
    [get_matching_blocks()], longest first. *)
Fixpoint matched_fuel (fuel : nat) (a b : str) : str :=
  match fuel with
  | O => []
  | S fuel' =>
      let '(i, j, k) := find_longest_match a b in
      if k =? 0 then []
      else firstn k (skipn i a)
           ++ matched_fuel fuel' (firstn i a) (firstn j b)
           ++ matched_fuel fuel' (skipn (i + k) a) (skipn (j + k) b)
  end.

(** [m] is contained in [l] as a multiset. *)
Definition sub_multiset (m l : str) : Prop :=
  forall x, count_occ ascii_dec m x <= count_occ ascii_dec l x.

(** A block [(i, j, k)] lies inside [a] and [b] and matches. *)
Definition block_ok (a b : str) (m : block) : Prop :=
  let '(i, j, k) := m in
  i + k <= len a /\ j + k <= len b
  /\ firstn k (skipn i a) = firstn k (skipn j b).

End Difflib.

(** ** Shared geometry and truthiness *)

Module Py.

(** A box [(x1, y1, x2, y2)]. *)
Definition Box := (Z * Z * Z * Z)%type.

(** Truthiness of an optional string: [None] and [""] are false. *)
Definition truthy (s : option str) : bool :=
  match s with
  | Some (_ :: _) => true
  | _ => false
  end.

Definition is_some {A : Type} (o : option A) : bool :=
  match o with
  | Some _ => true
  | None => false
  end.

(** [int(q)]: truncation toward zero. *)
Definition py_int (q : Q) : Z :=
  if Qle_bool 0%Q q then Qfloor q else (- Qfloor (- q))%Z.

(** [round(q)]: to the nearest integer, halves to the even one. *)
Definition py_round (q : Q) : Z :=
  let f := Qfloor q in
  let r := (q - inject_Z f)%Q in
  if Qltb r (1 # 2)%Q then f
  else if Qltb (1 # 2)%Q r then (f + 1)%Z
  else if Z.even f then f else (f + 1)%Z.

End Py.

Import Py.

(** ** Python floats: IEEE 754 binary64 *)

Module Float64.

(** A double, as the standard library specifies it: a sign, a mantissa and
    an exponent.  Every operation rounds to the nearest double, ties to
    the even mantissa. *)
Definition float : Type := SpecFloat.spec_float.

Definition prec : Z := 53.
Definition emax : Z := 1024.

(** [float(n)] *)
Definition of_int (n : Z) : float :=
  SpecFloat.binary_normalize prec emax n 0 false.

(** [x / y] and [x * y] *)
Definition div (x y : float) : float := SpecFloat.SFdiv prec emax x y.
Definition mul (x y : float) : float := SpecFloat.SFmul prec emax x y.

(** The double nearest to [n / d], for [n] and [d] that are doubles
    themselves: the value of the literal [0.80] is [of_Q (80 # 100)], and
    a rational that is the value of a double is given back as that
    double. *)
Definition of_Q (q : Q) : float :=
  div (of_int (Qnum q)) (of_int (Zpos (Qden q))).

(** The number a finite double stands for. *)
Definition value (x : float) : Q :=
  match x with
  | SpecFloat.S754_finite s m e =>
      let n := if s then Zneg m else Zpos m in
      match e with
      | Z0 => inject_Z n
      | Zpos p => inject_Z (n * Zpos (2 ^ p))
      | Zneg p => n # (2 ^ p)
      end
  | _ => 0%Q
  end.

(** [int(x)]: truncation toward zero. *)
Definition int (x : float) : Z := py_int (value x).

(** [x < y] and [x <= y] on finite doubles. *)
Definition ltb (x y : float) : bool := Qltb (value x) (value y).

Definition le (x y : float) : Prop := (value x <= value y)%Q.

End Float64.

(** ** The two queues' payloads *)

Module Queues.

(** A task as the capture loop builds it; [Roi] is the type of a crop. *)
Record OcrTask (Roi : Type) := mkOcrTask {
  t_task_id : Z;
  roi_primary : option Roi;
  roi_secondary : option Roi;
  t_panel_box : option Box
}.

(** A result as the worker builds it; [error] is absent on success. *)
Record OcrResult := mkOcrResult {
  task_id : Z;
  name : option str;
  row : option Row;
  panel_box : option Box;
  secondary_used : bool;
  error : option str
}.

End Queues.

Import Queues.

(** ** Result drain of [main_live] *)

Module Drain.

(** The part of the loop's state the drain reads and writes. *)
Record loop_state := mkLoopState {
  latest_result_id : Z;
  last_name : option str;
  last_row : option Row;
  last_used_secondary : bool;
  LAST_SHOWN_ROW : option Row;
  LAST_SHOWN_PANEL_BOX : option Box;
  TOOLTIP_VISIBLE : bool;
  HELPER_SCREEN_RECT : option Box
}.

(** What the overlay shows: everything but the id filter's counter. *)
Definition visible (st : loop_state) :=
  (last_name st, last_row st, last_used_secondary st,
   LAST_SHOWN_ROW st, LAST_SHOWN_PANEL_BOX st,
   TOOLTIP_VISIBLE st, HELPER_SCREEN_RECT st).

Definition set_latest (st : loop_state) (rid : Z) : loop_state :=
  mkLoopState rid (last_name st) (last_row st) (last_used_secondary st)
              (LAST_SHOWN_ROW st) (LAST_SHOWN_PANEL_BOX st)
              (TOOLTIP_VISIBLE st) (HELPER_SCREEN_RECT st).

(** The matched branch: [last_name = name; last_row = row; ...]. *)
Definition set_match (st : loop_state) (res : OcrResult) : loop_state :=
  mkLoopState (latest_result_id st) (name res) (row res)
              (secondary_used res)
              (LAST_SHOWN_ROW st) (LAST_SHOWN_PANEL_BOX st)
              (TOOLTIP_VISIBLE st) (HELPER_SCREEN_RECT st).

(** The unmatched branch, with [hide_helper_tooltip()] inlined. *)
Definition clear_shown (st : loop_state) : loop_state :=
  mkLoopState (latest_result_id st) None None false None None false None.

(** One iteration of the inner [while True] on a dequeued result.  The
    boolean tells whether the iteration reached the branches that write the
    shown item. *)
Definition drain_step (tooltip_active : bool) (st : loop_state)
           (res : OcrResult) : loop_state * bool :=
  let rid := task_id res in
  if (rid <? latest_result_id st)%Z then (st, false)
  else
    let st := set_latest st rid in
    if negb tooltip_active then (st, false)
    else if truthy (error res) then (st, false)
    else if truthy (name res) && is_some (row res)
         then (set_match st res, true)
         else (clear_shown st, true).

(** Draining the whole result queue; the second component lists the task
    ids of the applied results, in order. *)
Fixpoint drain (tooltip_active : bool) (st : loop_state)
         (queue : list OcrResult) : loop_state * list Z :=
  match queue with
  | [] => (st, [])
  | res :: queue' =>
      let (st1, applied) := drain_step tooltip_active st res in
      let (st2, log) := drain tooltip_active st1 queue' in
      (st2, if applied then task_id res :: log else log)
  end.

(** A result that carries no error. *)
Definition ok_result (id : Z) (n : option str) (r : option Row)
           (pb : option Box) (sec : bool) : OcrResult :=
  mkOcrResult id n r pb sec None.

(** A result with its task id replaced. *)
Definition with_id (id : Z) (res : OcrResult) : OcrResult :=
  mkOcrResult id (name res) (row res) (panel_box res)
              (secondary_used res) (error res).

Definition sample_state : loop_state :=
  mkLoopState 5 (Some (lit "Rope")) None false None None true None.

End Drain.

(** ** Panel filter of [find_tooltip_panel_by_color] *)

Module Detector.

Import Float64.

(** What the loop body reads off one contour: [cv2.boundingRect], whose
    entries are C ints, [cv2.contourArea], a C double of which [area] is
    the value, and the vertex count of [cv2.approxPolyDP].  The area of a
    contour is at most that of its bounding rectangle, so the doubles
    below are finite. *)
Record contour := mkContour {
  bx : Z; by_ : Z; bw : Z; bh : Z;
  area : Q;
  approx_len : nat
}.

Record candidate := mkCandidate {
  cx1 : Z; cy1 : Z; cx2 : Z; cy2 : Z;
  c_area : float;
  c_fill : float
}.

(** [rect_area = float(w * h); fill_ratio = area / rect_area] *)
Definition fill_ratio (c : contour) : float :=
  div (of_Q (area c)) (of_int (bw c * bh c)).

(** [aspect = w / float(h)] *)
Definition aspect (c : contour) : float :=
  div (of_int (bw c)) (of_int (bh c)).

(** The body of the [for c in contours] loop: [None] is [continue]. *)
Definition examine (min_area : Z) (min_fill_ratio : float)
           (max_vertices : nat) (c : contour) : option candidate :=
  if ((bw c <=? 0) || (bh c <=? 0))%Z then None
  else if Qltb (area c) (inject_Z min_area) then None
  else if ltb (fill_ratio c) min_fill_ratio then None
  else if max_vertices <? approx_len c then None
  else if ltb (aspect c) (of_Q (4 # 10))
          || ltb (of_Q (18 # 10)) (aspect c) then None
  else Some (mkCandidate (bx c) (by_ c) (bx c + bw c) (by_ c + bh c)
                         (of_Q (area c)) (fill_ratio c)).

Fixpoint collect (min_area : Z) (min_fill_ratio : float)
         (max_vertices : nat) (contours : list contour)
  : list candidate :=
  match contours with
  | [] => []
  | c :: rest =>
      match examine min_area min_fill_ratio max_vertices c with
      | Some b => b :: collect min_area min_fill_ratio max_vertices rest
      | None => collect min_area min_fill_ratio max_vertices rest
      end
  end.

(** The sort key [(b[0], -(b[4] * b[5]))]; the product is a double, its
    negation is exact. *)
Definition sort_key (b : candidate) : Z * Q :=
  (cx1 b, (- value (mul (c_area b) (c_fill b)))%Q).

(** [k1 < k2] on the key tuples. *)
Definition key_ltb (k1 k2 : Z * Q) : bool :=
  if (fst k1 =? fst k2)%Z then Qltb (snd k1) (snd k2)
  else (fst k1 <? fst k2)%Z.

(** [list.sort(key=...)] is stable: an element goes before the first later
    element whose key is strictly greater, after those with an equal key. *)
Fixpoint insert_sorted (b : candidate) (l : list candidate)
  : list candidate :=
  match l with
  | [] => [b]
  | b' :: l' =>
      if key_ltb (sort_key b') (sort_key b) then b' :: insert_sorted b l'
      else b :: l
  end.

Fixpoint sort_candidates (l : list candidate) : list candidate :=
  match l with
  | [] => []
  | b :: l' => insert_sorted b (sort_candidates l')
  end.

Definition find_tooltip_panel_by_color_with
           (min_area : Z) (min_fill_ratio : float) (max_vertices : nat)
           (contours : list contour) : option Box :=
  match contours with
  | [] => None
  | _ =>
      match sort_candidates
              (collect min_area min_fill_ratio max_vertices contours) with
      | [] => None
      | b :: _ => Some (cx1 b, cy1 b, cx2 b, cy2 b)
      end
  end.

(** The defaults [min_area=30000, min_fill_ratio=0.80, max_vertices=6]. *)
Definition find_tooltip_panel_by_color (contours : list contour)
  : option Box :=
  find_tooltip_panel_by_color_with 30000 (of_Q (80 # 100)) 6 contours.

(** The four filters of the specification on a contour whose bounding
    rectangle is not degenerate.  The fill ratio and the aspect ratio are
    the doubles the code computes, and 0.80, 0.4 and 1.8 the doubles of
    these literals. *)
Definition passes_filters (c : contour) : Prop :=
  (0 < bw c)%Z /\ (0 < bh c)%Z
  /\ (30000 <= area c)%Q
  /\ le (of_Q (80 # 100)) (fill_ratio c)
  /\ approx_len c <= 6
  /\ le (of_Q (4 # 10)) (aspect c) /\ le (aspect c) (of_Q (18 # 10)).

Definition box_of (c : contour) : Box :=
  (bx c, by_ c, (bx c + bw c)%Z, (by_ c + bh c)%Z).

(** The product of area and fill ratio, as the sort key has it. *)
Definition score (c : contour) : float :=
  mul (of_Q (area c)) (fill_ratio c).

(** [c] is ranked no later than [c']: further left, or as far left with
    at least the product of area and fill ratio. *)
Definition ranks_first (c c' : contour) : Prop :=
  (bx c < bx c')%Z
  \/ (bx c = bx c' /\ le (score c') (score c)).

Definition candidate_of (c : contour) : candidate :=
  mkCandidate (bx c) (by_ c) (bx c + bw c) (by_ c + bh c)
              (of_Q (area c)) (fill_ratio c).

(** The order of the sort keys. *)
Definition key_le (b b' : candidate) : Prop :=
  (cx1 b < cx1 b')%Z
  \/ (cx1 b = cx1 b'
      /\ le (mul (c_area b') (c_fill b')) (mul (c_area b) (c_fill b))).

Definition head_least (l : list candidate) : Prop :=
  match l with
  | [] => True
  | h :: t => forall x, In x t -> key_le h x
  end.

Definition sample_contours : list contour :=
  [ mkContour 700 80 300 300 (85000)%Q 4;
    mkContour 120 90 300 400 (100000)%Q 4;
    mkContour 120 500 300 400 (110000)%Q 4;
    mkContour 10 10 300 300 (45000)%Q 4 ].

(** Two contours at the same x with nearly the same product of area and
    fill ratio: of the exact products, 584936.5 ** 2 / 654556 and
    601318.5 ** 2 / 691733, the second is the greater; of the doubles the
    code computes, the first is, by one unit in the last place. *)
Definition near_tie : list contour :=
  [ mkContour 100 10 679 964 (1169873 # 2)%Q 4;
    mkContour 100 1000 743 931 (1202637 # 2)%Q 4 ].

End Detector.

(** ** Region extractor *)

Module Region.

Local Open Scope Z_scope.

Definition REF_W : Z := 1920.
Definition REF_H : Z := 1080.

Definition NAME_REF_X : Z := 15.
Definition NAME_REF_Y : Z := 54.
Definition NAME_REF_W : Z := 340.
Definition NAME_REF_H : Z := 90.

Definition NAME_REF_X2 : Z := 15.
Definition NAME_REF_Y2 : Z := 4.
Definition NAME_REF_W2 : Z := 340.
Definition NAME_REF_H2 : Z := 90.

(** An image array, or a view into one: the window of the captured frame
    that it covers.  [rows] and [cols] are [shape[0]] and [shape[1]]. *)
Record view := mkView {
  top : Z; left : Z;
  rows : Z; cols : Z
}.

(** A captured frame of the given height and width. *)
Definition frame_of (h w : Z) : view := mkView 0 0 h w.

(** [frame.size] of an array with three channels. *)
Definition size (v : view) : Z := rows v * cols v * 3.

(** The bound of a slice [lo:hi] on an axis of length [n], as Python
    normalises it: negative bounds count from the end, all are clipped. *)
Definition slice_bound (n i : Z) : Z :=
  if i <? 0 then Z.max (i + n) 0 else Z.min i n.

Definition slice_start (n lo hi : Z) : Z := slice_bound n lo.

Definition slice_len (n lo hi : Z) : Z :=
  Z.max (slice_bound n hi - slice_bound n lo) 0.

(** [v[y1:y2, x1:x2]] *)
Definition slice2 (v : view) (y1 y2 x1 x2 : Z) : view :=
  mkView (top v + slice_start (rows v) y1 y2)
         (left v + slice_start (cols v) x1 x2)
         (slice_len (rows v) y1 y2)
         (slice_len (cols v) x1 x2).

Definition _crop_name_region_from_panel_generic
           (frame_bgr : option view) (panel_box : option Box)
           (ref_x ref_y ref_w ref_h : Z) : option view :=
  match frame_bgr, panel_box with
  | Some frame, Some (px1, py1, px2, py2) =>
      if size frame =? 0 then None
      else
        let tooltip := slice2 frame py1 py2 px1 px2 in
        let th := rows frame in
        let tw := cols frame in
        if (th =? 0) || (tw =? 0) then None
        else
          let scale_x := Float64.div (Float64.of_int tw)
                                     (Float64.of_int REF_W) in
          let scale_y := Float64.div (Float64.of_int th)
                                     (Float64.of_int REF_H) in
          let nx1 := Float64.int (Float64.mul (Float64.of_int ref_x)
                                              scale_x) in
          let ny1 := Float64.int (Float64.mul (Float64.of_int ref_y)
                                              scale_y) in
          let nw := Float64.int (Float64.mul (Float64.of_int ref_w)
                                             scale_x) in
          let nh := Float64.int (Float64.mul (Float64.of_int ref_h)
                                             scale_y) in
          let nx2 := nx1 + nw in
          let ny2 := ny1 + nh in
          let nx1 := Z.max 0 (Z.min nx1 (tw - 1)) in
          let ny1 := Z.max 0 (Z.min ny1 (th - 1)) in
          let nx2 := Z.max (nx1 + 1) (Z.min nx2 tw) in
          let ny2 := Z.max (ny1 + 1) (Z.min ny2 th) in
          Some (slice2 tooltip ny1 ny2 nx1 nx2)
  | _, _ => None
  end.

Definition crop_name_region_from_panel frame_bgr panel_box :=
  _crop_name_region_from_panel_generic
    frame_bgr panel_box NAME_REF_X NAME_REF_Y NAME_REF_W NAME_REF_H.

Definition crop_name_region_from_panel_alt frame_bgr panel_box :=
  _crop_name_region_from_panel_generic
    frame_bgr panel_box NAME_REF_X2 NAME_REF_Y2 NAME_REF_W2 NAME_REF_H2.

(** An 8K frame and a detected panel of 200 by 200 pixels in it. *)
Definition frame_8k : view := frame_of 4320 7680.
Definition small_panel : Box := (100, 100, 300, 300).

(** A frame of 1220 rows and a panel of 61 rows in it.  The double of
    1220 / 1080 times 54 is just below 61. *)
Definition frame_1220 : view := frame_of 1220 1920.
Definition low_panel : Box := (100, 100, 500, 161).

End Region.

(** ** OCR throttle: [compute_name_roi_hash] and the dispatch test *)

Module Throttle.

Local Open Scope Z_scope.

(** The 64x16 grayscale reduction of a crop, row by row.  [gray.tobytes()],
    the hash, is the same sequence of pixel values. *)
Definition gray := list Z.

(** The mutable default argument [_cache]. *)
Record hash_cache := mkCache {
  prev_gray : option gray;
  prev_hash : option gray
}.

Definition empty_cache : hash_cache := mkCache None None.

Fixpoint abs_diff_sum (a b : gray) : Z :=
  match a, b with
  | x :: a', y :: b' => Z.abs (x - y) + abs_diff_sum a' b'
  | _, _ => 0
  end.

(** [np.mean(np.abs(a - b))] over arrays of the same shape. *)
Definition mean_abs_diff (a b : gray) : Q :=
  (inject_Z (abs_diff_sum a b) / inject_Z (Z.of_nat (List.length a)))%Q.

(** [diff < diff_threshold]; the mean of an empty array is NaN, which is
    below nothing. *)
Definition diff_below (a b : gray) (diff_threshold : Q) : bool :=
  match a with
  | [] => false
  | _ => Qltb (mean_abs_diff a b) diff_threshold
  end.

(** [small] is the resized grayscale crop, [None] when the crop is missing
    or empty or the resize raises. *)
Definition compute_name_roi_hash (small : option gray) (diff_threshold : Q)
           (_cache : hash_cache) : option gray * hash_cache :=
  match small with
  | None => (None, _cache)
  | Some g =>
      let store := (Some g, mkCache (Some g) (Some g)) in
      match prev_gray _cache with
      | Some pg =>
          if (List.length pg =? List.length g)%nat
          then if diff_below g pg diff_threshold
               then (prev_hash _cache, _cache)
               else store
          else store
      | None => store
      end
  end.

Definition OCR_MIN_INTERVAL : Q := (35 # 100)%Q.

Record throttle_state := mkThrottle {
  cache : hash_cache;
  last_name_roi_hash : option gray;
  LAST_OCR_TIME : Q;
  next_task_id : Z;
  ocr_task_queue : list Z
}.

Definition initial : throttle_state :=
  mkThrottle empty_cache None 0%Q 0 [].

Inductive dispatch := Skipped | Enqueued (id : Z) | DroppedFull (id : Z).

Definition dispatched (d : dispatch) : bool :=
  match d with
  | Skipped => false
  | _ => true
  end.

Definition hash_eqb (a b : option gray) : bool :=
  match a, b with
  | None, None => true
  | Some x, Some y => if list_eq_dec Z.eq_dec x y then true else false
  | _, _ => false
  end.

(** The throttle of a tick on which a panel was found; [now] is the value
    [time.time()] returns.  The task queue holds at most four tasks. *)
Definition dispatch_step (st : throttle_state) (small : option gray)
           (now : Q) : throttle_state * dispatch :=
  let (roi_hash, c) := compute_name_roi_hash small 3%Q (cache st) in
  let idle :=
    (mkThrottle c (last_name_roi_hash st) (LAST_OCR_TIME st)
                (next_task_id st) (ocr_task_queue st), Skipped) in
  match roi_hash with
  | None => idle
  | Some _ =>
      if hash_eqb roi_hash (last_name_roi_hash st) then idle
      else if Qle_bool OCR_MIN_INTERVAL (now - LAST_OCR_TIME st)%Q
      then
        let id := next_task_id st + 1 in
        if (List.length (ocr_task_queue st) <? 4)%nat
        then (mkThrottle c roi_hash now id (ocr_task_queue st ++ [id]),
              Enqueued id)
        else (mkThrottle c roi_hash now id (ocr_task_queue st),
              DroppedFull id)
      else idle
  end.

(** Consecutive panel ticks, each with its reduced crop and its clock. *)
Fixpoint run (st : throttle_state) (ticks : list (option gray * Q))
  : throttle_state * list dispatch :=
  match ticks with
  | [] => (st, [])
  | (small, now) :: rest =>
      let (st1, d) := dispatch_step st small now in
      let (st2, ds) := run st1 rest in
      (st2, d :: ds)
  end.

Definition count_dispatched (ds : list dispatch) : nat :=
  List.length (filter dispatched ds).

(** The hash the throttle computes on a tick. *)
Definition tick_hash (st : throttle_state) (small : option gray)
  : option gray :=
  fst (compute_name_roi_hash small 3%Q (cache st)).

(** A 64x16 reduction whose pixels all have the value [v]. *)
Definition flat (v : Z) : gray := repeat v 1024.

End Throttle.

(** ** OCR worker loop *)

Module Worker.

(** The outcome of a call that may raise: [inl msg] is an exception whose
    [str(e)] is [msg]. *)
Definition raises (A : Type) := (str + A)%type.

Definition ret {A : Type} (a : A) : raises A := inr a.

Definition bind {A B : Type} (m : raises A) (f : A -> raises B)
  : raises B :=
  match m with
  | inl e => inl e
  | inr a => f a
  end.

Notation "x <- m ;; k" := (bind m (fun x => k))
  (at level 61, m at next level, right associativity).

Section Loop.

Variable Roi : Type.

(** [ocr_item_lines] runs the OCR engine and may raise. *)
Variable ocr_item_lines : Roi -> raises (list str).

(** [find_item_row_by_name] on the loaded table. *)
Variable find_row : str -> option Row.

(** [for ln in lines: r = find_item_row_by_name(ln); ... break] *)
Fixpoint first_match (lines : list str) : option (str * Row) :=
  match lines with
  | [] => None
  | ln :: rest =>
      match find_row ln with
      | Some r => Some (ln, r)
      | None => first_match rest
      end
  end.

Definition lines_of (roi : option Roi) : raises (list str) :=
  match roi with
  | Some r => ocr_item_lines r
  | None => ret []
  end.

(** The body of the inner [try]. *)
Definition try_task (task : OcrTask Roi) : raises OcrResult :=
  primary_lines <- lines_of (roi_primary task) ;;
  match first_match primary_lines with
  | Some (ln, r) =>
      ret (mkOcrResult (t_task_id task) (Some ln) (Some r)
                       (t_panel_box task) false None)
  | None =>
      secondary_lines <- lines_of (roi_secondary task) ;;
      match first_match secondary_lines with
      | Some (ln, r) =>
          ret (mkOcrResult (t_task_id task) (Some ln) (Some r)
                           (t_panel_box task) true None)
      | None =>
          ret (mkOcrResult (t_task_id task) None None
                           (t_panel_box task) false None)
      end
  end.

(** The inner [try ... except Exception as e]: what is put on the result
    queue for one task. *)
Definition handle_task (task : OcrTask Roi) : OcrResult :=
  match try_task task with
  | inr res => res
  | inl e =>
      mkOcrResult (t_task_id task) None None (t_panel_box task) false
                  (Some e)
  end.

Record worker_state := mkWorker {
  OCR_API : bool;                      (* an engine instance is held *)
  end_calls : nat;                     (* calls of [OCR_API.End()] *)
  ocr_result_queue : list OcrResult;
  pending : list (option (OcrTask Roi)); (* what is left on the task queue *)
  exited : bool                        (* the thread function returned *)
}.

(** The [while True] loop on the tasks that are, or will be, on the task
    queue.  [None] is the sentinel.  When the tasks run out before a
    sentinel the worker waits in [get()]. *)
Fixpoint worker_loop (queue : list (option (OcrTask Roi)))
         (results : list OcrResult)
  : list OcrResult * list (option (OcrTask Roi)) * bool :=
  match queue with
  | [] => (results, [], false)
  | None :: rest => (results, rest, true)
  | Some task :: rest => worker_loop rest (results ++ [handle_task task])
  end.

(** [ocr_db_worker], started with no engine; [init_ocr] succeeds. *)
Definition ocr_db_worker (queue : list (option (OcrTask Roi)))
           (results : list OcrResult) : worker_state :=
  let '(results', rest, broke) := worker_loop queue results in
  if broke
  then mkWorker false 1 results' rest true
  else mkWorker true 0 results' rest false.

End Loop.

(** The result put on the queue when the task's body raised [e]. *)
Definition error_result {Roi : Type} (task : OcrTask Roi) (e : str)
  : OcrResult :=
  mkOcrResult (t_task_id task) None None (t_panel_box task) false (Some e).

(** A toy engine on numbered crops: crop 0 makes the engine raise, any
    other crop reads as the line "Rope". *)
Definition sample_ocr (roi : nat) : raises (list str) :=
  match roi with
  | O => inl (lit "engine failure")
  | S _ => inr [lit "Rope"]
  end.

Definition sample_row : Row := [("Name"%string, lit "Rope")].

Definition sample_find (ln : str) : option Row :=
  if str_eqb ln (lit "Rope") then Some sample_row else None.

Definition failing_task : OcrTask nat :=
  mkOcrTask 1%Z (Some 0) None (Some (100, 100, 400, 300)%Z).

Definition sample_tasks : list (OcrTask nat) :=
  [ failing_task;
    mkOcrTask 2%Z (Some 1) None (Some (100, 100, 400, 300)%Z) ].

End Worker.

(** ** Placement arithmetic of [show_helper_tooltip] *)

Module Placement.

Local Open Scope Z_scope.

Definition REF_W : Z := 1920.
Definition REF_H : Z := 1080.
Definition HELPER_GAP_X_REF : Z := 4.
Definition HELPER_GAP_Y_REF : Z := 46.

Definition get_helper_gaps (SCREEN_W SCREEN_H : Z) : Z * Z :=
  let w := if SCREEN_W =? 0 then REF_W else SCREEN_W in
  let h := if SCREEN_H =? 0 then REF_H else SCREEN_H in
  let gap_x := py_round (inject_Z (HELPER_GAP_X_REF * w) / inject_Z REF_W)%Q in
  let gap_y := py_round (inject_Z (HELPER_GAP_Y_REF * h) / inject_Z REF_H)%Q in
  (Z.max gap_x 1, Z.max gap_y 1).

Definition horizontal_distance (mx_ tx_ tw_ : Z) : Z :=
  if mx_ <? tx_ then tx_ - mx_
  else if tx_ + tw_ <? mx_ then mx_ - (tx_ + tw_)
  else 0.

Record screen := mkScreen {
  SCREEN_W : Z; SCREEN_H : Z;
  MONITOR_LEFT : Z; MONITOR_TOP : Z
}.

Section Place.

Variable scr : screen.
(** Size of the rendered single-column image and of the compact one. *)
Variables test_w test_h compact_w compact_h : Z.

Definition margin : Z := 10.
Definition min_gap : Z := 4.

Definition side_gap : Z :=
  Z.max (fst (get_helper_gaps (SCREEN_W scr) (SCREEN_H scr))) min_gap.

Definition clamp_to_screen (w h cx cy : Z) : Z * Z :=
  (Z.max margin (Z.min (SCREEN_W scr - margin - w) cx),
   Z.max margin (Z.min (SCREEN_H scr - margin - h) cy)).

Definition try_place (w h mx my cx cy : Z) : option (Z * Z) :=
  let (cx, cy) := clamp_to_screen w h cx cy in
  if (cx <=? mx) && (mx <=? cx + w) && (cy <=? my) && (my <=? cy + h)
  then None
  else Some (cx - 1, cy).

(** The geometry the function hands to the window: [(x, y, w, h)] in
    monitor-local coordinates.  [mouse] is what [get_mouse_position]
    returns, in desktop coordinates; [None] when it has no position. *)
Definition show_helper_tooltip (global_panel_box : Box)
           (used_secondary : bool) (mouse : option (Z * Z))
  : Z * Z * Z * Z :=
  let '(gx1, gy1, gx2, gy2) := global_panel_box in
  let gap_y := snd (get_helper_gaps (SCREEN_W scr) (SCREEN_H scr)) in
  let x_right_for_test := gx2 + side_gap in
  let right_fits_with_single_column :=
    x_right_for_test + test_w <=? SCREEN_W scr - margin in
  let '(w, h) :=
    if right_fits_with_single_column then (test_w, test_h)
    else (compact_w, compact_h) in
  let y := if used_secondary then gy1 else gy1 + gap_y in
  let y := if y <? margin then margin else y in
  let y := if SCREEN_H scr - margin <? y + h
           then SCREEN_H scr - h - margin else y in
  let y := if y <? margin then margin else y in
  let x_right := gx2 + side_gap in
  let x_left := gx1 - side_gap - w in
  let right_fits := x_right + w <=? SCREEN_W scr - margin in
  let mouse :=
    match mouse with
    | Some (mx, my) => Some (mx - MONITOR_LEFT scr, my - MONITOR_TOP scr)
    | None => None
    end in
  let panel_center_x := gx1 + (gx2 - gx1) / 2 in
  let '(x, place_left) :=
    if right_fits then
      match mouse with
      | Some (mx, _) =>
          let d_right := horizontal_distance mx x_right w in
          let d_left := horizontal_distance mx x_left w in
          (if d_left <=? d_right then x_right else x_left, false)
      | None => (x_right, false)
      end
    else
      match mouse with
      | Some (mx, _) =>
          if panel_center_x <? mx then (x_left, true)
          else (margin, false)
      | None =>
          let preferred_center := gx1 + (gx2 - gx1) / 2 in
          (preferred_center - w / 2, false)
      end in
  let x := Z.max 0 (Z.min (SCREEN_W scr - w) x) in
  let y := Z.max 0 (Z.min (SCREEN_H scr - h) y) in
  let '(x, y) :=
    if negb place_left && negb right_fits then
      match mouse with
      | Some (mx, my) =>
          if x <=? mx then
            let align_x := gx1 in
            let under_y := gy2 + side_gap in
            let above_y := gy1 - side_gap - h in
            let fits_under := under_y + h <=? SCREEN_H scr - margin in
            let fits_above := margin <=? above_y in
            let first :=
              if fits_under then try_place w h mx my align_x under_y
              else None in
            match first with
            | Some pos => pos
            | None =>
                let second :=
                  if fits_above then try_place w h mx my align_x above_y
                  else None in
                match second with
                | Some pos => pos
                | None =>
                    match try_place w h mx my align_x under_y with
                    | Some pos => pos
                    | None => (x, y)
                    end
                end
            end
          else (x, y)
      | None => (x, y)
      end
    else (x, y) in
  (x, y, w, h).

End Place.

(** A full-HD screen, a panel near its left edge and an overlay image of
    200 by 300 pixels (150 by 300 when compact). *)
Definition hd_screen : screen := mkScreen 1920 1080 0 0.
Definition left_panel : Box := (100, 100, 400, 300).

(** The pointer position in monitor-local coordinates. *)
Definition local_mouse (scr : screen) (mouse : option (Z * Z))
  : option (Z * Z) :=
  match mouse with
  | Some (mx, my) => Some (mx - MONITOR_LEFT scr, my - MONITOR_TOP scr)
  | None => None
  end.

(** No pointer, or a pointer that is horizontally at least as far from an
    overlay of width [w] at the right anchor of the panel as from one at
    the left anchor. *)
Definition pointer_favours_right (scr : screen) (w : Z)
           (global_panel_box : Box) (mouse : option (Z * Z)) : Prop :=
  let '(gx1, _, gx2, _) := global_panel_box in
  match local_mouse scr mouse with
  | Some (mx, _) =>
      horizontal_distance mx (gx1 - side_gap scr - w) w
      <= horizontal_distance mx (gx2 + side_gap scr) w
  | None => True
  end.

End Placement.

(** * Further parts of [arc_companion.py]

    The functions around the ones above: the clean-up of the OCR text, the
    verdict overrides, the loop of [main_live] as a whole, the choice of the
    monitor, the colours of the settings and the condensing of the tooltip's
    lines; and some notions used to state more about the parts above. *)

(** ** OCR text clean-up: [convert_trailing_roman_numeral], [ocr_item_lines]
       and [ocr_item_name] *)

Module OcrText.

(** [s[-L:]] and [s[:-L]], for [0 < L <= len(s)]. *)
Definition last_chars (L : nat) (s : str) : str := skipn (len s - L) s.
Definition but_last (L : nat) (s : str) : str := firstn (len s - L) s.

Definition patterns : list (str * str) :=
  [ (lit "IV", lit "4"); (lit "III", lit "3");
    (lit "II", lit "2"); (lit "I", lit "1") ].

(** The loop [for roman, digit in patterns] on the right-stripped name [s];
    [name] is what the function returns when no pattern applies.  The
    upper-casing is [token_clean]'s: of the characters 0..255 only the
    letters i, l, v (either case) and the bar have an upper-case form
    among I, L, V and the bar, so the comparison with [roman] comes out as
    in Python. *)
Fixpoint scan_patterns (name s : str) (ps : list (str * str)) : str :=
  match ps with
  | [] => name
  | (roman, digit) :: ps' =>
      let L := len roman in
      if len s <? L then scan_patterns name s ps'
      else
        let tail_original := last_chars L s in
        let tail_norm := token_clean tail_original in
        if str_eqb tail_norm roman then but_last L s ++ digit
        else scan_patterns name s ps'
  end.

Definition convert_trailing_roman_numeral (name : str) : str :=
  match name with
  | [] => name
  | _ =>
      let s := rstrip name in
      match s with
      | [] => name
      | _ =>
          if List.length (split_ws s) <? 2 then name
          else scan_patterns name s patterns
      end
  end.

(** [" ".join(tokens)] *)
Fixpoint join_space (tokens : list str) : str :=
  match tokens with
  | [] => []
  | t :: rest =>
      match rest with
      | [] => t
      | _ => t ++ " "%char :: join_space rest
      end
  end.

(** The loop of [ocr_item_lines] over [text.splitlines()]. *)
Fixpoint clean_lines (raw_lines : list str) : list str :=
  match raw_lines with
  | [] => []
  | raw_line :: rest =>
      let line := join_space (split_ws raw_line) in
      match line with
      | [] => clean_lines rest
      | _ => convert_trailing_roman_numeral line :: clean_lines rest
      end
  end.

(** The characters that read as the numeral I, and as V. *)
Definition reads_I (c : ascii) : bool :=
  existsb (Ascii.eqb c) ["I"; "i"; "L"; "l"; "|"]%char.

Definition reads_V (c : ascii) : bool :=
  existsb (Ascii.eqb c) ["V"; "v"]%char.

(** [s] ends in a character that reads as I, or in two that read as IV. *)
Definition ends_in_numeral (s : str) : bool :=
  match rev s with
  | c :: rest =>
      reads_I c
      || (reads_V c && match rest with d :: _ => reads_I d | [] => false end)
  | [] => false
  end.

Definition no_space (t : str) : Prop :=
  forall c, In c t -> isspace c = false.

(** A line as the clean-up leaves it: not empty, no blank at either end,
    and no whitespace but plain spaces. *)
Definition tidy (l : str) : Prop :=
  l <> [] /\ trimmed l
  /\ forall c, In c l -> isspace c = true -> c = " "%char.

Section Engine.

Variable Roi : Type.

(** The text the engine reads off a crop, cut by [splitlines()]. *)
Variable text_lines : Roi -> list str.

(** [find_item_row_by_name] on the loaded table. *)
Variable find_row : str -> option Row.

(** [name_roi_bgr] is [None] for a crop that is missing or empty. *)
Definition ocr_item_lines (name_roi_bgr : option Roi) : list str :=
  match name_roi_bgr with
  | None => []
  | Some roi => clean_lines (text_lines roi)
  end.

(** [for ln in candidates: if find_item_row_by_name(ln) is not None:
    return ln] *)
Fixpoint first_found (candidates : list str) : option str :=
  match candidates with
  | [] => None
  | ln :: rest =>
      match find_row ln with
      | Some _ => Some ln
      | None => first_found rest
      end
  end.

(** [max(candidates, key=len)]: the first line of greatest length. *)
Fixpoint longest (best : str) (l : list str) : str :=
  match l with
  | [] => best
  | ln :: l' => longest (if len best <? len ln then ln else best) l'
  end.

Definition ocr_item_name (name_roi_bgr : option Roi) : str :=
  match ocr_item_lines name_roi_bgr with
  | [] => []
  | c :: rest =>
      match first_found (c :: rest) with
      | Some ln => ln
      | None => longest c rest
      end
  end.

End Engine.

End OcrText.

(** ** Verdict overrides: [get_effective_verdict] and
       [cycle_verdict_for_current_item] *)

Module Verdicts.

Local Open Scope Z_scope.

Definition VERDICT_CYCLE : list str :=
  [ lit "KEEP"; lit "RECYCLE"; lit "SELL" ].

(** [a or b] on an optional string and a string. *)
Definition or_else (a : option str) (b : str) : str :=
  match a with
  | Some (c :: s) => c :: s
  | _ => b
  end.

(** [l.index(x)] for an [x] that is in [l]. *)
Fixpoint index_of (x : str) (l : list str) : nat :=
  match l with
  | [] => O
  | y :: l' => if str_eqb x y then O else S (index_of x l')
  end.

(** The two globals the verdict code writes. *)
Record verdict_state := mkVerdicts {
  USER_VERDICTS : dict str;
  TOOLTIP_NEEDS_REFRESH : bool
}.

Section Upper.

(** Python's [str.upper]. *)
Variable str_upper : str -> str.

(** A row is falsy when it is [None] or has no column. *)
Definition get_effective_verdict (overrides : dict str)
           (row : option Row) (detected_name : option str) : str :=
  let base :=
    str_upper match row with
              | Some (col :: r) => row_get (col :: r) "Verdict" []
              | _ => []
              end in
  let name_key :=
    strip match row with
          | Some (col :: r) => row_get (col :: r) "Name" []
          | _ => match detected_name with Some n => n | None => [] end
          end in
  let override :=
    match name_key with
    | [] => None
    | _ => dict_get overrides name_key
    end in
  let eff := str_upper (or_else override base) in
  match eff with
  | [] => lit "UNKNOWN"
  | _ => eff
  end.

Definition cycle_verdict_for_current_item (LAST_SHOWN_ROW : option Row)
           (direction : Z) (st : verdict_state) : verdict_state :=
  match LAST_SHOWN_ROW with
  | None => st
  | Some shown =>
      let name := row_get shown "Name" [] in
      match name with
      | [] => st
      | _ =>
          let base := str_upper (row_get shown "Verdict" []) in
          let current :=
            or_else (dict_get (USER_VERDICTS st) name)
                    (or_else (Some base) (nth 0 VERDICT_CYCLE [])) in
          let current :=
            if existsb (str_eqb current) VERDICT_CYCLE then current
            else nth 0 VERDICT_CYCLE [] in
          let idx := Z.of_nat (index_of current VERDICT_CYCLE) in
          let idx :=
            if 0 <=? direction
            then (idx + 1) mod Z.of_nat (List.length VERDICT_CYCLE)
            else (idx - 1) mod Z.of_nat (List.length VERDICT_CYCLE) in
          let new_verdict := nth (Z.to_nat idx) VERDICT_CYCLE [] in
          mkVerdicts (dict_set (USER_VERDICTS st) name new_verdict) true
      end
  end.

End Upper.

(** The verdict a press moves to, from a verdict of the cycle. *)
Definition turn (direction : Z) (v : str) : str :=
  let idx := Z.of_nat (index_of v VERDICT_CYCLE) in
  let idx := if 0 <=? direction then (idx + 1) mod 3 else (idx - 1) mod 3 in
  nth (Z.to_nat idx) VERDICT_CYCLE [].

End Verdicts.

(** ** Geometry of the crops *)

Module Geometry.

Import Region.
Local Open Scope Z_scope.

(** The start offset [nx1] (or [ny1]) of a crop inside the panel image, on
    an axis on which the frame has length [dim]: the reference offset
    scaled by the double [dim / ref_dim], the product, a double again,
    truncated, and clamped to [0, dim - 1]. *)
Definition start_offset (ref dim ref_dim : Z) : Z :=
  Z.max 0
        (Z.min (Float64.int
                  (Float64.mul (Float64.of_int ref)
                               (Float64.div (Float64.of_int dim)
                                            (Float64.of_int ref_dim))))
               (dim - 1)).

(** The window [inner] lies within the window [outer]. *)
Definition within (inner outer : view) : Prop :=
  top outer <= top inner
  /\ top inner + rows inner <= top outer + rows outer
  /\ left outer <= left inner
  /\ left inner + cols inner <= left outer + cols outer.

End Geometry.

(** ** Pacing of the OCR dispatches *)

Module Pacing.

Import Throttle.

(** The dispatches among [events] (clock reading and outcome of consecutive
    panel ticks) are at least [OCR_MIN_INTERVAL] apart, the first one from
    [last]. *)
Fixpoint spaced (last : Q) (events : list (Q * dispatch)) : Prop :=
  match events with
  | [] => True
  | (now, d) :: rest =>
      if dispatched d
      then (OCR_MIN_INTERVAL <= now - last)%Q /\ spaced now rest
      else spaced last rest
  end.

(** The two entries of [_cache] belong together: [prev_hash] is the bytes
    of [prev_gray]. *)
Definition cache_ok (c : hash_cache) : Prop := prev_hash c = prev_gray c.

End Pacing.

(** ** One pass of the loop of [main_live]

    The capture loop, pass by pass.  What a pass takes from outside (the
    settings file, the hotkey listener, the screen, the clock, the OCR
    worker) is an input of the pass; the detector, the throttle and the
    result drain are the ones above.  Tk and the queues do not raise. *)

Module Live.

Import Drain Throttle.
Local Open Scope Z_scope.

Definition MISSING_FRAMES_BEFORE_HIDE : Z := 2.

(** The locals of [main_live] and the globals it writes. *)
Record live_state := mkLive {
  shown : loop_state;
  throttle : throttle_state;
  last_panel_box : option Box;
  missing_frames : Z;
  TOOLTIP_NEEDS_REFRESH : bool
}.

Record pass_input := mkPass {
  (** the settings file is newer than at the last look *)
  settings_changed : bool;
  (** the hotkey listener, on its own thread, ran
      [cycle_verdict_for_current_item] and raised [TOOLTIP_NEEDS_REFRESH]
      before the pass looks at the flag *)
  verdict_cycled : bool;
  (** tasks the worker took off the task queue since the last pass *)
  worker_took : nat;
  (** [always_on or HOTKEY_HELD] *)
  gating_active : bool;
  (** the contours of the mask of the grabbed frame *)
  contours : list Detector.contour;
  (** the 64x16 grayscale reduction of the primary crop, [None] when the
      crop is missing or empty *)
  small : option gray;
  (** [time.time()] at the throttle *)
  now : Q;
  (** what the result queue holds when it is drained *)
  ocr_results : list OcrResult;
  (** the rectangle [show_helper_tooltip] gives the overlay *)
  helper_rect : Box;
  (** the listener raised [TOOLTIP_NEEDS_REFRESH] later in the pass: after
      the pass looked at the flag and, when the pass showed the overlay,
      after it lowered the flag.  (A press while [show_helper_tooltip]
      runs is undone by the pass's own [TOOLTIP_NEEDS_REFRESH = False] and
      leaves the flag as a pass without a press does.) *)
  verdict_cycled_late : bool
}.

Definition box_eqb (a b : Box) : bool :=
  let '(a1, a2, a3, a4) := a in
  let '(b1, b2, b3, b4) := b in
  (a1 =? b1) && (a2 =? b2) && (a3 =? b3) && (a4 =? b4).

(** Equality of the content of two rows. *)
Fixpoint row_eqb (a b : Row) : bool :=
  match a, b with
  | [], [] => true
  | (c, v) :: a', (d, w) :: b' =>
      String.eqb c d && str_eqb v w && row_eqb a' b'
  | _, _ => false
  end.

Definition with_shown (st : live_state) (s : loop_state) : live_state :=
  mkLive s (throttle st) (last_panel_box st) (missing_frames st)
         (TOOLTIP_NEEDS_REFRESH st).

Definition with_missing (st : live_state) (n : Z) : live_state :=
  mkLive (shown st) (throttle st) (last_panel_box st) n
         (TOOLTIP_NEEDS_REFRESH st).

(** [last_name = None; last_row = None; last_panel_box = None;
    last_name_roi_hash = None; last_used_secondary = False;
    hide_helper_tooltip(); LAST_SHOWN_ROW = None;
    LAST_SHOWN_PANEL_BOX = None] *)
Definition lose (st : live_state) : live_state :=
  let t := throttle st in
  mkLive (clear_shown (shown st))
         (mkThrottle (cache t) None (LAST_OCR_TIME t) (next_task_id t)
                     (ocr_task_queue t))
         None (missing_frames st) (TOOLTIP_NEEDS_REFRESH st).

(** The start of a pass: the settings check, and what the other threads
    did before the pass reads what they write. *)
Definition arrive (inp : pass_input) (st : live_state) : live_state :=
  let t := throttle st in
  mkLive (shown st)
         (mkThrottle (cache t) (last_name_roi_hash t) (LAST_OCR_TIME t)
                     (next_task_id t)
                     (skipn (worker_took inp) (ocr_task_queue t)))
         (last_panel_box st) (missing_frames st)
         (TOOLTIP_NEEDS_REFRESH st || settings_changed inp
          || verdict_cycled inp).

(** The detection part, [if gating_active: ... else: ...]. *)
Definition detect (inp : pass_input) (st : live_state) : live_state :=
  if gating_active inp then
    match Detector.find_tooltip_panel_by_color (contours inp) with
    | Some panel_box =>
        mkLive (shown st)
               (fst (dispatch_step (throttle st) (small inp) (now inp)))
               (Some panel_box) 0 (TOOLTIP_NEEDS_REFRESH st)
    | None =>
        let st := with_missing st (missing_frames st + 1) in
        if MISSING_FRAMES_BEFORE_HIDE <=? missing_frames st
        then lose st else st
    end
  else
    let st :=
      if is_some (last_name (shown st)) || is_some (last_row (shown st))
         || is_some (last_panel_box st)
      then lose st else st in
    with_missing st 0.

(** The rest of a pass, up to the end of its sleep: the listener may raise
    the flag once more. *)
Definition depart (inp : pass_input) (st : live_state) : live_state :=
  mkLive (shown st) (throttle st) (last_panel_box st) (missing_frames st)
         (TOOLTIP_NEEDS_REFRESH st || verdict_cycled_late inp).

Section Identity.

(** [a is b] on two rows. *)
Variable same_object : Row -> Row -> bool.

(** The last part of a pass: show, keep or hide. *)
Definition present (inp : pass_input) (tooltip_active : bool)
           (st : live_state) : live_state :=
  let s := shown st in
  match (if tooltip_active then last_panel_box st else None),
        last_row s with
  | Some pb, Some r =>
      if negb match LAST_SHOWN_ROW s with
              | Some r' => same_object r r'
              | None => false
              end
         || negb match LAST_SHOWN_PANEL_BOX s with
                 | Some pb' => box_eqb pb pb'
                 | None => false
                 end
         || TOOLTIP_NEEDS_REFRESH st
      then
        mkLive (mkLoopState (latest_result_id s) (last_name s)
                            (last_row s) (last_used_secondary s)
                            (Some r) (Some pb) true
                            (Some (helper_rect inp)))
               (throttle st) (last_panel_box st) (missing_frames st)
               false
      else st
  | _, _ =>
      if is_some (LAST_SHOWN_ROW s) || is_some (LAST_SHOWN_PANEL_BOX s)
      then
        with_shown st
                   (mkLoopState (latest_result_id s) (last_name s)
                                (last_row s) (last_used_secondary s)
                                None None false None)
      else st
  end.

Definition pass (inp : pass_input) (st : live_state) : live_state :=
  let st := arrive inp st in
  let st := detect inp st in
  let tooltip_active :=
    gating_active inp && is_some (last_panel_box st) in
  let st :=
    with_shown st
               (fst (drain tooltip_active (shown st) (ocr_results inp))) in
  depart inp (present inp tooltip_active st).

Definition run_passes (inputs : list pass_input) (st : live_state)
  : live_state :=
  fold_left (fun st inp => pass inp st) inputs st.

End Identity.

(** The state in which [main_live] enters its loop. *)
Definition start : live_state :=
  mkLive (mkLoopState (-1) None None false None None false None)
         initial None 0 false.

(** The overlay's globals agree with each other. *)
Definition coherent (s : loop_state) : Prop :=
  if TOOLTIP_VISIBLE s then is_some (LAST_SHOWN_ROW s) = true
  else LAST_SHOWN_ROW s = None /\ LAST_SHOWN_PANEL_BOX s = None
       /\ HELPER_SCREEN_RECT s = None.

(** What holds of the state between two passes. *)
Definition settled (st : live_state) : Prop :=
  0 <= missing_frames st
  /\ Pacing.cache_ok (cache (throttle st))
  /\ if TOOLTIP_VISIBLE (shown st)
     then exists r pb,
            last_row (shown st) = Some r
            /\ LAST_SHOWN_ROW (shown st) = Some r
            /\ last_panel_box st = Some pb
            /\ LAST_SHOWN_PANEL_BOX (shown st) = Some pb
     else LAST_SHOWN_ROW (shown st) = None
          /\ LAST_SHOWN_PANEL_BOX (shown st) = None
          /\ HELPER_SCREEN_RECT (shown st) = None.

(** A pass with the gate open in which no panel is found. *)
Definition miss (inp : pass_input) : Prop :=
  gating_active inp = true
  /\ Detector.find_tooltip_panel_by_color (contours inp) = None.

Definition rope_result : OcrResult :=
  ok_result 1 (Some (lit "Rope")) (Some Worker.sample_row)
            (Some (100, 100, 400, 300)) false.

(** A pass with the gate open in which the detector finds the panel of
    [sample_contours], the throttle sees a crop and the worker's result
    names "Rope". *)
Definition sighting : pass_input :=
  mkPass false false 0 true Detector.sample_contours (Some (flat 0))
         1000%Q [rope_result] (404, 146, 604, 446) false.

(** The same pass without a panel and without a result. *)
Definition blank : pass_input :=
  mkPass false false 0 true [] None 1001%Q [] (404, 146, 604, 446) false.

(** The crop of the sighting is seen again two seconds after the loss. *)
Definition resighting : pass_input :=
  mkPass false false 1 true Detector.sample_contours (Some (flat 0))
         1003%Q [] (404, 146, 604, 446) false.

End Live.

(** ** Choice of the monitor: [get_arc_raiders_monitor] *)

Module Monitors.

Local Open Scope Z_scope.

(** An entry of [sct.monitors]. *)
Record monitor := mkMonitor {
  m_left : Z; m_top : Z; m_width : Z; m_height : Z
}.

(** [m_left <= win_cx < m_right and m_top <= win_cy < m_bottom] *)
Definition holds (win_cx win_cy : Z) (m : monitor) : bool :=
  let m_right := m_left m + m_width m in
  let m_bottom := m_top m + m_height m in
  (m_left m <=? win_cx) && (win_cx <? m_right)
  && (m_top m <=? win_cy) && (win_cy <? m_bottom).

(** [sct.monitors[1]] is [primary], [sct.monitors[2:]] is [others].
    [window] is the rectangle of the game's window; it is [None] off
    Windows, when no visible window carries the title and when
    [GetWindowRect] fails. *)
Definition get_arc_raiders_monitor (primary : monitor)
           (others : list monitor) (window : option (Z * Z * Z * Z))
  : monitor :=
  match window with
  | None => primary
  | Some (win_left, win_top, win_right, win_bottom) =>
      let win_cx := (win_left + win_right) / 2 in
      let win_cy := (win_top + win_bottom) / 2 in
      match find (holds win_cx win_cy) (primary :: others) with
      | Some chosen_monitor => chosen_monitor
      | None => primary
      end
  end.

End Monitors.

(** ** Colours of the settings: [parse_color_hex] *)

Module Colors.

Local Open Scope Z_scope.

(** [s[i:j]] for [0 <= i <= j]. *)
Definition slice (i j : nat) (s : str) : str := firstn (j - i) (skipn i s).

(** [max(0, min(255, v))] *)
Definition clamp255 (v : Z) : Z := Z.max 0 (Z.min 255 v).

(** The value of a hexadecimal digit. *)
Definition hex_digit (c : ascii) : option Z :=
  let n := code c in
  if between 48 57 n then Some (Z.of_nat (n - 48))
  else if between 65 70 n then Some (Z.of_nat (n - 55))
  else if between 97 102 n then Some (Z.of_nat (n - 87))
  else None.

(** A string of two hexadecimal digits, read as a number. *)
Definition hex_pair (s : str) : option Z :=
  match s with
  | [c; d] =>
      match hex_digit c, hex_digit d with
      | Some v, Some w => Some (16 * v + w)
      | _, _ => None
      end
  | _ => None
  end.

Section Int.

(** [int(s, 16)] of Python; [None] is a [ValueError]. *)
Variable int16 : str -> option Z.

(** [value] is [None] for [None]; everything else the caller passes is a
    string. *)
Definition parse_color_hex (value : option str)
           (default_rgba : Z * Z * Z * Z) : Z * Z * Z * Z :=
  let s := strip match value with Some v => v | None => [] end in
  match s with
  | [] => default_rgba
  | c :: s' =>
      let s := if Ascii.eqb c "#" then s' else s in
      if negb ((len s =? 6)%nat || (len s =? 8)%nat) then default_rgba
      else
        match int16 (slice 0 2 s) with
        | None => default_rgba
        | Some r =>
            match int16 (slice 2 4 s) with
            | None => default_rgba
            | Some g =>
                match int16 (slice 4 6 s) with
                | None => default_rgba
                | Some b =>
                    if (len s =? 8)%nat then
                      match int16 (slice 6 8 s) with
                      | None => default_rgba
                      | Some a =>
                          (clamp255 r, clamp255 g, clamp255 b, clamp255 a)
                      end
                    else
                      (clamp255 r, clamp255 g, clamp255 b, clamp255 255)
                end
            end
        end
  end.

End Int.

(** The channels of a colour are bytes. *)
Definition is_rgba (c : Z * Z * Z * Z) : Prop :=
  let '(r, g, b, a) := c in
  0 <= r <= 255 /\ 0 <= g <= 255 /\ 0 <= b <= 255 /\ 0 <= a <= 255.

End Colors.

(** ** Condensing lines that differ by a roman numeral:
       [condense_roman_variants] *)

Module Condense.

Import OcrText.

Definition ROMAN_SUFFIXES : list str :=
  [ lit "I"; lit "II"; lit "III"; lit "IV" ].

(** [ROMAN_ORDER.get(r, 99)] *)
Definition roman_order (r : str) : nat :=
  if str_eqb r (lit "I") then 0
  else if str_eqb r (lit "II") then 1
  else if str_eqb r (lit "III") then 2
  else if str_eqb r (lit "IV") then 3
  else 99.

Fixpoint drop_while (p : ascii -> bool) (s : str) : str :=
  match s with
  | c :: s' => if p c then drop_while p s' else s
  | [] => []
  end.

(** [s.rstrip(chars)] *)
Definition rstrip_chars (chars s : str) : str :=
  rev (drop_while (fun c => existsb (Ascii.eqb c) chars) (rev s)).

(** [sep.join(tokens)] *)
Fixpoint join_with (sep : str) (tokens : list str) : str :=
  match tokens with
  | [] => []
  | t :: rest =>
      match rest with
      | [] => t
      | _ => t ++ sep ++ join_with sep rest
      end
  end.

(** [re.match(r"^\s*(\d+)\s*[x]\s*(.+)$", line)], groups 1 and 2, on a line
    that does not end in whitespace (the loop strips the line first):
    leading whitespace, a maximal run of digits, whitespace, the letter x,
    whitespace, and a non-empty rest without a line feed, which [.] does
    not match. *)
Definition match_qty (line : str) : option (str * str) :=
  let (digits, after) := span isdecimal (lstrip line) in
  match digits with
  | [] => None
  | _ =>
      match lstrip after with
      | "x"%char :: after_x =>
          match lstrip after_x with
          | [] => None
          | rest =>
              if existsb (Ascii.eqb "010"%char) rest then None
              else Some (digits, rest)
          end
      | _ => None
      end
  end.

(** A group of the dictionary [groups]. *)
Record group := mkGroup {
  g_base : str;
  g_qty : option str;
  g_romans : list str;
  g_first_index : nat
}.

Definition key_eqb (a b : str * str) : bool :=
  str_eqb (fst a) (fst b) && str_eqb (snd a) (snd b).

(** [groups.get(key)] *)
Fixpoint groups_get (groups : list (str * str * group)) (key : str * str)
  : option group :=
  match groups with
  | [] => None
  | (k, g) :: groups' =>
      if key_eqb key k then Some g else groups_get groups' key
  end.

(** [groups[key] = g], and the effect of changing the group of [key] in
    place. *)
Fixpoint groups_set (groups : list (str * str * group)) (key : str * str)
         (g : group) : list (str * str * group) :=
  match groups with
  | [] => [(key, g)]
  | (k, g') :: groups' =>
      if key_eqb key k then (k, g) :: groups'
      else (k, g') :: groups_set groups' key g
  end.

(** What the loop body reads off a stripped, non-empty line that goes into
    a group: the base, the quantity and the numeral; [None] for a line
    that is passed through. *)
Definition numeral_line (line : str) : option (str * option str * str) :=
  let '(qty_str, rest) :=
    match match_qty line with
    | Some (q, r) => (Some q, strip r)
    | None => (None, line)
    end in
  let rest_no_punct := rstrip_chars (lit ",.;: ") rest in
  let tokens := split_ws rest_no_punct in
  if 2 <=? List.length tokens then
    let last_norm := token_clean (last tokens []) in
    if existsb (str_eqb last_norm) ROMAN_SUFFIXES
    then Some (join_space (removelast tokens), qty_str, last_norm)
    else None
  else None.

(** [for idx, original in enumerate(lines)] *)
Fixpoint roman_loop (idx : nat) (lines : list str)
         (groups : list (str * str * group))
         (passthrough : list (nat * str))
  : list (str * str * group) * list (nat * str) :=
  match lines with
  | [] => (groups, passthrough)
  | original :: lines' =>
      match strip original with
      | [] => roman_loop (S idx) lines' groups passthrough
      | line =>
          match numeral_line line with
          | Some (base, qty_str, roman) =>
              let key :=
                (lower base,
                 match qty_str with Some q => q | None => [] end) in
              let g :=
                match groups_get groups key with
                | None => mkGroup base qty_str [roman] idx
                | Some g =>
                    if existsb (str_eqb roman) (g_romans g) then g
                    else mkGroup (g_base g) (g_qty g)
                                 (g_romans g ++ [roman]) (g_first_index g)
                end in
              roman_loop (S idx) lines' (groups_set groups key g)
                         passthrough
          | None =>
              roman_loop (S idx) lines' groups
                         (passthrough ++ [(idx, original)])
          end
      end
  end.

(** [sorted(l, key=...)] and [l.sort(key=...)] are stable: an element goes
    before the first element whose key is not smaller than its own. *)
Fixpoint insert_by {A : Type} (key : A -> nat) (x : A) (l : list A)
  : list A :=
  match l with
  | [] => [x]
  | y :: l' => if key y <? key x then y :: insert_by key x l' else x :: l
  end.

Fixpoint sort_by {A : Type} (key : A -> nat) (l : list A) : list A :=
  match l with
  | [] => []
  | x :: l' => insert_by key x (sort_by key l')
  end.

Definition group_line (drop_suffix : bool) (g : group) : str :=
  let romans_sorted := sort_by roman_order (g_romans g) in
  let head :=
    match g_qty g with
    | Some q => q ++ lit "x " ++ g_base g
    | None => g_base g
    end in
  if drop_suffix then head
  else head ++ lit " " ++ join_with (lit ", ") romans_sorted.

Definition condense_roman_variants (lines : list str) (drop_suffix : bool)
  : list str :=
  let '(groups, passthrough) := roman_loop 0 lines [] [] in
  let out_entries :=
    map (fun kg => (g_first_index (snd kg), group_line drop_suffix (snd kg)))
        groups
    ++ passthrough in
  map snd (sort_by fst out_entries).

(** The line is passed through by the loop: it is not blank and does not
    go into a group. *)
Definition passed (original : str) : bool :=
  match strip original with
  | [] => false
  | line =>
      match numeral_line line with
      | Some _ => false
      | None => true
      end
  end.

(** The entries of [passthrough] the loop adds for [lines], the first of
    which has the index [idx]. *)
Fixpoint pass_entries (idx : nat) (lines : list str) : list (nat * str) :=
  match lines with
  | [] => []
  | original :: lines' =>
      if passed original then (idx, original) :: pass_entries (S idx) lines'
      else pass_entries (S idx) lines'
  end.

(** [l1] is [l2] with some elements left out. *)
Inductive subseq {A : Type} : list A -> list A -> Prop :=
| subseq_nil : subseq [] []
| subseq_take (x : A) (l1 l2 : list A) :
    subseq l1 l2 -> subseq (x :: l1) (x :: l2)
| subseq_skip (x : A) (l1 l2 : list A) :
    subseq l1 l2 -> subseq l1 (x :: l2).

(** The elements of [l] in the order of their first occurrence. *)
Fixpoint first_occurrences (seen l : list str) : list str :=
  match l with
  | [] => []
  | x :: l' =>
      if existsb (str_eqb x) seen then first_occurrences seen l'
      else x :: first_occurrences (seen ++ [x]) l'
  end.

End Condense.

(** * Verification *)

Unset Implicit Arguments.

(** ** Boolean comparisons on rationals *)

Module QFacts.

Lemma Qltb_false (a b : Q) : Qltb a b = false <-> (b <= a)%Q.
Proof.
  unfold Qltb. rewrite negb_false_iff. apply Qle_bool_iff.
Qed.

Lemma Qltb_true (a b : Q) : Qltb a b = true <-> (a < b)%Q.
Proof.
  unfold Qltb. rewrite negb_true_iff. split.
  - intros H. apply Qnot_le_lt. intros L.
    apply Qle_bool_iff in L. congruence.
  - intros H. destruct (Qle_bool b a) eqn:E; [|reflexivity].
    apply Qle_bool_iff in E. exfalso. exact (Qlt_not_le _ _ H E).
Qed.

Lemma Qle_bool_false (a b : Q) : Qle_bool a b = false <-> (b < a)%Q.
Proof.
  split.
  - intros H. apply Qnot_le_lt. intros L.
    apply Qle_bool_iff in L. congruence.
  - intros H. destruct (Qle_bool a b) eqn:E; [|reflexivity].
    apply Qle_bool_iff in E. exfalso. exact (Qlt_not_le _ _ H E).
Qed.

End QFacts.

Import QFacts.

(** ** Facts about dictionaries and [build_item_lookup] *)

Module LookupFacts.

Lemma str_eqb_eq (a b : str) : str_eqb a b = true <-> a = b.
Proof.
  unfold str_eqb. destruct (list_eq_dec ascii_dec a b); split;
    intros; congruence.
Qed.

Lemma str_eqb_refl (a : str) : str_eqb a a = true.
Proof. now apply str_eqb_eq. Qed.

Lemma str_eqb_neq (a b : str) : str_eqb a b = false <-> a <> b.
Proof.
  unfold str_eqb. destruct (list_eq_dec ascii_dec a b); split;
    intros; congruence.
Qed.

Section DictLemmas.
Variable V : Type.
Implicit Types (d : dict V) (k : str) (v : V).

Lemma dict_get_set d k v k' :
  dict_get (dict_set d k v) k'
  = if str_eqb k' k then Some v else dict_get d k'.
Proof.
  induction d as [|[k0 v0] d IH]; simpl.
  - reflexivity.
  - destruct (str_eqb k k0) eqn:E; simpl.
    + apply str_eqb_eq in E. subst k0.
      destruct (str_eqb k' k); reflexivity.
    + rewrite IH. destruct (str_eqb k' k0) eqn:E0; [|reflexivity].
      apply str_eqb_eq in E0. subst k0.
      destruct (str_eqb k' k) eqn:E1; [|reflexivity].
      apply str_eqb_eq in E1. subst k'.
      rewrite str_eqb_refl in E. discriminate.
Qed.

Lemma dict_get_In d k v : dict_get d k = Some v -> In k (dict_keys d).
Proof.
  induction d as [|[k0 v0] d IH]; simpl; [discriminate|].
  destruct (str_eqb k k0) eqn:E.
  - apply str_eqb_eq in E. now left.
  - intros H. right. now apply IH.
Qed.

Lemma dict_keys_get d k :
  In k (dict_keys d) -> exists v, dict_get d k = Some v.
Proof.
  induction d as [|[k0 v0] d IH]; simpl; [intros []|].
  destruct (str_eqb k k0) eqn:E.
  - intros _. now exists v0.
  - intros [H|H]; [|now apply IH].
    subst k0. rewrite str_eqb_refl in E. discriminate.
Qed.

End DictLemmas.

Lemma find_app {A : Type} (p : A -> bool) (l1 l2 : list A) :
  find p (l1 ++ l2)
  = match find p l1 with Some x => Some x | None => find p l2 end.
Proof.
  induction l1 as [|x l1 IH]; simpl; [reflexivity|].
  destruct (p x); [reflexivity|exact IH].
Qed.

Lemma build_loop_lookup (rows : list Row) :
  forall idx L O k,
    dict_get (fst (build_loop idx rows L O)) k
    = match last_such (has_key k) rows with
      | Some r => Some r
      | None => dict_get L k
      end.
Proof.
  unfold last_such.
  induction rows as [|row rows IH]; intros idx L O k; simpl.
  - reflexivity.
  - rewrite find_app. simpl.
    unfold has_key at 2, row_key.
    destruct (strip (row_get row "Name" [])) as [|c name] eqn:En.
    + rewrite IH. destruct (find (has_key k) (rev rows)); reflexivity.
    + rewrite IH. destruct (find (has_key k) (rev rows)); [reflexivity|].
      rewrite dict_get_set.
      destruct (str_eqb k (normalize_name_for_match (c :: name))) eqn:E.
      * apply str_eqb_eq in E. rewrite <- E, str_eqb_refl. reflexivity.
      * destruct (str_eqb (normalize_name_for_match (c :: name)) k) eqn:E'.
        { apply str_eqb_eq in E'. rewrite E', str_eqb_refl in E.
          discriminate. }
        reflexivity.
Qed.

Lemma build_loop_order (rows : list Row) :
  forall idx L O k,
    dict_get (snd (build_loop idx rows L O)) k
    = match dict_get O k with
      | Some i => Some i
      | None => option_map (Nat.add idx) (first_index (has_key k) rows)
      end.
Proof.
  induction rows as [|row rows IH]; intros idx L O k; simpl.
  - destruct (dict_get O k); reflexivity.
  - unfold has_key at 1, row_key.
    destruct (strip (row_get row "Name" [])) as [|c name] eqn:En.
    + rewrite IH. destruct (dict_get O k); [reflexivity|].
      destruct (first_index (has_key k) rows); simpl; [|reflexivity].
      f_equal. lia.
    + set (norm := normalize_name_for_match (c :: name)).
      rewrite IH. unfold dict_mem.
      destruct (str_eqb norm k) eqn:E.
      * apply str_eqb_eq in E. subst k.
        destruct (dict_get O norm) eqn:G; [now rewrite G|].
        rewrite dict_get_set, str_eqb_refl. simpl. f_equal. lia.
      * assert (E' : str_eqb k norm = false).
        { apply str_eqb_neq. apply str_eqb_neq in E. congruence. }
        destruct (dict_get O norm) eqn:G.
        { destruct (dict_get O k); [reflexivity|].
          destruct (first_index (has_key k) rows); simpl; [|reflexivity].
          f_equal. lia. }
        rewrite dict_get_set, E'.
        destruct (dict_get O k); [reflexivity|].
        destruct (first_index (has_key k) rows); simpl; [|reflexivity].
        f_equal. lia.
Qed.

(** C10. For every database and every key, [ITEM_LOOKUP] maps the key to
    the last row whose name normalizes to it and [ITEM_ORDER] maps it to
    the position of the first such row; and there is a database with two
    colliding names where the row looked up is not the row at the recorded
    position. *)
Theorem lookup_keeps_last_order_keeps_first :
  (forall (rows : list Row) (k : str),
      dict_get (fst (build_item_lookup rows)) k = last_such (has_key k) rows
      /\ dict_get (snd (build_item_lookup rows)) k
         = first_index (has_key k) rows)
  /\ (exists (rows : list Row) (k : str) (r : Row) (i : nat),
         dict_get (fst (build_item_lookup rows)) k = Some r
         /\ dict_get (snd (build_item_lookup rows)) k = Some i
         /\ nth_error rows i <> Some r).
Proof.
  split.
  - intros rows k. unfold build_item_lookup. split.
    + rewrite build_loop_lookup. simpl.
      destruct (last_such (has_key k) rows); reflexivity.
    + rewrite build_loop_order. simpl.
      destruct (first_index (has_key k) rows); reflexivity.
  - exists colliding_rows, (lit "mag 2"),
           [("Name"%string, lit "MAG 2"); ("Verdict"%string, lit "SELL")], 0.
    vm_compute. repeat split; try reflexivity. discriminate.
Qed.

End LookupFacts.

(** ** Facts about the string primitives *)

Module StrFacts.

Ltac each_char c :=
  destruct c as [[] [] [] [] [] [] [] []].

Lemma lstrip_split (s : str) :
  exists w, s = w ++ lstrip s /\ forallb isspace w = true.
Proof.
  induction s as [|c s IH]; simpl.
  - now exists [].
  - destruct (isspace c) eqn:E.
    + destruct IH as (w & Hs & Hw). exists (c :: w). simpl.
      rewrite E, Hw. split; [now f_equal|reflexivity].
    + now exists [].
Qed.

Lemma lstrip_head (s : str) (c : ascii) (r : str) :
  lstrip s = c :: r -> isspace c = false.
Proof.
  induction s as [|d s IH]; simpl; [discriminate|].
  destruct (isspace d) eqn:E; [exact IH|].
  intros H. injection H as <- _. exact E.
Qed.

Lemma lstrip_cons (c : ascii) (r : str) :
  isspace c = false -> lstrip (c :: r) = c :: r.
Proof. simpl. now intros ->. Qed.

Lemma lstrip_idem (s : str) : lstrip (lstrip s) = lstrip s.
Proof.
  destruct (lstrip s) as [|c r] eqn:E; [reflexivity|].
  apply lstrip_cons. exact (lstrip_head _ _ _ E).
Qed.

Lemma strip_trimmed (s : str) : trimmed (strip s).
Proof.
  unfold trimmed, strip, rstrip. split.
  - destruct (lstrip_split (rev (lstrip s))) as (w & Hs & _).
    set (z := lstrip (rev (lstrip s))) in *.
    assert (Hy : lstrip s = rev z ++ rev w).
    { rewrite <- rev_app_distr, <- Hs. now rewrite rev_involutive. }
    destruct (rev z) as [|c r] eqn:Ez; [reflexivity|].
    apply lstrip_cons. simpl in Hy. exact (lstrip_head _ _ _ Hy).
  - rewrite rev_involutive. apply lstrip_idem.
Qed.

Lemma trimmed_strip (s : str) : trimmed s -> strip s = s.
Proof.
  intros [H1 H2]. unfold strip, rstrip.
  now rewrite H1, H2, rev_involutive.
Qed.

Lemma trimmed_nil : trimmed [].
Proof. split; reflexivity. Qed.

Lemma trimmed_head (c : ascii) (r : str) :
  trimmed (c :: r) -> isspace c = false.
Proof. intros [H _]. exact (lstrip_head _ _ _ H). Qed.

Lemma trimmed_last (p : str) (c : ascii) :
  trimmed (p ++ [c]) -> isspace c = false.
Proof.
  intros [_ H]. rewrite rev_app_distr in H. cbn [rev app] in H.
  exact (lstrip_head _ _ _ H).
Qed.

Lemma trimmed_intro (s : str) :
  (forall c r, s = c :: r -> isspace c = false) ->
  (forall p c, s = p ++ [c] -> isspace c = false) ->
  trimmed s.
Proof.
  intros Hh Hl. split.
  - destruct s as [|c r]; [reflexivity|].
    apply lstrip_cons. now apply (Hh c r).
  - destruct (rev s) as [|c r] eqn:E; [reflexivity|].
    apply lstrip_cons. apply (Hl (rev r) c).
    rewrite <- (rev_involutive s), E. reflexivity.
Qed.

(** *** Collapsing whitespace *)

Lemma collapse_aux_nospace (b : bool) (y : str) :
  forallb (fun c => negb (isspace c)) y = true ->
  collapse_aux b y = y.
Proof.
  revert b. induction y as [|c y IH]; intros b; simpl; [reflexivity|].
  intros H. apply andb_true_iff in H. destruct H as [Hc Hy].
  apply negb_true_iff in Hc. rewrite Hc. f_equal. now apply IH.
Qed.

Lemma collapse_aux_app (x y : str) :
  forallb (fun c => negb (isspace c)) y = true ->
  forall b, collapse_aux b (x ++ y) = collapse_aux b x ++ y.
Proof.
  intros Hy. induction x as [|c x IH]; intros b; simpl.
  - now apply collapse_aux_nospace.
  - destruct (isspace c); [destruct b|]; simpl; f_equal; apply IH.
Qed.

Lemma collapse_aux_idem (x : str) :
  forall b, collapse_aux b (collapse_aux b x) = collapse_aux b x.
Proof.
  assert (Hsp : forall y, collapse_aux false (" "%char :: y)
                          = " "%char :: collapse_aux true y)
    by reflexivity.
  induction x as [|c x IH]; intros b; simpl; [reflexivity|].
  destruct (isspace c) eqn:E.
  - destruct b; [apply IH|].
    rewrite Hsp. f_equal. apply IH.
  - simpl. rewrite E. f_equal. apply IH.
Qed.

Lemma collapse_aux_map (g : ascii -> ascii) (x : str) :
  (forall c, isspace (g c) = isspace c) ->
  g " "%char = " "%char ->
  forall b, map g (collapse_aux b x) = collapse_aux b (map g x).
Proof.
  intros Hg Hsp. induction x as [|c x IH]; intros b; simpl; [reflexivity|].
  rewrite Hg. destruct (isspace c).
  - destruct b; [apply IH|].
    cbn [map]. rewrite Hsp. f_equal. apply IH.
  - cbn [map]. f_equal. apply IH.
Qed.

Lemma remove_ws_collapse (x : str) :
  forall b, remove_ws (collapse_aux b x) = remove_ws x.
Proof.
  induction x as [|c x IH]; intros b; simpl; [reflexivity|].
  destruct (isspace c) eqn:E; simpl.
  - destruct b; simpl; apply IH.
  - rewrite E. simpl. f_equal. apply IH.
Qed.

Lemma remove_ws_map (g : ascii -> ascii) (x : str) :
  (forall c, isspace (g c) = isspace c) ->
  remove_ws (map g x) = map g (remove_ws x).
Proof.
  intros Hg. induction x as [|c x IH]; simpl; [reflexivity|].
  rewrite Hg. destruct (isspace c); simpl; [exact IH|now f_equal].
Qed.

Lemma collapse_nonempty (b : bool) (c : ascii) (x : str) :
  isspace c = false -> collapse_aux b (c :: x) <> [].
Proof. simpl. intros ->. discriminate. Qed.

(** *** Characters *)

Lemma fold_char_space (t : list (ascii * ascii)) (c : ascii) :
  t = trans_short \/ t = trans_long ->
  isspace (fold_char t c) = isspace c.
Proof. intros [-> | ->]; each_char c; reflexivity. Qed.

Lemma fold_char_idem (t : list (ascii * ascii)) (c : ascii) :
  t = trans_short \/ t = trans_long ->
  fold_char t (fold_char t c) = fold_char t c.
Proof. intros [-> | ->]; each_char c; reflexivity. Qed.

Lemma fold_char_blank (t : list (ascii * ascii)) :
  t = trans_short \/ t = trans_long ->
  fold_char t " "%char = " "%char.
Proof. intros [-> | ->]; reflexivity. Qed.

Lemma fold_char_word (t : list (ascii * ascii)) (c : ascii) :
  t = trans_short \/ t = trans_long ->
  isword c = true -> isword (fold_char t c) = true.
Proof. intros [-> | ->]; each_char c; simpl; trivial. Qed.

Lemma roman_is_word (c : ascii) :
  is_roman_letter c = true -> isword c = true.
Proof. each_char c; simpl; trivial. Qed.

Lemma decimal_is_word (c : ascii) : isdecimal c = true -> isword c = true.
Proof. each_char c; simpl; trivial. Qed.

Lemma decimal_not_space (c : ascii) :
  isdecimal c = true -> isspace c = false.
Proof. each_char c; simpl; trivial; discriminate. Qed.

Lemma decimal_not_roman (c : ascii) :
  isdecimal c = true -> is_roman_letter c = false.
Proof. each_char c; simpl; trivial; discriminate. Qed.

Lemma newline_is_space (c : ascii) :
  Ascii.eqb c "010"%char = true -> isspace c = true.
Proof. each_char c; simpl; trivial; discriminate. Qed.

End StrFacts.

(** ** Facts about the trailing-numeral pattern *)

Module RegexFacts.

Import LookupFacts StrFacts.

Lemma span_spec (p : ascii -> bool) (s a b : str) :
  span p s = (a, b) ->
  s = a ++ b /\ forallb p a = true.
Proof.
  revert a b. induction s as [|c s IH]; intros a b; simpl.
  - intros H. injection H as <- <-. now split.
  - destruct (p c) eqn:E.
    + destruct (span p s) as [a' b'].
      intros H. injection H as <- <-.
      destruct (IH a' b' eq_refl) as [-> Ha]. simpl. rewrite E. now split.
    + intros H. injection H as <- <-. now split.
Qed.

Lemma span_all (p : ascii -> bool) (s : str) :
  forallb p s = true -> span p s = (s, []).
Proof.
  induction s as [|c s IH]; simpl; [reflexivity|].
  intros H. apply andb_true_iff in H. destruct H as [Hc Hs].
  now rewrite Hc, (IH Hs).
Qed.

Lemma span_none (p : ascii -> bool) (c : ascii) (s : str) :
  p c = false -> span p (c :: s) = ([], c :: s).
Proof. simpl. now intros ->. Qed.

Lemma span_stop (p : ascii -> bool) (x : ascii) (q : str) :
  p x = false ->
  forall a t r, span p (a ++ x :: q) = (t, r) ->
                exists r', r = r' ++ x :: q.
Proof.
  intros Hx. induction a as [|c a IH]; intros t r; simpl.
  - rewrite Hx. intros H. injection H as <- <-. now exists [].
  - destruct (p c).
    + destruct (span p (a ++ x :: q)) as [t' r'] eqn:E.
      intros H. injection H as <- <-. exact (IH _ _ eq_refl).
    + intros H. injection H as <- <-. now exists (c :: a).
Qed.

Lemma at_dollar_true (r : str) :
  at_dollar r = true ->
  r = [] \/ exists c, r = [c] /\ isspace c = true.
Proof.
  destruct r as [|c [|d r]]; simpl; try discriminate.
  - now left.
  - intros H. right. exists c. split; [reflexivity|].
    now apply newline_is_space.
Qed.

Lemma at_dollar_long (r' : str) (x c : ascii) (q : str) :
  at_dollar (r' ++ x :: c :: q) = false.
Proof. destruct r' as [|a [|b r']]; reflexivity. Qed.

Lemma head_word_rev_snoc (p : str) (x : ascii) :
  head_word (rev (p ++ [x])) = isword x.
Proof. rewrite rev_app_distr. reflexivity. Qed.

Lemma head_word_rev_cons (c : ascii) (p : str) :
  p <> [] -> head_word (rev (c :: p)) = head_word (rev p).
Proof.
  intros Hp. simpl. destruct (rev p) as [|d r] eqn:E; [|reflexivity].
  exfalso. apply Hp. rewrite <- (rev_involutive p), E. reflexivity.
Qed.

Lemma head_word_rev_false (P : str) :
  head_word (rev P) = false ->
  P = [] \/ exists p x, P = p ++ [x] /\ isword x = false.
Proof.
  destruct (rev P) as [|x r] eqn:E; simpl; intros H.
  - left. rewrite <- (rev_involutive P), E. reflexivity.
  - right. exists (rev r), x. split; [|exact H].
    rewrite <- (rev_involutive P), E. reflexivity.
Qed.

Lemma head_word_rev_all (cls : ascii -> bool) (tok : str) :
  (forall c, cls c = true -> isword c = true) ->
  forallb cls tok = true -> tok <> [] -> head_word (rev tok) = true.
Proof.
  intros Hcls Hall Hne.
  destruct (rev tok) as [|x r] eqn:E.
  - exfalso. apply Hne. rewrite <- (rev_involutive tok), E. reflexivity.
  - simpl. apply Hcls. rewrite forallb_forall in Hall. apply Hall.
    apply in_rev. rewrite E. now left.
Qed.

(** *** Soundness of the search *)

Lemma match_alt_some (cls : ascii -> bool) (b : bool) (l tok : str) :
  (forall c, cls c = true -> isword c = true) ->
  match_alt cls b l = Some tok ->
  exists rest,
    l = tok ++ rest /\ tok <> [] /\ forallb cls tok = true
    /\ b = false /\ at_dollar rest = true.
Proof.
  intros Hcls. unfold match_alt.
  destruct (span cls l) as [t r] eqn:E.
  destruct (span_spec _ _ _ _ E) as [-> Ht].
  destruct t as [|c t]; [discriminate|].
  destruct (boundary b (head_word (c :: t))
            && boundary (head_word (rev (c :: t))) (head_word r)
            && at_dollar r) eqn:Eb; [|discriminate].
  intros H. injection H as <-.
  apply andb_true_iff in Eb. destruct Eb as [Eb Ed].
  apply andb_true_iff in Eb. destruct Eb as [Eb _].
  exists r. repeat split; try assumption; try discriminate.
  simpl in Eb. simpl in Ht. apply andb_true_iff in Ht.
  rewrite (Hcls c (proj1 Ht)) in Eb. unfold boundary in Eb.
  destruct b; [discriminate|reflexivity].
Qed.

Lemma match_here_some (b : bool) (l tok : str) :
  match_here b l = Some tok ->
  exists rest,
    l = tok ++ rest /\ tok <> []
    /\ (forallb is_roman_letter tok = true
        \/ forallb isdecimal tok = true)
    /\ b = false /\ at_dollar rest = true.
Proof.
  unfold match_here.
  destruct (match_alt is_roman_letter b l) as [t|] eqn:E.
  - intros H. injection H as <-.
    destruct (match_alt_some _ _ _ _ roman_is_word E)
      as (rest & A & B & C & D & F).
    exists rest. auto 10.
  - intros H.
    destruct (match_alt_some _ _ _ _ decimal_is_word H)
      as (rest & A & B & C & D & F).
    exists rest. auto 10.
Qed.

Lemma search_from_some (s : str) :
  forall before start i tok,
    search_from before start s = Some (i, tok) ->
    exists P rest,
      s = P ++ tok ++ rest /\ i = start + List.length P /\ tok <> []
      /\ (forallb is_roman_letter tok = true
          \/ forallb isdecimal tok = true)
      /\ at_dollar rest = true
      /\ (P = [] -> before = false)
      /\ head_word (rev P) = false.
Proof.
  induction s as [|c s IH]; intros before start i tok; simpl.
  - discriminate.
  - destruct (match_here before (c :: s)) as [t|] eqn:E.
    + intros H. injection H as <- <-.
      destruct (match_here_some _ _ _ E) as (rest & A & B & C & D & F).
      exists [], rest. simpl. repeat split; auto.
    + intros H.
      destruct (IH _ _ _ _ H) as (P & rest & A & B & C & D & F & G & K).
      exists (c :: P), rest. subst s.
      split; [reflexivity|]. split; [simpl; lia|].
      split; [exact C|]. split; [exact D|]. split; [exact F|].
      split; [discriminate|].
      destruct P as [|d P].
      * simpl. now apply G.
      * rewrite head_word_rev_cons by discriminate. exact K.
Qed.

Lemma search_trimmed (s : str) (i : nat) (tok : str) :
  trimmed s ->
  search_trailing_numeral s = Some (i, tok) ->
  exists P,
    s = P ++ tok /\ i = List.length P /\ tok <> []
    /\ (forallb is_roman_letter tok = true
        \/ forallb isdecimal tok = true)
    /\ head_word (rev P) = false.
Proof.
  intros Ht H. unfold search_trailing_numeral in H.
  destruct (search_from_some _ _ _ _ _ H)
    as (P & rest & A & B & C & D & F & _ & K).
  exists P. apply at_dollar_true in F.
  destruct F as [-> | (c & -> & Hc)].
  - rewrite app_nil_r in A. auto.
  - exfalso. subst s. rewrite app_assoc in Ht.
    apply trimmed_last in Ht. congruence.
Qed.

(** *** Completeness of the search *)

Lemma match_alt_blocked (cls : ascii -> bool) (b : bool) (p : str)
      (x c : ascii) (q : str) :
  (forall c, cls c = true -> isword c = true) ->
  isword x = false ->
  match_alt cls b (p ++ x :: c :: q) = None.
Proof.
  intros Hcls Hx. unfold match_alt.
  destruct (span cls (p ++ x :: c :: q)) as [t r] eqn:E.
  assert (Hcx : cls x = false).
  { destruct (cls x) eqn:Ec; [|reflexivity].
    apply Hcls in Ec. congruence. }
  destruct (span_stop _ _ _ Hcx _ _ _ E) as (r' & ->).
  destruct t; [reflexivity|].
  rewrite at_dollar_long, !andb_false_r. reflexivity.
Qed.

Lemma match_here_blocked (b : bool) (p : str) (x c : ascii) (q : str) :
  isword x = false -> match_here b (p ++ x :: c :: q) = None.
Proof.
  intros Hx. unfold match_here.
  rewrite (match_alt_blocked _ _ _ _ _ _ roman_is_word Hx).
  apply (match_alt_blocked _ _ _ _ _ _ decimal_is_word Hx).
Qed.

Lemma search_from_step (before : bool) (start : nat) (c : ascii)
      (s : str) :
  match_here before (c :: s) = None ->
  search_from before start (c :: s) = search_from (isword c) (S start) s.
Proof. intros H. cbn [search_from]. now rewrite H. Qed.

Lemma search_from_skip (x c : ascii) (q : str) :
  isword x = false ->
  forall p before start,
    search_from before start (p ++ x :: c :: q)
    = search_from false (start + List.length p + 1) (c :: q).
Proof.
  intros Hx. induction p as [|d p IH]; intros before start.
  - pose proof (match_here_blocked before [] x c q Hx) as Hb.
    cbn [app List.length] in *.
    rewrite (search_from_step _ _ _ _ Hb), Hx.
    replace (start + 0 + 1) with (S start) by lia. reflexivity.
  - pose proof (match_here_blocked before (d :: p) x c q Hx) as Hb.
    cbn [app List.length] in *.
    rewrite (search_from_step _ _ _ _ Hb), IH.
    replace (S start + List.length p + 1)
      with (start + S (List.length p) + 1) by lia.
    reflexivity.
Qed.

Lemma match_here_token (tok : str) :
  tok <> [] ->
  forallb is_roman_letter tok = true \/ forallb isdecimal tok = true ->
  match_here false tok = Some tok.
Proof.
  intros Hne [H|H]; unfold match_here, match_alt.
  - rewrite (span_all _ _ H).
    destruct tok as [|c t]; [congruence|].
    rewrite (head_word_rev_all _ _ roman_is_word H Hne).
    simpl in H. apply andb_true_iff in H.
    simpl. rewrite (roman_is_word _ (proj1 H)). reflexivity.
  - destruct tok as [|c t]; [congruence|].
    assert (Hc : isdecimal c = true)
      by (simpl in H; apply andb_true_iff in H; tauto).
    rewrite (span_none _ _ _ (decimal_not_roman _ Hc)).
    rewrite (span_all _ _ H).
    rewrite (head_word_rev_all _ _ decimal_is_word H Hne).
    simpl. rewrite (decimal_is_word _ Hc). reflexivity.
Qed.

Lemma search_from_token (tok : str) (start : nat) :
  tok <> [] ->
  forallb is_roman_letter tok = true \/ forallb isdecimal tok = true ->
  search_from false start tok = Some (start, tok).
Proof.
  intros Hne H. destruct tok as [|c t]; [congruence|].
  cbn [search_from]. now rewrite (match_here_token _ Hne H).
Qed.

Lemma search_complete (P tok : str) :
  head_word (rev P) = false ->
  tok <> [] ->
  forallb is_roman_letter tok = true \/ forallb isdecimal tok = true ->
  search_trailing_numeral (P ++ tok) = Some (List.length P, tok).
Proof.
  intros HP Hne H. unfold search_trailing_numeral.
  destruct (head_word_rev_false _ HP) as [-> | (p & x & -> & Hx)].
  - apply (search_from_token _ 0 Hne H).
  - destruct tok as [|c q]; [congruence|].
    rewrite <- app_assoc. cbn [app].
    rewrite (search_from_skip x c q Hx).
    rewrite (search_from_token _ _ Hne H).
    f_equal. f_equal. rewrite length_app. simpl. lia.
Qed.

End RegexFacts.

(** ** Facts about [normalize_name_for_match] *)

Module NormalizeFacts.

Import LookupFacts StrFacts RegexFacts.

(** *** The numeral table *)

Lemma token_clean_map (tok : str) : token_clean tok = map clean_char tok.
Proof.
  unfold token_clean, replace_char, upper. rewrite !map_map.
  reflexivity.
Qed.

Lemma clean_char_decimal (c : ascii) :
  isdecimal c = true -> clean_char c = c.
Proof. each_char c; simpl; trivial; discriminate. Qed.

Lemma clean_char_roman (c : ascii) :
  is_roman_letter c = true -> isdecimal (clean_char c) = false.
Proof. each_char c; simpl; trivial; discriminate. Qed.

Lemma token_clean_decimal (tok : str) :
  forallb isdecimal tok = true -> token_clean tok = tok.
Proof.
  rewrite token_clean_map. induction tok as [|c tok IH]; simpl.
  - reflexivity.
  - intros H. apply andb_true_iff in H. destruct H as [Hc Ht].
    now rewrite (clean_char_decimal _ Hc), (IH Ht).
Qed.

Lemma assoc_roman_some (k d : str) :
  assoc_str roman_map k = Some d ->
  (k = lit "I" /\ d = lit "1") \/ (k = lit "II" /\ d = lit "2")
  \/ (k = lit "III" /\ d = lit "3") \/ (k = lit "IV" /\ d = lit "4").
Proof.
  unfold roman_map. cbn [assoc_str].
  destruct (str_eqb k (lit "I")) eqn:E1.
  { apply str_eqb_eq in E1. intros H. injection H as <-. auto. }
  destruct (str_eqb k (lit "II")) eqn:E2.
  { apply str_eqb_eq in E2. intros H. injection H as <-. auto. }
  destruct (str_eqb k (lit "III")) eqn:E3.
  { apply str_eqb_eq in E3. intros H. injection H as <-. auto. }
  destruct (str_eqb k (lit "IV")) eqn:E4.
  { apply str_eqb_eq in E4. intros H. injection H as <-. auto 6. }
  discriminate.
Qed.

Lemma assoc_roman_decimal (c : ascii) (r : str) :
  isdecimal c = true -> assoc_str roman_map (c :: r) = None.
Proof.
  intros Hc. destruct (assoc_str roman_map (c :: r)) as [d|] eqn:E;
    [|reflexivity].
  exfalso.
  destruct (assoc_roman_some _ _ E) as [[K _]|[[K _]|[[K _]|[K _]]]];
    injection K as -> _; discriminate.
Qed.

Lemma numeral_digit_decimal (tok : str) :
  forallb isdecimal tok = true -> tok <> [] ->
  assoc_str roman_map (token_clean tok) = None
  /\ numeral_digit tok = Some tok.
Proof.
  intros H Hne. unfold numeral_digit.
  rewrite (token_clean_decimal _ H).
  destruct tok as [|c r]; [congruence|].
  assert (Hc : isdecimal c = true)
    by (simpl in H; apply andb_true_iff in H; tauto).
  rewrite (assoc_roman_decimal c r Hc). split; [reflexivity|].
  unfold isdigit_str. now rewrite H.
Qed.

Lemma numeral_digit_some (tok d : str) :
  numeral_digit tok = Some d ->
  d <> [] /\ forallb isdecimal d = true.
Proof.
  unfold numeral_digit.
  destruct (assoc_str roman_map (token_clean tok)) as [d'|] eqn:E.
  - intros H. injection H as <-.
    destruct (assoc_roman_some _ _ E) as [[_ ->]|[[_ ->]|[[_ ->]|[_ ->]]]];
      split; try discriminate; reflexivity.
  - destruct (isdigit_str (token_clean tok)) eqn:Ed; [|discriminate].
    intros H. injection H as <-. unfold isdigit_str in Ed.
    destruct (token_clean tok); [discriminate|].
    split; [discriminate|exact Ed].
Qed.

Lemma numeral_digit_roman (tok : str) :
  forallb is_roman_letter tok = true -> tok <> [] ->
  numeral_digit tok = assoc_str roman_map (token_clean tok).
Proof.
  intros H Hne. unfold numeral_digit.
  destruct (assoc_str roman_map (token_clean tok)); [reflexivity|].
  rewrite token_clean_map. destruct tok as [|c r]; [congruence|].
  simpl in H. apply andb_true_iff in H.
  cbn [map isdigit_str forallb].
  now rewrite (clean_char_roman _ (proj1 H)).
Qed.

(** *** The numeral rewrite *)

Lemma firstn_length_app (P tok : str) :
  firstn (List.length P) (P ++ tok) = P.
Proof.
  rewrite firstn_app, Nat.sub_diag, firstn_all. simpl.
  apply app_nil_r.
Qed.

Lemma convert_cases (s0 : str) : trimmed s0 -> convert_case s0.
Proof.
  intros Ht. unfold convert_numeral.
  destruct s0 as [|c0 r0] eqn:Es.
  { apply conv_no_token; reflexivity. }
  rewrite <- Es in *. clear Es c0 r0.
  assert (Hc : convert_numeral s0
               = match search_trailing_numeral s0 with
                 | Some (start, token) =>
                     match numeral_digit token with
                     | Some digit => firstn start s0 ++ digit
                     | None => s0
                     end
                 | None => s0
                 end)
    by (unfold convert_numeral; destruct s0; reflexivity).
  destruct (search_trailing_numeral s0) as [[i tok]|] eqn:E.
  - destruct (search_trimmed _ _ _ Ht E) as (P & HP & -> & Hne & Hcls & Hw).
    destruct (numeral_digit tok) as [d|] eqn:Ed.
    + apply (@conv_digit s0 P tok d); auto.
      rewrite Hc. rewrite HP at 1.
      now rewrite firstn_length_app.
    + apply (@conv_no_digit s0 (List.length P) tok); auto.
  - apply conv_no_token; auto.
Qed.

Lemma trimmed_app_digit (P tok d : str) :
  trimmed (P ++ tok) -> tok <> [] ->
  d <> [] -> forallb isdecimal d = true ->
  trimmed (P ++ d).
Proof.
  intros Ht Hne Hd Hdec. apply trimmed_intro.
  - intros c r E. destruct P as [|p P].
    + simpl in E. subst d. simpl in Hdec. apply andb_true_iff in Hdec.
      apply decimal_not_space. tauto.
    + simpl in E. injection E as <- _.
      apply (trimmed_head p (P ++ tok)). exact Ht.
  - intros p c E.
    destruct (rev d) as [|x r] eqn:Er.
    { exfalso. apply Hd. rewrite <- (rev_involutive d), Er. reflexivity. }
    assert (Hx : d = rev r ++ [x])
      by (rewrite <- (rev_involutive d), Er; reflexivity).
    rewrite Hx, app_assoc in E. apply app_inj_tail in E.
    destruct E as [_ <-]. apply decimal_not_space.
    rewrite forallb_forall in Hdec. apply Hdec.
    rewrite Hx. apply in_or_app. right. now left.
Qed.

Lemma convert_trimmed (s0 : str) :
  trimmed s0 -> trimmed (convert_numeral s0).
Proof.
  intros Ht.
  destruct (convert_cases s0 Ht)
    as [_ E | i tok _ _ E | P tok d HP _ _ Hne _ Hd E];
    rewrite E; try exact Ht.
  destruct (numeral_digit_some _ _ Hd) as [Hdn Hdd].
  rewrite HP in Ht. exact (trimmed_app_digit P tok d Ht Hne Hdn Hdd).
Qed.

Lemma convert_nonempty (s0 : str) :
  trimmed s0 -> s0 <> [] -> convert_numeral s0 <> [].
Proof.
  intros Ht Hne.
  destruct (convert_cases s0 Ht)
    as [_ E | i tok _ _ E | P tok d HP _ _ _ _ Hd E];
    rewrite E; try exact Hne.
  destruct (numeral_digit_some _ _ Hd) as [Hdn _].
  intros K. apply app_eq_nil in K. tauto.
Qed.

(** After the rewrite no trailing token reads as a numeral of the table. *)
Lemma convert_no_roman (s0 : str) (i : nat) (tok : str) :
  trimmed s0 ->
  search_trailing_numeral (convert_numeral s0) = Some (i, tok) ->
  assoc_str roman_map (token_clean tok) = None.
Proof.
  intros Ht.
  destruct (convert_cases s0 Ht)
    as [E0 E | i0 tok0 E0 Ed E | P tok0 d HP E0 Hw Hne Hcls Hd E];
    rewrite E.
  - rewrite E0. discriminate.
  - rewrite E0. intros H. injection H as _ <-.
    unfold numeral_digit in Ed.
    destruct (assoc_str roman_map (token_clean tok0));
      [discriminate|reflexivity].
  - destruct (numeral_digit_some _ _ Hd) as [Hdn Hdd].
    rewrite (search_complete P d Hw Hdn (or_intror Hdd)).
    intros H. injection H as _ <-.
    exact (proj1 (numeral_digit_decimal d Hdd Hdn)).
Qed.

(** *** The shape of a normalized key *)

Lemma normalize_shape (s : str) :
  normalize_name_for_match s
  = collapse_ws
      (map (fold_char (table_for (convert_numeral (strip s))))
           (convert_numeral (strip s))).
Proof.
  unfold normalize_name_for_match, lower, translate, table_for, fold_char.
  now rewrite map_map.
Qed.

Lemma table_for_cases (s : str) :
  table_for s = trans_short \/ table_for s = trans_long.
Proof. unfold table_for. destruct (len (remove_ws s) <=? 3); auto. Qed.

Section Folded.

(** [s1] is a trimmed string, [t] one of the two tables, [n] the
    collapsed fold of [s1] under [t]. *)
Variable s1 : str.
Variable t : list (ascii * ascii).
Hypothesis s1_trimmed : trimmed s1.
Hypothesis t_table : t = trans_short \/ t = trans_long.

Let n : str := collapse_ws (map (fold_char t) s1).

Lemma folded_snoc (Q : str) (c0 : ascii) :
  isspace c0 = false ->
  collapse_ws (map (fold_char t) (Q ++ [c0]))
  = collapse_ws (map (fold_char t) Q) ++ [fold_char t c0].
Proof.
  intros Hc. unfold collapse_ws. rewrite map_app. cbn [map].
  apply collapse_aux_app.
  cbn [forallb]. now rewrite (fold_char_space t c0 t_table), Hc.
Qed.

Lemma folded_trimmed : trimmed n.
Proof.
  unfold n. apply trimmed_intro.
  - intros c r E. destruct s1 as [|c1 r1]; [discriminate|].
    pose proof (trimmed_head c1 r1 s1_trimmed) as Hc.
    unfold collapse_ws in E. cbn [map collapse_aux] in E.
    rewrite (fold_char_space t c1 t_table), Hc in E.
    injection E as <- _. now rewrite (fold_char_space t c1 t_table).
  - intros p c E.
    destruct (rev s1) as [|c1 r1] eqn:Er.
    { assert (s1 = []) by
        (rewrite <- (rev_involutive s1), Er; reflexivity).
      subst s1. destruct p; discriminate. }
    assert (Hs : s1 = rev r1 ++ [c1])
      by (rewrite <- (rev_involutive s1), Er; reflexivity).
    assert (Hc : isspace c1 = false).
    { apply (trimmed_last (rev r1)). rewrite <- Hs. exact s1_trimmed. }
    rewrite Hs, (folded_snoc _ _ Hc) in E.
    apply app_inj_tail in E. destruct E as [_ <-].
    now rewrite (fold_char_space t c1 t_table).
Qed.

Lemma folded_core : len (remove_ws n) = len (remove_ws s1).
Proof.
  unfold n, collapse_ws, len.
  rewrite remove_ws_collapse, remove_ws_map, length_map; [reflexivity|].
  intros c. exact (fold_char_space t c t_table).
Qed.

Lemma folded_fixed : collapse_ws (map (fold_char t) n) = n.
Proof.
  unfold n, collapse_ws.
  rewrite collapse_aux_map.
  - rewrite collapse_aux_idem. rewrite map_map.
    f_equal. apply map_ext. intros c.
    exact (fold_char_idem t c t_table).
  - intros c. exact (fold_char_space t c t_table).
  - exact (fold_char_blank t t_table).
Qed.

End Folded.

End NormalizeFacts.

(** ** The second application of [normalize_name_for_match] *)

Module IdempotenceFacts.

Import LookupFacts StrFacts RegexFacts NormalizeFacts.

Lemma clean_fold_short (c0 : ascii) :
  is_roman_letter (fold_char trans_short c0) = true ->
  clean_char (fold_char trans_short c0) = "I"%char ->
  is_roman_letter c0 = true /\ clean_char c0 = "I"%char.
Proof.
  each_char c0; vm_compute; intros R H;
    try discriminate R; try discriminate H; auto.
Qed.

Lemma clean_fold_long (c0 : ascii) :
  is_roman_letter (fold_char trans_long c0) = true ->
  clean_char (fold_char trans_long c0) = "I"%char ->
  (is_roman_letter c0 = true /\ clean_char c0 = "I"%char)
  \/ fold_char trans_long c0 = "l"%char.
Proof.
  each_char c0; vm_compute; intros R H;
    try discriminate R; try discriminate H; auto.
Qed.

Lemma clean_decimal_not_I (c : ascii) :
  isdecimal c = true -> clean_char c <> "I"%char.
Proof. each_char c; vm_compute; intros R H; congruence. Qed.

Lemma word_not_space (c : ascii) : isword c = true -> isspace c = false.
Proof. each_char c; simpl; trivial; discriminate. Qed.

Lemma roman_not_space (c : ascii) :
  is_roman_letter c = true -> isspace c = false.
Proof. intros H. apply word_not_space. now apply roman_is_word. Qed.

Lemma table_for_len (a b : str) :
  len (remove_ws a) = len (remove_ws b) -> table_for a = table_for b.
Proof. unfold table_for. now intros ->. Qed.

Lemma remove_ws_snoc (P : str) (c : ascii) :
  isspace c = false -> remove_ws (P ++ [c]) = remove_ws P ++ [c].
Proof.
  intros Hc. unfold remove_ws. rewrite filter_app. simpl.
  now rewrite Hc.
Qed.

Lemma core_snoc (P : str) (c d : ascii) :
  isspace c = false -> isspace d = false ->
  len (remove_ws (P ++ [c])) = len (remove_ws (P ++ [d])).
Proof.
  intros Hc Hd. unfold len.
  rewrite (remove_ws_snoc P c Hc), (remove_ws_snoc P d Hd), !length_app.
  reflexivity.
Qed.

Lemma snoc_cases (l : str) :
  l = [] \/ exists p x, l = p ++ [x].
Proof.
  destruct (rev l) as [|x r] eqn:E.
  - left. rewrite <- (rev_involutive l), E. reflexivity.
  - right. exists (rev r), x.
    rewrite <- (rev_involutive l), E. reflexivity.
Qed.

Section SecondPass.

Variable s1 : str.
Hypothesis s1_trimmed : trimmed s1.
Hypothesis s1_converted :
  forall i tok, search_trailing_numeral s1 = Some (i, tok) ->
                assoc_str roman_map (token_clean tok) = None.

Let t := table_for s1.
Let n := collapse_ws (map (fold_char t) s1).

Let t_table : t = trans_short \/ t = trans_long := table_for_cases s1.

Let n_trimmed : trimmed n := folded_trimmed s1 t s1_trimmed t_table.

Let n_fixed : collapse_ws (map (fold_char t) n) = n :=
  folded_fixed s1 t t_table.

Let n_table : table_for n = t :=
  table_for_len n s1 (folded_core s1 t t_table).

(** A lone trailing token of [n] that reads as I is the letter l of a
    key folded with the long table. *)
Lemma lone_numeral (i : nat) (c : ascii) :
  search_trailing_numeral n = Some (i, [c]) ->
  clean_char c = "I"%char ->
  t = trans_long /\ c = "l"%char.
Proof.
  intros Hs Hc.
  destruct (search_trimmed n i [c] n_trimmed Hs)
    as (P & HP & _ & _ & Hcls & HPw).
  assert (Hrc : is_roman_letter c = true).
  { destruct Hcls as [Hr | Hd]; simpl in *;
      [now rewrite andb_true_r in Hr|].
    rewrite andb_true_r in Hd.
    exfalso. exact (clean_decimal_not_I c Hd Hc). }
  destruct (snoc_cases s1) as [E | (Q & c0 & E)].
  { exfalso. unfold n in HP. rewrite E in HP.
    destruct P; discriminate. }
  assert (Hc0 : isspace c0 = false).
  { apply (trimmed_last Q). rewrite <- E. exact s1_trimmed. }
  assert (Hn : n = collapse_ws (map (fold_char t) Q) ++ [fold_char t c0]).
  { unfold n. rewrite E. exact (folded_snoc t t_table Q c0 Hc0). }
  rewrite HP in Hn. apply app_inj_tail in Hn. destruct Hn as [HPQ Hcc].
  assert (HQw : head_word (rev Q) = false).
  { destruct (snoc_cases Q) as [-> | (Q' & x & ->)]; [reflexivity|].
    rewrite head_word_rev_snoc.
    destruct (isword x) eqn:Ex; [|reflexivity].
    exfalso. rewrite HPQ in HPw.
    rewrite (folded_snoc t t_table Q' x (word_not_space x Ex)) in HPw.
    rewrite head_word_rev_snoc in HPw.
    rewrite (fold_char_word t x t_table Ex) in HPw. discriminate. }
  assert (Roman : is_roman_letter c0 = true ->
                  clean_char c0 = "I"%char -> False).
  { intros Hr Hcl.
    assert (Hsearch : search_trailing_numeral s1
                      = Some (List.length Q, [c0])).
    { rewrite E. apply search_complete; [exact HQw|discriminate|].
      left. simpl. now rewrite Hr. }
    specialize (s1_converted _ _ Hsearch).
    rewrite token_clean_map in s1_converted. simpl in s1_converted.
    rewrite Hcl in s1_converted. discriminate. }
  subst c. destruct t_table as [Et | Et]; rewrite Et in *.
  - destruct (clean_fold_short c0 Hrc Hc) as [Hr Hcl].
    exfalso. exact (Roman Hr Hcl).
  - split; [reflexivity|].
    destruct (clean_fold_long c0 Hrc Hc) as [[Hr Hcl] | Hl];
      [exfalso; exact (Roman Hr Hcl)|exact Hl].
Qed.

Lemma second_pass_unchanged :
  convert_numeral n = n -> normalize_name_for_match n = n.
Proof.
  intros Hconv. rewrite normalize_shape.
  rewrite (trimmed_strip n n_trimmed), Hconv, n_table.
  exact n_fixed.
Qed.

Lemma reads_no_token :
  search_trailing_numeral n = None -> reads_II_III_IV n = false.
Proof. unfold reads_II_III_IV. now intros ->. Qed.

Lemma reads_token (i : nat) (tok : str) :
  search_trailing_numeral n = Some (i, tok) ->
  reads_II_III_IV n
  = match assoc_str roman_map (token_clean tok) with
    | Some d => negb (str_eqb d (lit "1"))
    | None => false
    end.
Proof. unfold reads_II_III_IV. now intros ->. Qed.

Lemma second_pass :
  normalize_name_for_match n = n <-> reads_II_III_IV n = false.
Proof.
  destruct (convert_cases n n_trimmed)
    as [E0 E | i tok E0 Ed E | P tok d HP E0 Hw Hne Hcls Hd E].
  - split; intros _;
      [now apply reads_no_token|now apply second_pass_unchanged].
  - split; intros _; [|now apply second_pass_unchanged].
    rewrite (reads_token i tok E0). unfold numeral_digit in Ed.
    destruct (assoc_str roman_map (token_clean tok));
      [discriminate|reflexivity].
  - rewrite (reads_token _ tok E0).
    destruct Hcls as [Hrom | Hdec].
    + rewrite (numeral_digit_roman tok Hrom Hne) in Hd. rewrite Hd.
      destruct (assoc_roman_some _ _ Hd)
        as [[K ->]|[[K ->]|[[K ->]|[K ->]]]].
      * (* the token reads as I *)
        split; intros _; [reflexivity|].
        rewrite token_clean_map in K.
        destruct tok as [|c [|c' tok']]; try discriminate K.
        injection K as Kc.
        destruct (lone_numeral _ c E0 Kc) as [Et ->].
        rewrite normalize_shape, (trimmed_strip n n_trimmed), E.
        assert (Ht2 : table_for (P ++ lit "1") = trans_long).
        { rewrite <- Et. rewrite <- n_table. rewrite HP.
          apply table_for_len. now apply core_snoc. }
        rewrite Ht2.
        assert (Hfix := n_fixed). rewrite Et in Hfix.
        rewrite HP in Hfix.
        rewrite (folded_snoc trans_long (or_intror eq_refl) P "l"
                             eq_refl) in Hfix.
        apply app_inj_tail in Hfix. destruct Hfix as [HPfix _].
        change (lit "1") with ["1"%char].
        rewrite (folded_snoc trans_long (or_intror eq_refl) P "1"
                             eq_refl).
        rewrite HPfix. symmetry. exact HP.
      * split; [|discriminate]. intros Heq. exfalso.
        revert Heq.
        rewrite normalize_shape, (trimmed_strip n n_trimmed), E.
        change (lit "2") with ["2"%char].
        rewrite (folded_snoc _ (table_for_cases _) P "2" eq_refl).
        destruct (snoc_cases tok) as [->|(tk & x & ->)]; [congruence|].
        rewrite HP, app_assoc. intros Heq.
        apply app_inj_tail in Heq. destruct Heq as [_ Hx].
        rewrite forallb_app in Hrom. apply andb_true_iff in Hrom.
        destruct Hrom as [_ Hrx]. simpl in Hrx. rewrite <- Hx in Hrx.
        destruct (table_for_cases (P ++ ["2"%char])) as [T2 | T2];
          rewrite T2 in Hrx; discriminate.
      * split; [|discriminate]. intros Heq. exfalso.
        revert Heq.
        rewrite normalize_shape, (trimmed_strip n n_trimmed), E.
        change (lit "3") with ["3"%char].
        rewrite (folded_snoc _ (table_for_cases _) P "3" eq_refl).
        destruct (snoc_cases tok) as [->|(tk & x & ->)]; [congruence|].
        rewrite HP, app_assoc. intros Heq.
        apply app_inj_tail in Heq. destruct Heq as [_ Hx].
        rewrite forallb_app in Hrom. apply andb_true_iff in Hrom.
        destruct Hrom as [_ Hrx]. simpl in Hrx. rewrite <- Hx in Hrx.
        destruct (table_for_cases (P ++ ["3"%char])) as [T2 | T2];
          rewrite T2 in Hrx; discriminate.
      * split; [|discriminate]. intros Heq. exfalso.
        revert Heq.
        rewrite normalize_shape, (trimmed_strip n n_trimmed), E.
        change (lit "4") with ["4"%char].
        rewrite (folded_snoc _ (table_for_cases _) P "4" eq_refl).
        destruct (snoc_cases tok) as [->|(tk & x & ->)]; [congruence|].
        rewrite HP, app_assoc. intros Heq.
        apply app_inj_tail in Heq. destruct Heq as [_ Hx].
        rewrite forallb_app in Hrom. apply andb_true_iff in Hrom.
        destruct Hrom as [_ Hrx]. simpl in Hrx. rewrite <- Hx in Hrx.
        destruct (table_for_cases (P ++ ["4"%char])) as [T2 | T2];
          rewrite T2 in Hrx; discriminate.
    + destruct (numeral_digit_decimal tok Hdec Hne) as [Ha Hn].
      rewrite Ha. split; intros _; [reflexivity|].
      apply second_pass_unchanged.
      rewrite E. rewrite Hn in Hd. injection Hd as <-.
      symmetry. exact HP.
Qed.

End SecondPass.

(** With "Mag 11" the second application changes the key. *)
Lemma normalize_not_idempotent :
  normalize_name_for_match (lit "Mag 11") = lit "mag ll"
  /\ normalize_name_for_match (normalize_name_for_match (lit "Mag 11"))
     = lit "mag 2"
  /\ normalize_name_for_match (normalize_name_for_match (lit "Mag 11"))
     <> normalize_name_for_match (lit "Mag 11").
Proof. vm_compute. repeat split; try reflexivity. discriminate. Qed.

(** C2, as the code has it, for every string [s] of characters with code
    points 0 to 255. A second application leaves the normalized key of [s]
    as it is exactly when that key does not end in a standalone token that
    reads as II, III or IV of the numeral table (l, L and i reading as I);
    a key that ends in such a token is rewritten to end in the digit. *)
Theorem normalize_idempotent_unless_numeral (s : str) :
  normalize_name_for_match (normalize_name_for_match s)
  = normalize_name_for_match s
  <-> reads_II_III_IV (normalize_name_for_match s) = false.
Proof.
  rewrite (normalize_shape s).
  apply second_pass.
  - apply convert_trimmed, strip_trimmed.
  - intros i tok. apply convert_no_roman, strip_trimmed.
Qed.

Example vulcano_key_is_stable :
  normalize_name_for_match (lit "Vulcano I") = lit "vulcano l"
  /\ normalize_name_for_match (lit "vulcano l") = lit "vulcano l".
Proof. split; reflexivity. Qed.

End IdempotenceFacts.

(** ** The numeral example of the docstring *)

Module NumeralExample.

(** C3. [normalize_name_for_match] sends "Extended Light Mag II" to
    "extended light mag 2" and "EXTENDED LIGHT MAG 2" to
    "extended llght mag 2": the capital I of LIGHT is folded to l before
    the string is lower-cased, so the two keys differ, and the key of the
    second name is not in the table built from a row named by the first. *)
Theorem numeral_example_keys_differ :
  normalize_name_for_match (lit "Extended Light Mag II")
  = lit "extended light mag 2"
  /\ normalize_name_for_match (lit "EXTENDED LIGHT MAG 2")
     = lit "extended llght mag 2"
  /\ normalize_name_for_match (lit "Extended Light Mag II")
     <> normalize_name_for_match (lit "EXTENDED LIGHT MAG 2")
  /\ dict_get
       (fst (build_item_lookup
               [[("Name"%string, lit "Extended Light Mag II")]]))
       (normalize_name_for_match (lit "EXTENDED LIGHT MAG 2"))
     = None.
Proof.
  repeat split; try reflexivity.
  vm_compute. discriminate.
Qed.

End NumeralExample.

(** ** Facts about the reference model of [difflib]

    The two quick ratios bound the ratio of the model from above, and the
    model gives similarity 0 between the empty string and a non-empty one, so
    the premises of the resolution theorem hold of it on every table. *)

Module DifflibFacts.

Import LookupFacts Difflib.

Lemma common_prefix_le (a b : str) :
  common_prefix a b <= List.length a /\ common_prefix a b <= List.length b.
Proof.
  revert b. induction a as [|c a IH]; intros b; simpl; [lia|].
  destruct b as [|d b]; simpl; [lia|].
  destruct (Ascii.eqb c d); simpl; [|lia].
  specialize (IH b). lia.
Qed.

Lemma common_prefix_eq (a b : str) :
  firstn (common_prefix a b) a = firstn (common_prefix a b) b.
Proof.
  revert b. induction a as [|c a IH]; intros b; simpl.
  - reflexivity.
  - destruct b as [|d b]; simpl; [reflexivity|].
    destruct (Ascii.eqb c d) eqn:E; simpl; [|reflexivity].
    apply Ascii.eqb_eq in E. subst d. f_equal. apply IH.
Qed.

Lemma skipn_cons_shape (i : nat) (a : str) (c : ascii) (r : str) :
  skipn i a = c :: r -> i < List.length a /\ skipn (S i) a = r.
Proof.
  revert a. induction i as [|i IH]; intros a; simpl.
  - intros ->. simpl. split; [lia|reflexivity].
  - destruct a as [|d a]; [discriminate|].
    intros H. destruct (IH a H) as [L R]. simpl. split; [lia|].
    exact R.
Qed.

Lemma scan_b_ok (a b : str) (i : nat) (a_suf : str) :
  skipn i a = a_suf ->
  forall b_suf j best,
    skipn j b = b_suf -> block_ok a b best ->
    block_ok a b (scan_b a_suf i j b_suf best).
Proof.
  intros Ha. induction b_suf as [|d b_suf IH]; intros j best Hb Hok;
    simpl; [exact Hok|].
  destruct (skipn_cons_shape j b d b_suf Hb) as [Lj Hb'].
  apply IH; [exact Hb'|].
  destruct (block_size best <? common_prefix a_suf (d :: b_suf)) eqn:E;
    [|exact Hok].
  apply Nat.ltb_lt in E.
  pose proof (common_prefix_le a_suf (d :: b_suf)) as [La Lb].
  pose proof (common_prefix_eq a_suf (d :: b_suf)) as Heq.
  unfold block_ok. rewrite Ha, Hb. split; [|split; [|exact Heq]].
  - assert (List.length a_suf = List.length a - i)
      by (rewrite <- Ha; apply length_skipn).
    unfold len. lia.
  - assert (List.length (d :: b_suf) = List.length b - j)
      by (rewrite <- Hb; apply length_skipn).
    unfold len. lia.
Qed.

Lemma scan_a_ok (a b : str) :
  forall a_suf i best,
    skipn i a = a_suf -> block_ok a b best ->
    block_ok a b (scan_a a_suf i b best).
Proof.
  induction a_suf as [|c a_suf IH]; intros i best Ha Hok; simpl;
    [exact Hok|].
  destruct (skipn_cons_shape i a c a_suf Ha) as [_ Ha'].
  apply IH; [exact Ha'|].
  apply (scan_b_ok a b i (c :: a_suf) Ha b 0 best eq_refl Hok).
Qed.

Lemma find_longest_match_ok (a b : str) :
  block_ok a b (find_longest_match a b).
Proof.
  unfold find_longest_match. apply scan_a_ok; [reflexivity|].
  unfold block_ok. simpl. split; [lia|]. split; [lia|reflexivity].
Qed.

(** *** The matched characters *)

Lemma matched_length (fuel : nat) :
  forall a b, List.length (matched_fuel fuel a b) = matches_fuel fuel a b.
Proof.
  induction fuel as [|fuel IH]; intros a b; simpl; [reflexivity|].
  pose proof (find_longest_match_ok a b) as Hok.
  destruct (find_longest_match a b) as [[i j] k].
  destruct (k =? 0); [reflexivity|].
  destruct Hok as (La & _ & _).
  rewrite !length_app, !IH, length_firstn, length_skipn.
  unfold len in La. lia.
Qed.

Lemma block_split (a : str) (i k : nat) :
  a = firstn i a ++ firstn k (skipn i a) ++ skipn (i + k) a.
Proof.
  rewrite <- (firstn_skipn i a) at 1. f_equal.
  rewrite <- (firstn_skipn k (skipn i a)) at 1. f_equal.
  rewrite skipn_skipn. f_equal. lia.
Qed.

Lemma sub_multiset_nil (l : str) : sub_multiset [] l.
Proof. intros x. simpl. lia. Qed.

Lemma sub_multiset_parts (m1 m2 m3 l1 l2 l3 : str) :
  sub_multiset m1 l1 -> sub_multiset m2 l2 -> sub_multiset m3 l3 ->
  sub_multiset (m2 ++ m1 ++ m3) (l1 ++ l2 ++ l3).
Proof.
  intros H1 H2 H3 x. rewrite !count_occ_app.
  specialize (H1 x). specialize (H2 x). specialize (H3 x). lia.
Qed.

Lemma sub_multiset_refl (l : str) : sub_multiset l l.
Proof. intros x. lia. Qed.

Lemma matched_sub (fuel : nat) :
  forall a b,
    sub_multiset (matched_fuel fuel a b) a
    /\ sub_multiset (matched_fuel fuel a b) b.
Proof.
  induction fuel as [|fuel IH]; intros a b; simpl.
  - split; apply sub_multiset_nil.
  - pose proof (find_longest_match_ok a b) as Hok.
    destruct (find_longest_match a b) as [[i j] k].
    destruct (k =? 0); [split; apply sub_multiset_nil|].
    destruct Hok as (_ & _ & Heq).
    destruct (IH (firstn i a) (firstn j b)) as [L1 L2].
    destruct (IH (skipn (i + k) a) (skipn (j + k) b)) as [R1 R2].
    split.
    + pose proof (sub_multiset_parts _ _ _ _ _ _
                    L1 (sub_multiset_refl (firstn k (skipn i a))) R1) as G.
      rewrite <- block_split in G. exact G.
    + pose proof (sub_multiset_parts _ _ _ _ _ _
                    L2 (sub_multiset_refl (firstn k (skipn j b))) R2) as G.
      rewrite <- block_split in G. rewrite Heq. exact G.
Qed.

Lemma matches_le_length (fuel : nat) :
  forall a b,
    matches_fuel fuel a b <= List.length a
    /\ matches_fuel fuel a b <= List.length b.
Proof.
  induction fuel as [|fuel IH]; intros a b; simpl; [lia|].
  pose proof (find_longest_match_ok a b) as Hok.
  destruct (find_longest_match a b) as [[i j] k].
  destruct (k =? 0); [lia|].
  destruct Hok as (La & Lb & _). unfold len in La, Lb.
  destruct (IH (firstn i a) (firstn j b)) as [L1 L2].
  destruct (IH (skipn (i + k) a) (skipn (j + k) b)) as [R1 R2].
  rewrite length_firstn in L1, L2. rewrite length_skipn in R1, R2.
  lia.
Qed.

(** The fuel [matches] starts with is enough: more fuel changes
    nothing. *)
Lemma matches_fuel_enough (fuel : nat) :
  forall a b,
    List.length a < fuel ->
    matches_fuel (S fuel) a b = matches_fuel fuel a b.
Proof.
  induction fuel as [|fuel IH]; intros a b Hlen; [lia|].
  change (matches_fuel (S (S fuel)) a b)
    with (let '(i, j, k) := find_longest_match a b in
          if k =? 0 then 0
          else k + matches_fuel (S fuel) (firstn i a) (firstn j b)
               + matches_fuel (S fuel) (skipn (i + k) a)
                              (skipn (j + k) b)).
  change (matches_fuel (S fuel) a b)
    with (let '(i, j, k) := find_longest_match a b in
          if k =? 0 then 0
          else k + matches_fuel fuel (firstn i a) (firstn j b)
               + matches_fuel fuel (skipn (i + k) a) (skipn (j + k) b)).
  pose proof (find_longest_match_ok a b) as Hok.
  destruct (find_longest_match a b) as [[i j] k].
  destruct (k =? 0) eqn:Ek; [reflexivity|].
  apply Nat.eqb_neq in Ek. destruct Hok as (La & _ & _).
  unfold len in La.
  rewrite !IH; [reflexivity| |].
  - rewrite length_skipn. lia.
  - rewrite length_firstn. lia.
Qed.

(** *** The count of [quick_ratio] *)

Lemma remove_first_some (c : ascii) (l l' : str) :
  remove_first c l = Some l' ->
  List.length l = S (List.length l')
  /\ forall x, count_occ ascii_dec l x
               = count_occ ascii_dec l' x
                 + (if ascii_dec c x then 1 else 0).
Proof.
  revert l'. induction l as [|d l IH]; intros l'; simpl; [discriminate|].
  destruct (Ascii.eqb c d) eqn:E.
  - apply Ascii.eqb_eq in E. subst d. intros H. injection H as <-.
    split; [reflexivity|]. intros x.
    destruct (ascii_dec c x); lia.
  - destruct (remove_first c l) as [r|]; [|discriminate].
    intros H. injection H as <-.
    destruct (IH r eq_refl) as [L C]. split; [simpl; lia|].
    intros x. simpl. rewrite (C x).
    destruct (ascii_dec d x); lia.
Qed.

Lemma remove_first_none (c : ascii) (l : str) :
  remove_first c l = None -> count_occ ascii_dec l c = 0.
Proof.
  induction l as [|d l IH]; simpl; [reflexivity|].
  destruct (Ascii.eqb c d) eqn:E; [discriminate|].
  apply Ascii.eqb_neq in E.
  destruct (remove_first c l); [discriminate|].
  intros _. destruct (ascii_dec d c); [congruence|]. now apply IH.
Qed.

Lemma remove_first_present (c : ascii) (l : str) :
  0 < count_occ ascii_dec l c -> exists l', remove_first c l = Some l'.
Proof.
  intros H. destruct (remove_first c l) as [l'|] eqn:E; [now exists l'|].
  apply remove_first_none in E. lia.
Qed.

Lemma sub_multiset_of_nil (m : str) : sub_multiset m [] -> m = [].
Proof.
  destruct m as [|c m]; [reflexivity|].
  intros H. specialize (H c). simpl in H.
  destruct (ascii_dec c c); [lia|congruence].
Qed.

(** No common sub-multiset is larger than the count of [quick_ratio]. *)
Lemma quick_matches_greatest (a : str) :
  forall m avail,
    sub_multiset m a -> sub_multiset m avail ->
    List.length m <= quick_matches a avail.
Proof.
  induction a as [|c a IH]; intros m avail Ha Hv.
  - apply sub_multiset_of_nil in Ha. subst m. simpl. lia.
  - simpl. destruct (remove_first c avail) as [avail'|] eqn:E.
    + destruct (remove_first_some c avail avail' E) as [_ Cv].
      destruct (Nat.eq_dec (count_occ ascii_dec m c) 0) as [Z|NZ].
      * assert (H1 : sub_multiset m a).
        { intros x. specialize (Ha x). simpl in Ha.
          destruct (ascii_dec c x); [subst x; lia|exact Ha]. }
        assert (H2 : sub_multiset m avail').
        { intros x. specialize (Hv x). rewrite (Cv x) in Hv.
          destruct (ascii_dec c x); [subst x; lia|lia]. }
        specialize (IH m avail' H1 H2). lia.
      * destruct (remove_first_present c m) as [m' Em]; [lia|].
        destruct (remove_first_some c m m' Em) as [Lm Cm].
        assert (H1 : sub_multiset m' a).
        { intros x. specialize (Ha x). simpl in Ha. rewrite (Cm x) in Ha.
          destruct (ascii_dec c x); lia. }
        assert (H2 : sub_multiset m' avail').
        { intros x. specialize (Hv x). rewrite (Cm x), (Cv x) in Hv.
          destruct (ascii_dec c x); lia. }
        specialize (IH m' avail' H1 H2). lia.
    + pose proof (remove_first_none c avail E) as Z.
      assert (H1 : sub_multiset m a).
      { intros x. pose proof (Ha x) as Hx. simpl in Hx.
        destruct (ascii_dec c x); [|exact Hx].
        subst x. specialize (Hv c). lia. }
      exact (IH m avail H1 Hv).
Qed.

Lemma matches_le_quick (a b : str) : matches a b <= quick_matches a b.
Proof.
  unfold matches. rewrite <- matched_length.
  destruct (matched_sub (S (len a)) a b) as [Ha Hb].
  now apply quick_matches_greatest.
Qed.

Lemma matches_le_min (a b : str) :
  matches a b <= Nat.min (len a) (len b).
Proof.
  unfold matches, len.
  destruct (matches_le_length (S (List.length a)) a b). lia.
Qed.

Lemma calculate_ratio_mono (m m' length : nat) :
  m <= m' -> (calculate_ratio m length <= calculate_ratio m' length)%Q.
Proof.
  intros H. unfold calculate_ratio. destruct length as [|l].
  - apply Qle_refl.
  - unfold Qle. simpl. nia.
Qed.

Lemma quick_ratio_bounds (a b : str) :
  (ratio a b <= quick_ratio a b)%Q.
Proof. apply calculate_ratio_mono, matches_le_quick. Qed.

Lemma real_quick_ratio_bounds (a b : str) :
  (ratio a b <= real_quick_ratio a b)%Q.
Proof. apply calculate_ratio_mono, matches_le_min. Qed.

(** The first premise of the resolution theorem, on any keys. *)
Lemma model_upper_bounds (keys : list str) (norm : str) :
  upper_bounds_hold ratio quick_ratio real_quick_ratio keys norm = true.
Proof.
  unfold upper_bounds_hold. apply forallb_forall. intros k _.
  apply andb_true_iff. split; apply Qle_bool_iff.
  - apply quick_ratio_bounds.
  - apply real_quick_ratio_bounds.
Qed.

Lemma scan_a_nil (a_suf : str) (i : nat) (best : block) :
  scan_a a_suf i [] best = best.
Proof.
  revert i. induction a_suf as [|c a_suf IH]; intros i; simpl;
    [reflexivity|apply IH].
Qed.

Lemma matches_nil_l (b : str) : matches [] b = 0.
Proof. reflexivity. Qed.

Lemma matches_nil_r (a : str) : matches a [] = 0.
Proof.
  unfold matches. simpl. unfold find_longest_match.
  now rewrite scan_a_nil.
Qed.

Lemma ratio_of_no_match (length : nat) :
  0 < length -> (calculate_ratio 0 length < 70 # 100)%Q.
Proof.
  intros H. unfold calculate_ratio. destruct length as [|l]; [lia|].
  unfold Qlt. simpl. lia.
Qed.

Lemma ratio_empty (k : str) :
  k <> [] ->
  (ratio [] k < 70 # 100)%Q /\ (ratio k [] < 70 # 100)%Q.
Proof.
  intros Hk. unfold ratio. rewrite matches_nil_l, matches_nil_r.
  assert (0 < len k) by (destruct k; [congruence|simpl; lia]).
  split; apply ratio_of_no_match; simpl; lia.
Qed.

End DifflibFacts.

(** ** Facts about the stages of [find_item_row_by_name] *)

Module ResolveFacts.

Import LookupFacts.

Section Stages.

Variables ratio quick_ratio real_quick_ratio : str -> str -> Q.

Lemma max_by_spec (f : str -> Q) (l : list str) :
  forall best,
    let r := max_by f best l in
    (r = best \/ In r l)
    /\ (f best <= f r)%Q
    /\ forall k, In k l -> (f k <= f r)%Q.
Proof.
  induction l as [|k l IH]; intros best; simpl.
  - split; [now left|]. split; [apply Qle_refl|intros k []].
  - specialize (IH (if Qltb (f best) (f k) then k else best)).
    cbv zeta in IH. destruct IH as (Hin & Hb & Hall).
    destruct (Qltb (f best) (f k)) eqn:E.
    + apply Qltb_true in E. split; [|split].
      * destruct Hin as [->|Hin]; auto.
      * eapply Qle_trans; [apply Qlt_le_weak; exact E|exact Hb].
      * intros k' [<-|Hk']; [exact Hb|now apply Hall].
    + apply Qltb_false in E. split; [|split].
      * destruct Hin as [->|Hin]; auto.
      * exact Hb.
      * intros k' [<-|Hk']; [|now apply Hall].
        eapply Qle_trans; [exact E|exact Hb].
Qed.

Lemma py_max_some (f : str -> Q) (l : list str) (k : str) :
  py_max f l = Some k -> best_of f l k.
Proof.
  destruct l as [|k0 l]; simpl; [discriminate|].
  intros H. injection H as <-.
  destruct (max_by_spec f l k0) as (Hin & Hb & Hall).
  split.
  - destruct Hin as [->|Hin]; [now left|now right].
  - intros k' [<-|Hk']; [exact Hb|now apply Hall].
Qed.

Lemma py_max_none (f : str -> Q) (l : list str) :
  py_max f l = None -> l = [].
Proof. destruct l; simpl; [reflexivity|discriminate]. Qed.

Lemma best_of_same (f : str -> Q) (l : list str) (k k' : str) :
  best_of f l k -> best_of f l k' -> (f k' <= f k)%Q.
Proof. intros [_ H] [Hin' _]. now apply H. Qed.

Lemma rejected_nil (f : str -> Q) (thr : Q) : rejected f thr [].
Proof. intros k [[] _]. Qed.

(** The shape shared by the two [max]-based stages. *)
Lemma max_stage (f : str -> Q) (thr : Q) (cands : list str) :
  match
    match py_max f cands with
    | None => None
    | Some best_key =>
        if Qle_bool thr (f best_key) then Some best_key else None
    end
  with
  | Some k => accepted f thr cands k
  | None => rejected f thr cands
  end.
Proof.
  destruct (py_max f cands) as [b|] eqn:E.
  - apply py_max_some in E.
    destruct (Qle_bool thr (f b)) eqn:Et.
    + split; [exact E|now apply Qle_bool_iff].
    + apply Qle_bool_false in Et. intros k Hk.
      eapply Qle_lt_trans; [|exact Et].
      exact (best_of_same _ _ _ _ E Hk).
  - apply py_max_none in E. subst cands. apply rejected_nil.
Qed.

Lemma strict_stage_spec (keys : list str) (norm : str) :
  match strict_stage ratio keys norm with
  | Some k =>
      accepted (ratio norm) (6 # 10)
               (strict_candidates_guarded keys norm) k
  | None =>
      rejected (ratio norm) (6 # 10)
               (strict_candidates_guarded keys norm)
  end.
Proof.
  unfold strict_stage, strict_candidates_guarded,
    strict_candidates_stated.
  destruct (long_tokens norm) as [|t ts].
  - apply rejected_nil.
  - apply max_stage.
Qed.

Lemma partial_stage_spec (keys : list str) (norm : str) :
  match partial_stage ratio keys norm with
  | Some k =>
      accepted (ratio norm) (70 # 100) (partial_candidates keys norm) k
  | None =>
      rejected (ratio norm) (70 # 100) (partial_candidates keys norm)
  end.
Proof. unfold partial_stage, partial_candidates. apply max_stage. Qed.

Lemma tuple_gtb_true (t1 t2 : Q * str) :
  tuple_gtb t1 t2 = true -> (fst t2 <= fst t1)%Q.
Proof.
  unfold tuple_gtb. destruct (Qeq_bool (fst t1) (fst t2)) eqn:E.
  - apply Qeq_bool_iff in E. intros _. rewrite E. apply Qle_refl.
  - intros H. apply Qltb_true in H. now apply Qlt_le_weak.
Qed.

Lemma tuple_gtb_false (t1 t2 : Q * str) :
  tuple_gtb t1 t2 = false -> (fst t1 <= fst t2)%Q.
Proof.
  unfold tuple_gtb. destruct (Qeq_bool (fst t1) (fst t2)) eqn:E.
  - apply Qeq_bool_iff in E. intros _. rewrite E. apply Qle_refl.
  - intros H. now apply Qltb_false in H.
Qed.

Lemma max_tuple_spec (l : list (Q * str)) :
  forall best,
    let r := max_tuple best l in
    (r = best \/ In r l)
    /\ (fst best <= fst r)%Q
    /\ forall t, In t l -> (fst t <= fst r)%Q.
Proof.
  induction l as [|t l IH]; intros best; simpl.
  - split; [now left|]. split; [apply Qle_refl|intros t []].
  - specialize (IH (if tuple_gtb t best then t else best)).
    cbv zeta in IH. destruct IH as (Hin & Hb & Hall).
    destruct (tuple_gtb t best) eqn:E.
    + apply tuple_gtb_true in E. split; [|split].
      * destruct Hin as [->|Hin]; auto.
      * eapply Qle_trans; [exact E|exact Hb].
      * intros t' [<-|Ht']; [exact Hb|now apply Hall].
    + apply tuple_gtb_false in E. split; [|split].
      * destruct Hin as [->|Hin]; auto.
      * exact Hb.
      * intros t' [<-|Ht']; [|now apply Hall].
        eapply Qle_trans; [exact E|exact Hb].
Qed.

Lemma scored_In (cutoff : Q) (word : str) (l : list str) (t : Q * str) :
  In t (scored ratio quick_ratio real_quick_ratio cutoff word l)
  <-> In (snd t) l
      /\ close_enough ratio quick_ratio real_quick_ratio
                      cutoff word (snd t) = true
      /\ fst t = ratio (snd t) word.
Proof.
  unfold scored. rewrite in_flat_map. split.
  - intros (x & Hx & Ht).
    destruct (close_enough ratio quick_ratio real_quick_ratio
                           cutoff word x) eqn:E; [|destruct Ht].
    destruct Ht as [<-|[]]. simpl. auto.
  - intros (Hin & Hc & Hs). exists (snd t). split; [exact Hin|].
    rewrite Hc. left. destruct t; simpl in *. now subst.
Qed.

Lemma close_enough_ratio (cutoff : Q) (word x : str) :
  close_enough ratio quick_ratio real_quick_ratio cutoff word x = true ->
  (cutoff <= ratio x word)%Q.
Proof.
  unfold close_enough. intros H.
  apply andb_true_iff in H. destruct H as [_ H].
  now apply Qle_bool_iff.
Qed.

Lemma not_close_enough (cutoff : Q) (word x : str) :
  (ratio x word <= quick_ratio x word)%Q ->
  (ratio x word <= real_quick_ratio x word)%Q ->
  close_enough ratio quick_ratio real_quick_ratio cutoff word x = false ->
  (ratio x word < cutoff)%Q.
Proof.
  intros Hq Hr. unfold close_enough. intros H.
  apply andb_false_iff in H. destruct H as [H|H].
  - apply andb_false_iff in H. destruct H as [H|H];
      apply Qle_bool_false in H.
    + exact (Qle_lt_trans _ _ _ Hr H).
    + exact (Qle_lt_trans _ _ _ Hq H).
  - now apply Qle_bool_false in H.
Qed.

Lemma upper_bounds_In (keys : list str) (norm k : str) :
  upper_bounds_hold ratio quick_ratio real_quick_ratio keys norm = true ->
  In k keys ->
  (ratio k norm <= quick_ratio k norm)%Q
  /\ (ratio k norm <= real_quick_ratio k norm)%Q.
Proof.
  unfold upper_bounds_hold. rewrite forallb_forall. intros H Hin.
  specialize (H k Hin). apply andb_true_iff in H.
  destruct H as [H1 H2]. split; now apply Qle_bool_iff.
Qed.

Lemma fuzzy_stage_spec (keys : list str) (norm : str) :
  upper_bounds_hold ratio quick_ratio real_quick_ratio keys norm = true ->
  match fuzzy_stage ratio quick_ratio real_quick_ratio keys norm with
  | Some k => accepted (fun k => ratio k norm) (70 # 100) keys k
  | None => rejected (fun k => ratio k norm) (70 # 100) keys
  end.
Proof.
  intros Hub. unfold fuzzy_stage, get_close_matches.
  pose proof (scored_In (70 # 100) norm keys) as HI.
  assert (Far : forall k, In k keys ->
              close_enough ratio quick_ratio real_quick_ratio
                           (70 # 100) norm k = false ->
              (ratio k norm < 70 # 100)%Q).
  { intros k Hin E.
    destruct (upper_bounds_In _ _ _ Hub Hin) as [Hq Hr].
    now apply not_close_enough. }
  destruct (scored ratio quick_ratio real_quick_ratio
                   (70 # 100) norm keys) as [|t l].
  - intros k [Hin _].
    destruct (close_enough ratio quick_ratio real_quick_ratio
                           (70 # 100) norm k) eqn:E.
    + exfalso. apply (HI (ratio k norm, k)). simpl. auto.
    + now apply Far.
  - destruct (max_tuple_spec l t) as (Hr & Hb & Hall).
    set (r := max_tuple t l) in *.
    assert (Hrin : In r (t :: l))
      by (destruct Hr as [->|Hr]; [now left|now right]).
    apply HI in Hrin. destruct Hrin as (Hk & Hc & Hs).
    split; [split|].
    + exact Hk.
    + intros k' Hk'.
      destruct (close_enough ratio quick_ratio real_quick_ratio
                             (70 # 100) norm k') eqn:E.
      * assert (Hin' : In (ratio k' norm, k') (t :: l))
          by (apply HI; simpl; auto).
        rewrite <- Hs. destruct Hin' as [E'|Hin'].
        -- rewrite E' in Hb. exact Hb.
        -- exact (Hall _ Hin').
      * apply Qlt_le_weak. eapply Qlt_le_trans.
        -- now apply Far.
        -- now apply close_enough_ratio.
    + now apply close_enough_ratio.
Qed.

End Stages.

End ResolveFacts.

(** ** The resolution order of [find_item_row_by_name] *)

Module ResolveOrder.

Import LookupFacts StrFacts RegexFacts NormalizeFacts ResolveFacts.

Lemma normalize_nonempty (s : str) :
  strip s <> [] -> normalize_name_for_match s <> [].
Proof.
  intros Hne. rewrite normalize_shape.
  pose proof (convert_trimmed _ (strip_trimmed s)) as Ht.
  pose proof (convert_nonempty _ (strip_trimmed s) Hne) as Hc.
  destruct (convert_numeral (strip s)) as [|c r]; [congruence|].
  unfold collapse_ws. cbn [map]. apply collapse_nonempty.
  rewrite fold_char_space by apply table_for_cases.
  exact (trimmed_head c r Ht).
Qed.

Lemma has_key_nil (row : Row) : has_key [] row = false.
Proof.
  unfold has_key, row_key.
  destruct (strip (row_get row "Name" [])) as [|c name] eqn:E;
    [reflexivity|].
  apply str_eqb_neq. apply normalize_nonempty.
  rewrite <- E, (trimmed_strip _ (strip_trimmed _)), E. discriminate.
Qed.

(** The empty string is never a key of the table. *)
Lemma lookup_no_empty_key (rows : list Row) :
  dict_get (fst (build_item_lookup rows)) [] = None.
Proof.
  unfold build_item_lookup. rewrite build_loop_lookup. unfold last_such.
  assert (H : find (has_key []) (rev rows) = None).
  { induction (rev rows) as [|r l IH]; simpl; [reflexivity|].
    now rewrite has_key_nil. }
  now rewrite H.
Qed.

Lemma strict_guarded_In (keys : list str) (norm k : str) :
  In k (strict_candidates_guarded keys norm) -> In k keys.
Proof.
  unfold strict_candidates_guarded, strict_candidates_stated.
  destruct (long_tokens norm); [intros []|].
  intros H. apply filter_In in H. tauto.
Qed.

Lemma partial_In (keys : list str) (norm k : str) :
  In k (partial_candidates keys norm) -> In k keys.
Proof. unfold partial_candidates. intros H. apply filter_In in H. tauto. Qed.

Lemma strict_guarded_nil (norm : str) :
  strict_candidates_guarded [] norm = [].
Proof.
  unfold strict_candidates_guarded. now destruct (long_tokens norm).
Qed.

Lemma empty_dissimilar_In (ratio : str -> str -> Q) (keys : list str)
      (k : str) :
  empty_dissimilar ratio keys = true -> In k keys ->
  (ratio [] k < 70 # 100)%Q /\ (ratio k [] < 70 # 100)%Q.
Proof.
  unfold empty_dissimilar. rewrite forallb_forall. intros H Hin.
  specialize (H k Hin). apply andb_true_iff in H.
  destruct H as [H1 H2]. split; now apply Qltb_true.
Qed.

(** The reference model of [difflib] meets both premises of the theorem
    below, on every database and every name. *)
Lemma model_meets_premises (rows : list Row) (name : str) :
  upper_bounds_hold Difflib.ratio Difflib.quick_ratio
                    Difflib.real_quick_ratio
                    (dict_keys (fst (build_item_lookup rows)))
                    (normalize_name_for_match name) = true
  /\ empty_dissimilar Difflib.ratio
                      (dict_keys (fst (build_item_lookup rows))) = true.
Proof.
  split; [apply DifflibFacts.model_upper_bounds|].
  unfold empty_dissimilar. apply forallb_forall. intros k Hin.
  assert (Hk : k <> []).
  { intros ->. destruct (dict_keys_get _ _ _ Hin) as [row Hrow].
    rewrite lookup_no_empty_key in Hrow. discriminate. }
  destruct (DifflibFacts.ratio_empty k Hk) as [H1 H2].
  apply andb_true_iff. split; now apply Qltb_true.
Qed.

(** The order as the specification words it does not describe the
    function on the query "Ro" against a table whose only key is "rope":
    every key contains all (zero) long tokens of "ro" and the similarity
    4/6 reaches 0.60, so that order resolves the query, while the function,
    which skips the token stage for a query without a long token, returns
    none. *)
Lemma stated_order_fails_without_long_token :
  find_item_row_by_name Difflib.ratio Difflib.quick_ratio
                        Difflib.real_quick_ratio rope_table (lit "Ro")
  = None
  /\ ~ resolves_as_stated Difflib.ratio rope_table (lit "Ro") None.
Proof.
  split; [reflexivity|].
  unfold resolves_as_stated. intros H. inversion H as [ | | | | Hex Hs Hp Hf].
  assert (Hbest : best_of (Difflib.ratio (lit "ro")) [lit "rope"]
                          (lit "rope")).
  { split; [now left|]. intros k' [<-|[]]. apply Qle_refl. }
  specialize (Hs (lit "rope") Hbest).
  vm_compute in Hs. discriminate.
Qed.

(** C1, as the code has it. For every database and every raw name,
    [find_item_row_by_name] returns what the stages give in order, the first
    success deciding: (1) the row of the normalized key when it is in the
    table; (2) when the query has a token of length at least 3, among the
    keys that contain all such tokens a key of greatest similarity to the
    query, accepted exactly when the similarity is at least 0.60; (3) among
    the keys that are a substring of the query or of which the query is one,
    a key of greatest similarity, accepted exactly when it is at least 0.70;
    (4) among all keys a key of greatest similarity (measured from the key
    to the query), accepted exactly when it is at least 0.70; none
    otherwise. The similarity measure is any measure whose two quick bounds
    lie above it on the keys and that keeps the empty string below 0.70 from
    every key. *)
Theorem find_item_row_by_name_stages
        (ratio quick_ratio real_quick_ratio : str -> str -> Q)
        (rows : list Row) (name : str) :
  upper_bounds_hold ratio quick_ratio real_quick_ratio
                    (dict_keys (fst (build_item_lookup rows)))
                    (normalize_name_for_match name) = true ->
  empty_dissimilar ratio (dict_keys (fst (build_item_lookup rows)))
  = true ->
  resolves_guarded
    ratio (fst (build_item_lookup rows)) name
    (find_item_row_by_name ratio quick_ratio real_quick_ratio
                           (fst (build_item_lookup rows)) name).
Proof.
  pose proof (lookup_no_empty_key rows) as Hnil.
  set (tbl := fst (build_item_lookup rows)) in *.
  intros Hub Hemp. unfold resolves_guarded.
  set (norm := normalize_name_for_match name) in *.
  assert (Hget : forall k, In k (dict_keys tbl) ->
                           exists row, dict_get tbl k = Some row)
    by (intros k; apply dict_keys_get).
  assert (Body :
    resolves_with ratio
      (strict_candidates_guarded (dict_keys tbl) norm) tbl norm
      match dict_get tbl norm with
      | Some row => Some row
      | None =>
          match strict_stage ratio (dict_keys tbl) norm with
          | Some best_key => dict_get tbl best_key
          | None =>
              match partial_stage ratio (dict_keys tbl) norm with
              | Some best_key => dict_get tbl best_key
              | None =>
                  match fuzzy_stage ratio quick_ratio real_quick_ratio
                                    (dict_keys tbl) norm with
                  | Some best0 => dict_get tbl best0
                  | None => None
                  end
              end
          end
      end).
  { destruct (dict_get tbl norm) as [row|] eqn:Ex.
    { now apply res_exact. }
    pose proof (strict_stage_spec ratio (dict_keys tbl) norm) as S2.
    destruct (strict_stage ratio (dict_keys tbl) norm) as [k|].
    { destruct (Hget k) as [row Hrow].
      { apply (strict_guarded_In _ norm). apply S2. }
      rewrite Hrow. eapply res_strict; eassumption. }
    pose proof (partial_stage_spec ratio (dict_keys tbl) norm) as S3.
    destruct (partial_stage ratio (dict_keys tbl) norm) as [k|].
    { destruct (Hget k) as [row Hrow].
      { apply (partial_In _ norm). apply S3. }
      rewrite Hrow. eapply res_partial; eassumption. }
    pose proof (fuzzy_stage_spec ratio quick_ratio real_quick_ratio
                                 (dict_keys tbl) norm Hub) as S4.
    destruct (fuzzy_stage ratio quick_ratio real_quick_ratio
                          (dict_keys tbl) norm) as [k|].
    { destruct (Hget k) as [row Hrow]; [apply S4|].
      rewrite Hrow. eapply res_fuzzy; eassumption. }
    now apply res_none. }
  unfold find_item_row_by_name.
  destruct name as [|c nm].
  - (* the empty name *)
    assert (Hn : norm = []) by reflexivity. rewrite Hn in *.
    apply res_none.
    + exact Hnil.
    + intros k [Hin _]. exfalso. exact Hin.
    + intros k [Hin _]. apply partial_In in Hin.
      exact (proj1 (empty_dissimilar_In ratio _ k Hemp Hin)).
    + intros k [Hin _].
      exact (proj2 (empty_dissimilar_In ratio _ k Hemp Hin)).
  - destruct tbl as [|p tl] eqn:Et; [|exact Body].
    (* the empty table *)
    apply res_none.
    + reflexivity.
    + rewrite strict_guarded_nil. apply rejected_nil.
    + apply rejected_nil.
    + apply rejected_nil.
Qed.

Lemma find_item_row_by_name_stages_witness :
  upper_bounds_hold Difflib.ratio Difflib.quick_ratio
                    Difflib.real_quick_ratio
                    (dict_keys (fst (build_item_lookup sample_rows)))
                    (normalize_name_for_match (lit "EXTENDED LIGHT MAG 2"))
  = true
  /\ empty_dissimilar Difflib.ratio
                      (dict_keys (fst (build_item_lookup sample_rows)))
     = true
  /\ resolves_guarded
       Difflib.ratio (fst (build_item_lookup sample_rows))
       (lit "EXTENDED LIGHT MAG 2")
       (find_item_row_by_name
          Difflib.ratio Difflib.quick_ratio Difflib.real_quick_ratio
          (fst (build_item_lookup sample_rows))
          (lit "EXTENDED LIGHT MAG 2")).
Proof.
  assert (H1 : upper_bounds_hold
                 Difflib.ratio Difflib.quick_ratio Difflib.real_quick_ratio
                 (dict_keys (fst (build_item_lookup sample_rows)))
                 (normalize_name_for_match (lit "EXTENDED LIGHT MAG 2"))
               = true) by (vm_compute; reflexivity).
  assert (H2 : empty_dissimilar
                 Difflib.ratio
                 (dict_keys (fst (build_item_lookup sample_rows)))
               = true) by (vm_compute; reflexivity).
  split; [exact H1|]. split; [exact H2|].
  exact (find_item_row_by_name_stages
           Difflib.ratio Difflib.quick_ratio Difflib.real_quick_ratio
           sample_rows (lit "EXTENDED LIGHT MAG 2") H1 H2).
Defined.

Example fuzzy_match_of_the_upper_case_name :
  find_item_row_by_name
    Difflib.ratio Difflib.quick_ratio Difflib.real_quick_ratio
    (fst (build_item_lookup sample_rows)) (lit "EXTENDED LIGHT MAG 2")
  = Some [("Name"%string, lit "Extended Light Mag II");
          ("Verdict"%string, lit "RECYCLE")].
Proof. vm_compute. reflexivity. Qed.

End ResolveOrder.

(** ** Facts about the result drain *)

Module DrainFacts.

Import Drain.
Local Open Scope Z_scope.

Lemma drain_step_stale (active : bool) (st : loop_state) (res : OcrResult) :
  task_id res < latest_result_id st ->
  drain_step active st res = (st, false).
Proof.
  intros H. unfold drain_step.
  apply Z.ltb_lt in H. now rewrite H.
Qed.

Lemma drain_step_latest (active : bool) (st : loop_state) (res : OcrResult) :
  latest_result_id (fst (drain_step active st res))
  = Z.max (latest_result_id st) (task_id res).
Proof.
  unfold drain_step.
  destruct (task_id res <? latest_result_id st) eqn:E.
  - apply Z.ltb_lt in E. simpl. lia.
  - apply Z.ltb_ge in E.
    destruct active; simpl; [|lia].
    destruct (truthy (error res)); simpl; [lia|].
    destruct (truthy (name res) && is_some (row res))%bool; simpl; lia.
Qed.

Lemma drain_step_applied (active : bool) (st : loop_state) (res : OcrResult) :
  snd (drain_step active st res) = true ->
  latest_result_id st <= task_id res.
Proof.
  unfold drain_step.
  destruct (task_id res <? latest_result_id st) eqn:E; simpl.
  - discriminate.
  - intros _. now apply Z.ltb_ge in E.
Qed.

Lemma drain_latest_monotone (active : bool) (queue : list OcrResult) :
  forall st,
    latest_result_id st
    <= latest_result_id (fst (drain active st queue)).
Proof.
  induction queue as [|res queue IH]; intros st; simpl.
  - lia.
  - pose proof (drain_step_latest active st res) as L.
    destruct (drain_step active st res) as [st1 applied]. simpl in L.
    specialize (IH st1).
    destruct (drain active st1 queue) as [st2 log]. simpl in *. lia.
Qed.

(** Every id in the log was, when its result was dequeued, at least the
    counter the drain started from. *)
Lemma drain_log_lower_bound (active : bool) (queue : list OcrResult) :
  forall st id, In id (snd (drain active st queue)) ->
                latest_result_id st <= id.
Proof.
  induction queue as [|res queue IH]; intros st id; simpl.
  - intros [].
  - pose proof (drain_step_latest active st res) as L.
    pose proof (drain_step_applied active st res) as A.
    destruct (drain_step active st res) as [st1 applied]. simpl in L, A.
    specialize (IH st1 id).
    destruct (drain active st1 queue) as [st2 log]. simpl in *.
    destruct applied; simpl.
    + intros [<-|Hin]; [now apply A|]. specialize (IH Hin). lia.
    + intros Hin. specialize (IH Hin). lia.
Qed.

(** C4. The drain applies a result only when its task id is not below
    [latest_result_id], a result below it leaves the whole state as it was,
    [latest_result_id] never decreases over a step or over a whole drain,
    and on the arrival order 5, 3, 7, 6 (from the loop's initial counter
    -1, tooltip active, 5 and 7 without error) exactly 5 and then 7 are
    applied, the final state being the one reached on 5, 7 alone. *)
Theorem drain_applies_only_newest :
  (forall active st res,
      snd (drain_step active st res) = true ->
      latest_result_id st <= task_id res)
  /\ (forall active st res,
         task_id res < latest_result_id st ->
         drain_step active st res = (st, false))
  /\ (forall active st res,
         latest_result_id st
         <= latest_result_id (fst (drain_step active st res)))
  /\ (forall active st queue,
         latest_result_id st
         <= latest_result_id (fst (drain active st queue)))
  /\ (forall st0 n5 r5 pb5 s5 res3 n7 r7 pb7 s7 res6,
         let st := set_latest st0 (-1) in
         let q5 := ok_result 5 n5 r5 pb5 s5 in
         let q7 := ok_result 7 n7 r7 pb7 s7 in
         snd (drain true st [q5; with_id 3 res3; q7; with_id 6 res6])
         = [5; 7]
         /\ fst (drain true st [q5; with_id 3 res3; q7; with_id 6 res6])
            = fst (drain true st [q5; q7])).
Proof.
  split; [exact drain_step_applied|].
  split; [exact drain_step_stale|].
  split.
  { intros active st res. rewrite drain_step_latest. lia. }
  split.
  { intros active st queue. apply drain_latest_monotone. }
  intros st0 n5 r5 pb5 s5 res3 n7 r7 pb7 s7 res6. cbv zeta.
  unfold drain, drain_step, ok_result, with_id, set_latest; simpl.
  destruct (truthy n5 && is_some r5)%bool; simpl;
    destruct (truthy n7 && is_some r7)%bool; simpl; split; reflexivity.
Qed.

Lemma drain_applies_only_newest_witness :
  (3 < latest_result_id sample_state)
  /\ drain_step true sample_state (ok_result 3 None None None false)
     = (sample_state, false).
Proof.
  split; [simpl; lia|].
  apply (proj1 (proj2 drain_applies_only_newest)). simpl; lia.
Defined.

End DrainFacts.

(** ** Facts about the panel filter *)

Module DetectorFacts.

Import Detector Float64.

Lemma examine_passes (c : contour) :
  passes_filters c ->
  examine 30000%Z (of_Q (80 # 100)) 6 c = Some (candidate_of c).
Proof.
  intros (Hw & Hh & Ha & Hf & Hv & Hlo & Hhi). unfold examine.
  replace (bw c <=? 0)%Z with false by (symmetry; apply Z.leb_gt; lia).
  replace (bh c <=? 0)%Z with false by (symmetry; apply Z.leb_gt; lia).
  simpl.
  replace (Qltb (area c) (inject_Z 30000)) with false
    by (symmetry; now apply Qltb_false).
  replace (ltb (fill_ratio c) (of_Q (80 # 100))) with false
    by (symmetry; now apply Qltb_false).
  replace (6 <? approx_len c) with false
    by (symmetry; apply Nat.ltb_ge; lia).
  replace (ltb (aspect c) (of_Q (4 # 10))) with false
    by (symmetry; now apply Qltb_false).
  replace (ltb (of_Q (18 # 10)) (aspect c)) with false
    by (symmetry; now apply Qltb_false).
  reflexivity.
Qed.

Lemma examine_some (c : contour) (b : candidate) :
  examine 30000%Z (of_Q (80 # 100)) 6 c = Some b ->
  passes_filters c /\ b = candidate_of c.
Proof.
  unfold examine.
  destruct ((bw c <=? 0)%Z || (bh c <=? 0)%Z)%bool eqn:Ed; [discriminate|].
  apply orb_false_iff in Ed. destruct Ed as [Ew Eh].
  apply Z.leb_gt in Ew, Eh.
  destruct (Qltb (area c) (inject_Z 30000)) eqn:Ea; [discriminate|].
  destruct (ltb (fill_ratio c) (of_Q (80 # 100))) eqn:Ef; [discriminate|].
  destruct (6 <? approx_len c) eqn:Ev; [discriminate|].
  destruct (ltb (aspect c) (of_Q (4 # 10))
            || ltb (of_Q (18 # 10)) (aspect c))%bool
    eqn:Es; [discriminate|].
  apply orb_false_iff in Es. destruct Es as [Elo Ehi].
  intros H. inversion H. split; [|reflexivity].
  apply Qltb_false in Ea, Ef, Elo, Ehi. apply Nat.ltb_ge in Ev.
  repeat split; assumption.
Qed.

Lemma collect_In (contours : list contour) (b : candidate) :
  In b (collect 30000%Z (of_Q (80 # 100)) 6 contours)
  <-> exists c, In c contours /\ passes_filters c /\ b = candidate_of c.
Proof.
  induction contours as [|c0 contours IH]; simpl.
  - split; [intros []|intros (c & [] & _)].
  - destruct (examine 30000%Z (of_Q (80 # 100)) 6 c0) as [b0|] eqn:E.
    + apply examine_some in E. destruct E as [P ->]. simpl. split.
      * intros [<-|H]; [exists c0; auto|].
        apply IH in H. destruct H as (c & Hin & Hp & ->).
        exists c; auto.
      * intros (c & [->|Hin] & Hp & ->); [now left|].
        right. apply IH. exists c; auto.
    + rewrite IH. split.
      * intros (c & Hin & Hp & ->). exists c; auto.
      * intros (c & [->|Hin] & Hp & ->).
        { rewrite (examine_passes _ Hp) in E. discriminate. }
        exists c; auto.
Qed.

Lemma key_ltb_false (b b' : candidate) :
  key_ltb (sort_key b') (sort_key b) = false -> key_le b b'.
Proof.
  unfold key_ltb, sort_key, key_le. simpl.
  destruct (cx1 b' =? cx1 b)%Z eqn:E.
  - apply Z.eqb_eq in E. intros H. apply Qltb_false in H.
    right. split; [lia|]. now apply Qopp_le_compat in H; rewrite !Qopp_opp in H.
  - apply Z.eqb_neq in E. intros H. apply Z.ltb_ge in H. left. lia.
Qed.

Lemma key_ltb_true (b b' : candidate) :
  key_ltb (sort_key b') (sort_key b) = true -> key_le b' b.
Proof.
  unfold key_ltb, sort_key, key_le. simpl.
  destruct (cx1 b' =? cx1 b)%Z eqn:E.
  - apply Z.eqb_eq in E. intros H. apply Qltb_true in H.
    right. split; [lia|]. apply Qlt_le_weak in H.
    now apply Qopp_le_compat in H; rewrite !Qopp_opp in H.
  - apply Z.eqb_neq in E. intros H. apply Z.ltb_lt in H. left. lia.
Qed.

Lemma key_le_refl (b : candidate) : key_le b b.
Proof. right. split; [reflexivity|apply Qle_refl]. Qed.

Lemma key_le_trans (a b c : candidate) :
  key_le a b -> key_le b c -> key_le a c.
Proof.
  unfold key_le. intros [H1|[H1 Q1]] [H2|[H2 Q2]].
  - left; lia.
  - left; lia.
  - left; lia.
  - right. split; [lia|]. eapply Qle_trans; eassumption.
Qed.

Lemma insert_sorted_In (b : candidate) (l : list candidate) (x : candidate) :
  In x (insert_sorted b l) <-> x = b \/ In x l.
Proof.
  induction l as [|b' l IH]; simpl.
  - intuition.
  - destruct (key_ltb (sort_key b') (sort_key b)); simpl.
    + rewrite IH. intuition.
    + intuition.
Qed.

Lemma insert_sorted_head_least (b : candidate) (l : list candidate) :
  head_least l -> head_least (insert_sorted b l).
Proof.
  destruct l as [|h t]; simpl.
  - intros _ x [].
  - intros Hl. destruct (key_ltb (sort_key h) (sort_key b)) eqn:E; simpl.
    + intros x Hx. apply insert_sorted_In in Hx.
      destruct Hx as [->|Hx]; [now apply key_ltb_true|now apply Hl].
    + intros x [<-|Hx]; [now apply key_ltb_false|].
      apply key_le_trans with h; [now apply key_ltb_false|now apply Hl].
Qed.

Lemma sort_candidates_In (l : list candidate) (x : candidate) :
  In x (sort_candidates l) <-> In x l.
Proof.
  induction l as [|b l IH]; simpl; [reflexivity|].
  rewrite insert_sorted_In, IH. intuition.
Qed.

Lemma sort_candidates_head_least (l : list candidate) :
  head_least (sort_candidates l).
Proof.
  induction l as [|b l IH]; simpl; [exact I|].
  now apply insert_sorted_head_least.
Qed.

(** C5. When the detector returns a box, it is the bounding box of a
    contour of the frame that passes the four filters (area at least
    30000, fill ratio at least 0.80, at most 6 vertices, aspect ratio in
    [0.4, 1.8]), and that contour is ranked first among all contours that
    pass them: leftmost, and among equally left ones of greatest area times
    fill ratio.  When it returns none, no contour passes the filters.  The
    ratios and the product are the doubles the code computes, and they are
    compared as doubles. *)
Theorem panel_is_first_ranked_survivor (contours : list contour) :
  match find_tooltip_panel_by_color contours with
  | Some box =>
      exists c, In c contours /\ box = box_of c /\ passes_filters c
                /\ forall c', In c' contours -> passes_filters c' ->
                              ranks_first c c'
  | None => forall c, In c contours -> ~ passes_filters c
  end.
Proof.
  unfold find_tooltip_panel_by_color, find_tooltip_panel_by_color_with.
  destruct contours as [|c0 rest] eqn:Ec; [intros c []|].
  rewrite <- Ec. clear Ec c0 rest.
  pose proof (sort_candidates_head_least
                (collect 30000%Z (of_Q (80 # 100)) 6 contours)) as HL.
  pose proof (sort_candidates_In
                (collect 30000%Z (of_Q (80 # 100)) 6 contours)) as HI.
  destruct (sort_candidates (collect 30000%Z (of_Q (80 # 100)) 6 contours))
    as [|b t].
  - intros c Hin Hp.
    apply (HI (candidate_of c)). apply collect_In. exists c; auto.
  - assert (Hb : In b (collect 30000%Z (of_Q (80 # 100)) 6 contours))
      by (apply HI; now left).
    apply collect_In in Hb. destruct Hb as (c & Hin & Hp & ->).
    exists c. split; [assumption|]. split; [reflexivity|].
    split; [assumption|].
    intros c' Hin' Hp'.
    assert (Hc' : In (candidate_of c')
                     (collect 30000%Z (of_Q (80 # 100)) 6 contours))
      by (apply collect_In; exists c'; auto).
    apply HI in Hc'. destruct Hc' as [E|Hc'].
    + unfold ranks_first. right.
      pose proof (f_equal cx1 E) as Ex.
      pose proof (f_equal c_area E) as Ea.
      pose proof (f_equal c_fill E) as Ef.
      cbn [candidate_of cx1 c_area c_fill] in Ex, Ea, Ef.
      split; [assumption|]. unfold score. rewrite Ea, Ef. apply Qle_refl.
    + exact (HL _ Hc').
Qed.

Lemma panel_is_first_ranked_survivor_witness :
  exists c, In c sample_contours
            /\ (120, 500, 420, 900)%Z = box_of c /\ passes_filters c
            /\ forall c', In c' sample_contours -> passes_filters c' ->
                          ranks_first c c'.
Proof. exact (panel_is_first_ranked_survivor sample_contours). Defined.

Example panel_of_sample_contours :
  find_tooltip_panel_by_color sample_contours
  = Some (120, 500, 420, 900)%Z.
Proof. reflexivity. Qed.

(** On a near tie the rounding of the products decides: the first contour
    stays first, although its exact product is the smaller one. *)
Example near_tie_in_doubles :
  find_tooltip_panel_by_color near_tie = Some (100, 10, 779, 974)%Z
  /\ (match near_tie with
      | [a; b] =>
          (value (score b) < value (score a))%Q
          /\ (area a * (area a / inject_Z (bw a * bh a))
              < area b * (area b / inject_Z (bw b * bh b)))%Q
      | _ => False
      end).
Proof. vm_compute. repeat split. Qed.

End DetectorFacts.

(** ** The region extractor on a small panel *)

Module RegionFacts.

Import Region.
Local Open Scope Z_scope.

(** C6. On an 8K frame (7680 by 4320) and a detected panel of 200 by 200
    pixels the primary crop has no rows: the offsets are clamped against
    the frame, 54 * 4 = 216 stays as it is, and the slice is then taken of
    the 200-row panel image.  The secondary crop of the same panel is not
    empty. *)
Theorem primary_crop_of_small_panel_is_empty :
  crop_name_region_from_panel (Some frame_8k) (Some small_panel)
  = Some (mkView 300 160 0 140)
  /\ crop_name_region_from_panel_alt (Some frame_8k) (Some small_panel)
     = Some (mkView 116 160 184 140).
Proof. split; reflexivity. Qed.

End RegionFacts.

(** ** Facts about the OCR throttle *)

Module ThrottleFacts.

Import Throttle.
Local Open Scope Z_scope.

Lemma hash_eqb_eq (a b : option gray) : hash_eqb a b = true <-> a = b.
Proof.
  destruct a as [x|], b as [y|]; simpl; try (split; congruence).
  destruct (list_eq_dec Z.eq_dec x y); split; congruence.
Qed.

Lemma abs_diff_sum_self (g : gray) : abs_diff_sum g g = 0.
Proof.
  induction g as [|x g IH]; simpl; [reflexivity|].
  rewrite IH, Z.sub_diag. reflexivity.
Qed.

Lemma diff_below_self (x : Z) (g : gray) :
  diff_below (x :: g) (x :: g) 3%Q = true.
Proof.
  unfold diff_below, mean_abs_diff. rewrite abs_diff_sum_self.
  unfold Qltb. apply negb_true_iff.
  destruct (Qle_bool 3
              (inject_Z 0 / inject_Z (Z.of_nat (List.length (x :: g)))))
    eqn:E; [|reflexivity].
  apply Qle_bool_iff in E. exfalso.
  unfold Qdiv in E. rewrite Qmult_0_l in E. revert E.
  unfold Qle. simpl. lia.
Qed.

(** Computing the hash of the same reduction again returns the same hash
    and leaves the cache as the first call left it. *)
Lemma compute_twice (small : option gray) (c : hash_cache) :
  compute_name_roi_hash
    small 3%Q (snd (compute_name_roi_hash small 3%Q c))
  = compute_name_roi_hash small 3%Q c.
Proof.
  destruct small as [g|]; simpl; [|reflexivity].
  assert (S : compute_name_roi_hash
                (Some g) 3%Q (mkCache (Some g) (Some g))
              = (Some g, mkCache (Some g) (Some g))).
  { simpl. rewrite Nat.eqb_refl.
    destruct g as [|x g]; [reflexivity|].
    now rewrite diff_below_self. }
  destruct (prev_gray c) as [pg|] eqn:Ep; [|exact S].
  destruct (List.length pg =? List.length g)%nat eqn:El; [|exact S].
  destruct (diff_below g pg 3%Q) eqn:Ed; [|exact S].
  simpl. now rewrite Ep, El, Ed.
Qed.

Lemma dispatch_step_cache (st : throttle_state) (small : option gray)
      (now : Q) :
  cache (fst (dispatch_step st small now))
  = snd (compute_name_roi_hash small 3%Q (cache st)).
Proof.
  unfold dispatch_step.
  destruct (compute_name_roi_hash small 3%Q (cache st)) as [h c].
  destruct h as [h|]; [|reflexivity].
  destruct (hash_eqb (Some h) (last_name_roi_hash st)); [reflexivity|].
  destruct (Qle_bool OCR_MIN_INTERVAL (now - LAST_OCR_TIME st));
    [|reflexivity].
  destruct (List.length (ocr_task_queue st) <? 4)%nat; reflexivity.
Qed.

Lemma dispatch_step_dispatched (st : throttle_state) (small : option gray)
      (now : Q) :
  dispatched (snd (dispatch_step st small now)) = true ->
  (exists h, tick_hash st small = Some h)
  /\ tick_hash st small <> last_name_roi_hash st
  /\ (OCR_MIN_INTERVAL <= now - LAST_OCR_TIME st)%Q
  /\ last_name_roi_hash (fst (dispatch_step st small now))
     = tick_hash st small.
Proof.
  unfold dispatch_step, tick_hash.
  destruct (compute_name_roi_hash small 3%Q (cache st)) as [h c]. simpl.
  destruct h as [h|]; [|discriminate].
  destruct (hash_eqb (Some h) (last_name_roi_hash st)) eqn:Eh;
    [discriminate|].
  destruct (Qle_bool OCR_MIN_INTERVAL (now - LAST_OCR_TIME st)) eqn:Et;
    [|discriminate].
  intros _. split; [now exists h|]. split.
  - intros E. apply hash_eqb_eq in E. congruence.
  - split; [now apply Qle_bool_iff|].
    destruct (List.length (ocr_task_queue st) <? 4)%nat; reflexivity.
Qed.

Lemma dispatch_step_same_hash (st : throttle_state) (small : option gray)
      (now : Q) :
  tick_hash st small = last_name_roi_hash st ->
  snd (dispatch_step st small now) = Skipped.
Proof.
  unfold dispatch_step, tick_hash.
  destruct (compute_name_roi_hash small 3%Q (cache st)) as [h c]. simpl.
  intros <-. destruct h as [h|]; [|reflexivity].
  assert (E : hash_eqb (Some h) (Some h) = true) by now apply hash_eqb_eq.
  now rewrite E.
Qed.

(** The threshold is not taken against the last dispatched hash: after a
    dispatch on an all-0 crop and a throttled tick on an all-10 crop, an
    all-1 crop is dispatched, although its hash lies at mean absolute
    difference 1 from the last hash that was dispatched. *)
Lemma dispatch_within_threshold_of_last_dispatched :
  let st2 :=
    fst (run initial [ (Some (flat 0), 1000%Q);
                       (Some (flat 10), (10001 # 10)%Q) ]) in
  snd (run initial [ (Some (flat 0), 1000%Q);
                     (Some (flat 10), (10001 # 10)%Q) ])
  = [Enqueued 1; Skipped]
  /\ last_name_roi_hash st2 = Some (flat 0)
  /\ tick_hash st2 (Some (flat 1)) = Some (flat 1)
  /\ snd (dispatch_step st2 (Some (flat 1)) (10005 # 10)%Q) = Enqueued 2
  /\ (mean_abs_diff (flat 1) (flat 0) == 1)%Q
  /\ ~ (3 <= mean_abs_diff (flat 1) (flat 0))%Q.
Proof.
  vm_compute. repeat split; try reflexivity. intros H. apply H. reflexivity.
Qed.

(** Two consecutive crops within the threshold of each other (all-8 and
    all-6) are both dispatched when the cache holds an older reduction
    (all-10) and the second tick comes 0.4 s after the first. *)
Example close_frames_both_dispatched :
  snd (run initial [ (Some (flat 0), 1000%Q);
                     (Some (flat 10), (10001 # 10)%Q);
                     (Some (flat 8), (10005 # 10)%Q);
                     (Some (flat 6), (10009 # 10)%Q) ])
  = [Enqueued 1; Skipped; Enqueued 2; Enqueued 3]
  /\ (mean_abs_diff (flat 6) (flat 8) == 2)%Q.
Proof. vm_compute. split; reflexivity. Qed.

(** C7, as the code has it. A tick dispatches a task only when the hash
    computed for the primary crop is present and is not equal to the hash
    recorded at the last dispatch, and at least 0.35 s have passed since the
    last dispatch; the computed hash is the cached one whenever the crop's
    reduction is within mean absolute difference 3.0 of the cached
    reduction; consequently two consecutive ticks for which the same hash is
    computed, in particular two ticks on the same reduction, dispatch at
    most one task. *)
Theorem throttle_dispatch_conditions :
  (forall st small now,
      dispatched (snd (dispatch_step st small now)) = true ->
      (exists h, tick_hash st small = Some h)
      /\ tick_hash st small <> last_name_roi_hash st
      /\ (OCR_MIN_INTERVAL <= now - LAST_OCR_TIME st)%Q)
  /\ (forall c g pg,
         prev_gray c = Some pg ->
         List.length pg = List.length g ->
         diff_below g pg 3%Q = true ->
         compute_name_roi_hash (Some g) 3%Q c = (prev_hash c, c))
  /\ (forall st small1 now1 small2 now2,
         tick_hash st small1
         = tick_hash (fst (dispatch_step st small1 now1)) small2 ->
         (count_dispatched
            (snd (run st [(small1, now1); (small2, now2)])) <= 1)%nat)
  /\ (forall st small now1 now2,
         (count_dispatched
            (snd (run st [(small, now1); (small, now2)])) <= 1)%nat).
Proof.
  assert (Same : forall st small1 now1 small2 now2,
             tick_hash st small1
             = tick_hash (fst (dispatch_step st small1 now1)) small2 ->
             (count_dispatched
                (snd (run st [(small1, now1); (small2, now2)])) <= 1)%nat).
  { intros st small1 now1 small2 now2 Hh. simpl.
    pose proof (@dispatch_step_dispatched st small1 now1) as D1.
    pose proof (@dispatch_step_same_hash
                  (fst (dispatch_step st small1 now1)) small2 now2) as D2.
    destruct (dispatch_step st small1 now1) as [st1 d1]. simpl in *.
    destruct (dispatch_step st1 small2 now2) as [st2 d2]. simpl in *.
    unfold count_dispatched. simpl.
    destruct (dispatched d1) eqn:E1.
    - destruct (D1 eq_refl) as (_ & _ & _ & L).
      rewrite D2 by congruence. simpl. lia.
    - destruct (dispatched d2); simpl; lia. }
  split.
  { intros st small now H.
    destruct (dispatch_step_dispatched _ _ _ H) as (A & B & C & _). auto. }
  split.
  { intros c g pg Hp Hl Hd. simpl.
    rewrite Hp, Hl, Nat.eqb_refl, Hd. reflexivity. }
  split; [exact Same|].
  intros st small now1 now2. apply Same.
  unfold tick_hash. rewrite dispatch_step_cache, compute_twice.
  reflexivity.
Qed.

Lemma throttle_dispatch_conditions_witness :
  dispatched (snd (dispatch_step initial (Some (flat 0)) 1000%Q)) = true
  /\ tick_hash initial (Some (flat 0)) <> last_name_roi_hash initial
  /\ (OCR_MIN_INTERVAL <= 1000 - LAST_OCR_TIME initial)%Q.
Proof.
  assert (H : dispatched
                (snd (dispatch_step initial (Some (flat 0)) 1000%Q))
              = true) by reflexivity.
  split; [exact H|].
  exact (proj2 (proj1 throttle_dispatch_conditions
                      initial (Some (flat 0)) 1000%Q H)).
Defined.

End ThrottleFacts.

(** ** Facts about the OCR worker loop *)

Module WorkerFacts.

Import Worker.

Section Loop.

Variable Roi : Type.
Variable ocr_item_lines : Roi -> raises (list str).
Variable find_row : str -> option Row.

Lemma handle_task_raised (task : OcrTask Roi) (e : str) :
  try_task ocr_item_lines find_row task = inl e ->
  handle_task ocr_item_lines find_row task = error_result task e.
Proof. unfold handle_task. now intros ->. Qed.

Lemma try_task_primary_raises (task : OcrTask Roi) (roi : Roi) (e : str) :
  roi_primary task = Some roi -> ocr_item_lines roi = inl e ->
  try_task ocr_item_lines find_row task = inl e.
Proof.
  intros Hp He. unfold try_task, lines_of. rewrite Hp, He. reflexivity.
Qed.

Lemma worker_loop_tasks (tasks : list (OcrTask Roi)) :
  forall rest results,
    worker_loop ocr_item_lines find_row
                (map Some tasks ++ None :: rest) results
    = (results ++ map (handle_task ocr_item_lines find_row) tasks,
       rest, true).
Proof.
  induction tasks as [|task tasks IH]; intros rest results; simpl.
  - now rewrite app_nil_r.
  - rewrite IH, <- app_assoc. reflexivity.
Qed.

Lemma worker_loop_waits (tasks : list (OcrTask Roi)) :
  forall results,
    worker_loop ocr_item_lines find_row (map Some tasks) results
    = (results ++ map (handle_task ocr_item_lines find_row) tasks,
       [], false).
Proof.
  induction tasks as [|task tasks IH]; intros results; simpl.
  - now rewrite app_nil_r.
  - rewrite IH, <- app_assoc. reflexivity.
Qed.

(** C8. Whatever tasks precede the sentinel, and whichever of them make
    the engine raise, the worker puts one result per task on the result
    queue, in task order, stops at the sentinel without touching what
    follows it, and has then ended the engine once and dropped it; a task
    whose body raised [e] (as it does when the OCR of the primary crop
    raises [e]) yields the result with [error] set to [e] and neither
    name nor row, with the task's id and panel box. *)
Theorem worker_survives_task_errors :
  (forall (tasks : list (OcrTask Roi)) rest results,
      ocr_db_worker ocr_item_lines find_row
                    (map Some tasks ++ None :: rest) results
      = mkWorker false 1
          (results ++ map (handle_task ocr_item_lines find_row) tasks)
          rest true)
  /\ (forall (task : OcrTask Roi) (e : str),
         try_task ocr_item_lines find_row task = inl e ->
         handle_task ocr_item_lines find_row task
         = mkOcrResult (t_task_id task) None None (t_panel_box task)
                       false (Some e))
  /\ (forall (task : OcrTask Roi) (roi : Roi) (e : str),
         roi_primary task = Some roi -> ocr_item_lines roi = inl e ->
         try_task ocr_item_lines find_row task = inl e).
Proof.
  split; [|split].
  - intros tasks rest results. unfold ocr_db_worker.
    now rewrite worker_loop_tasks.
  - exact handle_task_raised.
  - exact try_task_primary_raises.
Qed.

End Loop.

Lemma worker_survives_task_errors_witness :
  try_task sample_ocr sample_find failing_task
  = inl (lit "engine failure")
  /\ handle_task sample_ocr sample_find failing_task
     = mkOcrResult 1%Z None None (Some (100, 100, 400, 300)%Z) false
                   (Some (lit "engine failure"))
  /\ ocr_db_worker sample_ocr sample_find
                   (map Some sample_tasks ++ [None]) []
     = mkWorker false 1
         (map (handle_task sample_ocr sample_find) sample_tasks) [] true.
Proof.
  assert (H : try_task sample_ocr sample_find failing_task
              = inl (lit "engine failure")) by reflexivity.
  split; [exact H|]. split.
  - exact (proj1 (proj2 (worker_survives_task_errors
                           nat sample_ocr sample_find))
                 failing_task (lit "engine failure") H).
  - exact (proj1 (worker_survives_task_errors nat sample_ocr sample_find)
                 sample_tasks [] []).
Defined.

Example worker_on_sample_tasks :
  ocr_result_queue
    (ocr_db_worker sample_ocr sample_find
                   (map Some sample_tasks ++ [None]) [])
  = [ mkOcrResult 1%Z None None (Some (100, 100, 400, 300)%Z) false
                  (Some (lit "engine failure"));
      mkOcrResult 2%Z (Some (lit "Rope")) (Some sample_row)
                  (Some (100, 100, 400, 300)%Z) false None ].
Proof. reflexivity. Qed.

End WorkerFacts.

(** ** Facts about the placement *)

Module PlacementFacts.

Import Placement.
Local Open Scope Z_scope.

Lemma side_gap_ge_4 (scr : screen) : 4 <= side_gap scr.
Proof. unfold side_gap, min_gap. lia. Qed.

(** With the right anchor fitting and a pointer 1296 pixels to the right of
    the overlay it would hold there, the overlay goes to the left and ends
    at x = 0, over the panel, not at the panel's right edge plus the gap. *)
Lemma right_fits_far_pointer_goes_left :
  let '(x, y, w, h) :=
    show_helper_tooltip hd_screen 200 300 150 300 left_panel false
                        (Some (1900, 1000)) in
  side_gap hd_screen = 4
  /\ 400 + side_gap hd_screen + w <= SCREEN_W hd_screen - margin
  /\ horizontal_distance 1900 (400 + side_gap hd_screen) w = 1296
  /\ x = 0
  /\ x <> 400 + side_gap hd_screen.
Proof. vm_compute. repeat split; congruence. Qed.

(** C9, as the code has it. If the panel's right edge is on the screen and
    the rendered overlay (the single-column image, or the compact one when
    the single-column one does not fit) fits between the right anchor and
    the screen's right margin, the overlay has that image's width and is
    placed as follows.  With no pointer position, or with the pointer
    horizontally at least as far from the overlay at the right anchor as
    from the overlay at the left anchor, x = right edge of the panel + side
    gap, the side gap being the gap of 4 reference pixels scaled to the
    screen width and at least 4.  With the pointer horizontally nearer to
    the overlay at the right anchor, x is the left anchor, left edge of
    the panel - side gap - overlay width, moved into the range from 0 to
    screen width - overlay width. *)
Theorem right_anchor_when_it_fits
        (scr : screen) (test_w test_h compact_w compact_h : Z)
        (gx1 gy1 gx2 gy2 : Z) (used_secondary : bool)
        (mouse : option (Z * Z)) (w : Z) :
  0 <= gx2 ->
  w = (if gx2 + side_gap scr + test_w <=? SCREEN_W scr - margin
       then test_w else compact_w) ->
  gx2 + side_gap scr + w <= SCREEN_W scr - margin ->
  let '(x, _, w', _) :=
    show_helper_tooltip scr test_w test_h compact_w compact_h
                        (gx1, gy1, gx2, gy2) used_secondary mouse in
  w' = w
  /\ (pointer_favours_right scr w (gx1, gy1, gx2, gy2) mouse ->
      x = gx2 + side_gap scr)
  /\ (~ pointer_favours_right scr w (gx1, gy1, gx2, gy2) mouse ->
      x = Z.max 0 (Z.min (SCREEN_W scr - w) (gx1 - side_gap scr - w))).
Proof.
  intros Hgx2 Hw Hfit.
  pose proof (side_gap_ge_4 scr) as Hgap.
  assert (Hfitb : (gx2 + side_gap scr + w <=? SCREEN_W scr - margin) = true)
    by now apply Z.leb_le.
  unfold show_helper_tooltip, pointer_favours_right, local_mouse.
  destruct (gx2 + side_gap scr + test_w <=? SCREEN_W scr - margin) eqn:E1;
    subst w; rewrite Hfitb; unfold margin in *;
    (destruct mouse as [[mx my]|];
     [ destruct (horizontal_distance (mx - MONITOR_LEFT scr)
                                     (gx1 - side_gap scr - _) _
                 <=? horizontal_distance (mx - MONITOR_LEFT scr)
                                         (gx2 + side_gap scr) _) eqn:Ed;
       [ apply Z.leb_le in Ed | apply Z.leb_gt in Ed ]
     | ]);
    cbn [negb andb]; (split; [reflexivity|]); split; intros Hp;
    try lia; try reflexivity; exfalso; apply Hp; exact I.
Qed.

Lemma right_anchor_when_it_fits_witness :
  (0 <= 400)
  /\ 200 = (if 400 + side_gap hd_screen + 200
               <=? SCREEN_W hd_screen - margin then 200 else 150)
  /\ 400 + side_gap hd_screen + 200 <= SCREEN_W hd_screen - margin
  /\ pointer_favours_right hd_screen 200 left_panel (Some (250, 200))
  /\ (let '(x, _, w', _) :=
        show_helper_tooltip hd_screen 200 300 150 300 left_panel false
                            (Some (250, 200)) in
      x = 400 + side_gap hd_screen /\ w' = 200).
Proof.
  assert (H1 : 0 <= 400) by lia.
  assert (H2 : 200 = (if 400 + side_gap hd_screen + 200
                         <=? SCREEN_W hd_screen - margin
                      then 200 else 150)) by reflexivity.
  assert (H3 : 400 + side_gap hd_screen + 200
               <= SCREEN_W hd_screen - margin) by (vm_compute; congruence).
  assert (H4 : pointer_favours_right hd_screen 200 left_panel
                                     (Some (250, 200)))
    by (vm_compute; congruence).
  split; [exact H1|]. split; [exact H2|].
  split; [exact H3|]. split; [exact H4|].
  pose proof (@right_anchor_when_it_fits hd_screen 200 300 150 300
                100 100 400 300 false (Some (250, 200)) 200 H1 H2 H3) as T.
  change (100, 100, 400, 300) with left_panel in T.
  destruct (show_helper_tooltip hd_screen 200 300 150 300
                                left_panel false
                                (Some (250, 200))) as [[[x y] w'] h].
  destruct T as (Tw & Tr & _). split; [exact (Tr H4)|exact Tw].
Defined.

End PlacementFacts.

(** * Further properties *)

(** ** OCR text clean-up *)

Module OcrTextFacts.

Import LookupFacts StrFacts NormalizeFacts OcrText.

Lemma clean_char_I (c : ascii) : Ascii.eqb (clean_char c) "I" = reads_I c.
Proof. each_char c; vm_compute; reflexivity. Qed.

Lemma clean_char_V (c : ascii) : Ascii.eqb (clean_char c) "V" = reads_V c.
Proof. each_char c; vm_compute; reflexivity. Qed.

Lemma reads_I_not_space (c : ascii) : reads_I c = true -> isspace c = false.
Proof. each_char c; vm_compute; trivial; discriminate. Qed.

Lemma reads_I_not_decimal (c : ascii) :
  reads_I c = true -> isdecimal c = false.
Proof. each_char c; vm_compute; trivial; discriminate. Qed.

Lemma str_eqb_cons (c d : ascii) (s t : str) :
  str_eqb (c :: s) (d :: t) = Ascii.eqb c d && str_eqb s t.
Proof.
  destruct (Ascii.eqb c d) eqn:E1; destruct (str_eqb s t) eqn:E2; simpl.
  - apply Ascii.eqb_eq in E1. apply str_eqb_eq in E2. subst.
    apply str_eqb_refl.
  - apply str_eqb_neq. apply str_eqb_neq in E2. congruence.
  - apply str_eqb_neq. apply Ascii.eqb_neq in E1. congruence.
  - apply str_eqb_neq. apply Ascii.eqb_neq in E1. congruence.
Qed.

Lemma last_chars_app (p t : str) : last_chars (List.length t) (p ++ t) = t.
Proof.
  unfold last_chars, len. rewrite length_app.
  replace (List.length p + List.length t - List.length t)
    with (List.length p + 0) by lia.
  rewrite skipn_app, Nat.add_0_r, skipn_all.
  replace (List.length p - List.length p) with 0 by lia. reflexivity.
Qed.

Lemma but_last_app (p t : str) : but_last (List.length t) (p ++ t) = p.
Proof.
  unfold but_last, len. rewrite length_app.
  replace (List.length p + List.length t - List.length t)
    with (List.length p + 0) by lia.
  rewrite firstn_app, Nat.add_0_r, firstn_all.
  replace (List.length p - List.length p) with 0 by lia.
  simpl. apply app_nil_r.
Qed.

Lemma scan_step (name p t roman digit : str) (ps : list (str * str)) :
  List.length t = List.length roman ->
  scan_patterns name (p ++ t) ((roman, digit) :: ps)
  = if str_eqb (map clean_char t) roman then p ++ digit
    else scan_patterns name (p ++ t) ps.
Proof.
  intros H. cbn [scan_patterns]. unfold len at 1 2.
  rewrite length_app.
  assert (L : (List.length p + List.length t <? List.length roman) = false)
    by (apply Nat.ltb_ge; lia).
  rewrite L. unfold len. rewrite <- H.
  rewrite last_chars_app, but_last_app, token_clean_map. reflexivity.
Qed.

(** The loop on a string of at least three characters, spelled out. *)
Lemma scan_three (name p : str) (c3 c2 c1 : ascii) :
  scan_patterns name (p ++ [c3; c2; c1]) patterns
  = if reads_I c2 && reads_V c1 then (p ++ [c3]) ++ lit "4"
    else if reads_I c3 && (reads_I c2 && reads_I c1) then p ++ lit "3"
    else if reads_I c2 && reads_I c1 then (p ++ [c3]) ++ lit "2"
    else if reads_I c1 then (p ++ [c3; c2]) ++ lit "1"
    else name.
Proof.
  unfold patterns.
  replace (p ++ [c3; c2; c1]) with ((p ++ [c3]) ++ [c2; c1])
    by (rewrite <- app_assoc; reflexivity).
  rewrite scan_step by reflexivity.
  change (lit "IV") with ["I"; "V"]%char. cbn [map].
  rewrite !str_eqb_cons, str_eqb_refl, andb_true_r.
  rewrite clean_char_I, clean_char_V.
  destruct (reads_I c2 && reads_V c1); [reflexivity|].
  replace ((p ++ [c3]) ++ [c2; c1]) with (p ++ [c3; c2; c1])
    by (rewrite <- app_assoc; reflexivity).
  rewrite scan_step by reflexivity.
  change (lit "III") with ["I"; "I"; "I"]%char. cbn [map].
  rewrite !str_eqb_cons, str_eqb_refl, andb_true_r.
  rewrite !clean_char_I.
  destruct (reads_I c3 && (reads_I c2 && reads_I c1)); [reflexivity|].
  replace (p ++ [c3; c2; c1]) with ((p ++ [c3]) ++ [c2; c1])
    by (rewrite <- app_assoc; reflexivity).
  rewrite scan_step by reflexivity.
  change (lit "II") with ["I"; "I"]%char. cbn [map].
  rewrite !str_eqb_cons, str_eqb_refl, andb_true_r.
  rewrite !clean_char_I.
  destruct (reads_I c2 && reads_I c1); [reflexivity|].
  replace ((p ++ [c3]) ++ [c2; c1]) with ((p ++ [c3; c2]) ++ [c1])
    by (rewrite <- !app_assoc; reflexivity).
  rewrite scan_step by reflexivity.
  change (lit "I") with ["I"]%char. cbn [map].
  rewrite !str_eqb_cons, str_eqb_refl, andb_true_r.
  rewrite !clean_char_I.
  destruct (reads_I c1); reflexivity.
Qed.

Lemma rstrip_split (name : str) :
  exists w, name = rstrip name ++ w /\ forallb isspace w = true.
Proof.
  destruct (lstrip_split (rev name)) as (w & Hs & Hw).
  exists (rev w). split.
  - unfold rstrip. rewrite <- rev_app_distr, <- Hs, rev_involutive.
    reflexivity.
  - rewrite forallb_forall in *. intros c Hc. apply Hw.
    now apply in_rev.
Qed.

Lemma rstrip_last (name p : str) (c : ascii) :
  rstrip name = p ++ [c] -> isspace c = false.
Proof.
  unfold rstrip. intros H.
  apply (f_equal (@rev ascii)) in H.
  rewrite rev_involutive, rev_app_distr in H. cbn [rev app] in H.
  exact (lstrip_head _ _ _ H).
Qed.

Lemma three_last (s : str) :
  3 <= List.length s -> exists p c3 c2 c1, s = p ++ [c3; c2; c1].
Proof.
  intros H. rewrite <- (rev_involutive s) in *.
  rewrite length_rev in H.
  destruct (rev s) as [|c1 [|c2 [|c3 r]]]; simpl in H; try lia.
  exists (rev r), c3, c2, c1. cbn [rev]. rewrite <- !app_assoc.
  reflexivity.
Qed.

Lemma short_split (s : str) :
  List.length s <= 2 -> List.length (split_ws s) <= 1.
Proof.
  destruct s as [|a [|b [|c s]]]; simpl; try lia; intros _;
    unfold split_ws; simpl.
  - destruct (isspace a); simpl; lia.
  - destruct (isspace a), (isspace b); simpl; lia.
Qed.

(** What [convert_trailing_roman_numeral] returns: the name itself, or the
    right-stripped name with a tail that reads as one of the four numerals
    replaced by its digit. *)
Lemma convert_shape (name : str) :
  (convert_trailing_roman_numeral name = name
   /\ (2 <= List.length (split_ws (rstrip name)) ->
       ends_in_numeral (rstrip name) = false))
  \/ (2 <= List.length (split_ws (rstrip name))
      /\ ends_in_numeral (rstrip name) = true
      /\ exists q t d,
           rstrip name = q ++ t /\ t <> []
           /\ forallb (fun c => negb (isspace c)) t = true
           /\ In (token_clean t, [d]) patterns
           /\ isdecimal d = true
           /\ convert_trailing_roman_numeral name = q ++ [d]).
Proof.
  unfold convert_trailing_roman_numeral.
  destruct name as [|n0 name'] eqn:En.
  { left. split; [reflexivity|]. unfold rstrip, split_ws. simpl. lia. }
  rewrite <- En. clear En n0 name'.
  destruct (rstrip name) as [|s0 s'] eqn:Es.
  { left. split; [reflexivity|]. unfold split_ws. simpl. lia. }
  rewrite <- Es.
  destruct (List.length (split_ws (rstrip name)) <? 2) eqn:E2.
  { left. split; [reflexivity|]. apply Nat.ltb_lt in E2. lia. }
  apply Nat.ltb_ge in E2.
  assert (H3 : 3 <= List.length (rstrip name)).
  { destruct (le_lt_dec (List.length (rstrip name)) 2) as [L|L]; [|lia].
    apply short_split in L. lia. }
  destruct (three_last _ H3) as (p & c3 & c2 & c1 & Hs).
  rewrite Hs. rewrite scan_three.
  unfold ends_in_numeral. rewrite rev_app_distr. cbn [rev app].
  destruct (reads_I c2) eqn:I2; destruct (reads_V c1) eqn:V1;
    cbn [andb orb].
  - (* IV *)
    right. split; [rewrite <- Hs; exact E2|]. split.
    { now rewrite orb_true_r. }
    exists (p ++ [c3]), [c2; c1], "4"%char.
    repeat split.
    + rewrite <- app_assoc. reflexivity.
    + discriminate.
    + cbn [forallb]. rewrite (reads_I_not_space _ I2).
      assert (isspace c1 = false) as ->
          by (revert V1; clear; each_char c1; vm_compute; trivial;
              discriminate).
      reflexivity.
    + rewrite token_clean_map. cbn [map].
      pose proof (clean_char_I c2) as A. rewrite I2 in A.
      pose proof (clean_char_V c1) as B. rewrite V1 in B.
      apply Ascii.eqb_eq in A, B. rewrite A, B. left. reflexivity.
  - (* c2 reads I, c1 does not read V *)
    destruct (reads_I c1) eqn:I1.
    + destruct (reads_I c3) eqn:I3; cbn [andb].
      * right. split; [rewrite <- Hs; exact E2|]. split; [reflexivity|].
        exists p, [c3; c2; c1], "3"%char.
        repeat split.
        -- discriminate.
        -- cbn [forallb].
           now rewrite (reads_I_not_space _ I3), (reads_I_not_space _ I2),
             (reads_I_not_space _ I1).
        -- rewrite token_clean_map. cbn [map].
           pose proof (clean_char_I c3) as A. rewrite I3 in A.
           pose proof (clean_char_I c2) as B. rewrite I2 in B.
           pose proof (clean_char_I c1) as C. rewrite I1 in C.
           apply Ascii.eqb_eq in A, B, C. rewrite A, B, C.
           right. left. reflexivity.
      * right. split; [rewrite <- Hs; exact E2|]. split; [reflexivity|].
        exists (p ++ [c3]), [c2; c1], "2"%char.
        repeat split.
        -- rewrite <- app_assoc. reflexivity.
        -- discriminate.
        -- cbn [forallb].
           now rewrite (reads_I_not_space _ I2), (reads_I_not_space _ I1).
        -- rewrite token_clean_map. cbn [map].
           pose proof (clean_char_I c2) as B. rewrite I2 in B.
           pose proof (clean_char_I c1) as C. rewrite I1 in C.
           apply Ascii.eqb_eq in B, C. rewrite B, C.
           right. right. left. reflexivity.
    + rewrite andb_false_r. cbn [andb].
      left. split; [reflexivity|]. intros _. reflexivity.
  - (* c2 does not read I, c1 reads V *)
    assert (I1 : reads_I c1 = false)
      by (revert V1; clear; each_char c1; vm_compute; trivial;
          discriminate).
    rewrite I1, andb_false_r. cbn [andb orb].
    left. split; [reflexivity|]. intros _. reflexivity.
  - destruct (reads_I c1) eqn:I1; rewrite ?andb_false_r; cbn [andb orb].
    + right. split; [rewrite <- Hs; exact E2|]. split; [reflexivity|].
      exists (p ++ [c3; c2]), [c1], "1"%char.
      repeat split.
      * rewrite <- app_assoc. reflexivity.
      * discriminate.
      * cbn [forallb]. now rewrite (reads_I_not_space _ I1).
      * rewrite token_clean_map. cbn [map].
        pose proof (clean_char_I c1) as C. rewrite I1 in C.
        apply Ascii.eqb_eq in C. rewrite C.
        right. right. right. left. reflexivity.
    + left. split; [reflexivity|]. intros _. reflexivity.
Qed.

(** A rewritten name differs from the name. *)
Lemma rewritten_differs (name q t : str) (d : ascii) :
  rstrip name = q ++ t -> t <> [] ->
  In (token_clean t, [d]) patterns ->
  q ++ [d] <> name.
Proof.
  intros Hs Ht Hin E.
  destruct (rstrip_split name) as (w & Hn & Hw).
  rewrite Hs in Hn. rewrite <- E in Hn.
  rewrite <- app_assoc in Hn. apply app_inv_head in Hn.
  destruct t as [|t0 t']; [congruence|].
  cbn [app] in Hn. injection Hn as Hd Hr.
  destruct t' as [|t1 t'']; [|discriminate].
  subst t0. rewrite token_clean_map in Hin. cbn [map] in Hin.
  unfold patterns in Hin. cbn [In] in Hin.
  destruct Hin as [H|[H|[H|[H|[]]]]]; try discriminate.
  injection H as H1 H2. subst d. discriminate.
Qed.

(** X1: a name of characters with code points 0 to 255 is rewritten
    exactly when it has two words or more and its last non-blank character
    reads as I (one of I, i, L, l and the bar) or its last two read as IV;
    no word boundary before the numeral is asked for.  A rewritten name is
    the right-stripped name with a tail that reads as IV, III, II or I
    replaced by the digit of that numeral. *)
Theorem trailing_numeral_rewritten_iff (name : str) :
  (convert_trailing_roman_numeral name <> name
   <-> 2 <= List.length (split_ws (rstrip name))
       /\ ends_in_numeral (rstrip name) = true)
  /\ (convert_trailing_roman_numeral name <> name ->
      exists q t d,
        rstrip name = q ++ t /\ t <> []
        /\ In (token_clean t, [d]) patterns
        /\ convert_trailing_roman_numeral name = q ++ [d]).
Proof.
  destruct (convert_shape name)
    as [[E N]|(T & M & q & t & d & Hs & Ht & Hw & Hin & Hd & E)].
  - split.
    + split; [congruence|]. intros [T M]. rewrite (N T) in M.
      discriminate.
    + congruence.
  - split.
    + split; [intros _; split; assumption|]. intros _. rewrite E.
      exact (rewritten_differs name q t d Hs Ht Hin).
    + intros _. exists q, t, d. repeat split; assumption.
Qed.

(** *** The lines [ocr_item_lines] returns *)

Lemma split_aux_tokens (s : str) :
  forall cur, no_space cur ->
    forall t, In t (split_aux cur s) -> t <> [] /\ no_space t.
Proof.
  induction s as [|c s IH]; intros cur Hc t Ht; simpl in Ht.
  - destruct cur; [destruct Ht|]. destruct Ht as [<-|[]].
    split; [discriminate|exact Hc].
  - destruct (isspace c) eqn:E.
    + destruct cur as [|c0 cur'].
      * apply (IH [] ); [intros ? []|exact Ht].
      * destruct Ht as [<-|Ht].
        -- split; [discriminate|exact Hc].
        -- apply (IH []); [intros ? []|exact Ht].
    + apply (IH (cur ++ [c])); [|exact Ht].
      intros x Hx. apply in_app_or in Hx. destruct Hx as [Hx|[<-|[]]].
      * now apply Hc.
      * exact E.
Qed.

Lemma tidy_intro (l : str) :
  (exists c r, l = c :: r /\ isspace c = false) ->
  (exists p c, l = p ++ [c] /\ isspace c = false) ->
  (forall c, In c l -> isspace c = true -> c = " "%char) ->
  tidy l.
Proof.
  intros (c & r & Hl & Hc) (p & d & Hl' & Hd) Hs.
  split; [subst; discriminate|]. split; [|exact Hs].
  apply trimmed_intro.
  - intros c' r' E. rewrite Hl in E. injection E as <- _. exact Hc.
  - intros p' c' E. rewrite Hl' in E.
    apply app_inj_tail in E. destruct E as [_ <-]. exact Hd.
Qed.

Lemma tidy_head (l : str) :
  tidy l -> exists c r, l = c :: r /\ isspace c = false.
Proof.
  intros (Hn & Ht & _). destruct l as [|c r]; [congruence|].
  exists c, r. split; [reflexivity|]. exact (trimmed_head _ _ Ht).
Qed.

Lemma tidy_last (l : str) :
  tidy l -> exists p c, l = p ++ [c] /\ isspace c = false.
Proof.
  intros (Hn & Ht & _).
  destruct (exists_last Hn) as (p & c & E).
  exists p, c. split; [exact E|]. rewrite E in Ht.
  exact (trimmed_last _ _ Ht).
Qed.

Lemma join_space_tidy (tokens : list str) :
  (forall t, In t tokens -> t <> [] /\ no_space t) ->
  tokens <> [] -> tidy (join_space tokens).
Proof.
  induction tokens as [|t rest IH]; intros Hall Hne; [congruence|].
  destruct (Hall t (or_introl eq_refl)) as [Htn Hts].
  cbn [join_space]. destruct rest as [|t' rest'].
  - destruct t as [|c r]; [congruence|].
    apply tidy_intro.
    + exists c, r. split; [reflexivity|]. apply Hts. now left.
    + destruct (@exists_last _ (c :: r) ltac:(discriminate))
        as (p & d & E).
      exists p, d. split; [exact E|]. apply Hts. rewrite E.
      apply in_or_app. right. now left.
    + intros x Hx Hsp. rewrite (Hts x Hx) in Hsp. discriminate.
  - assert (IH' : tidy (join_space (t' :: rest'))).
    { apply IH; [|discriminate]. intros x Hx. apply Hall. now right. }
    destruct t as [|c r]; [congruence|].
    apply tidy_intro.
    + exists c, (r ++ " "%char :: join_space (t' :: rest')).
      split; [reflexivity|]. apply Hts. now left.
    + destruct (tidy_last _ IH') as (p & d & E & Hd).
      exists ((c :: r) ++ " "%char :: p), d. split; [|exact Hd].
      rewrite E. rewrite <- app_assoc. reflexivity.
    + intros x Hx Hsp. apply in_app_or in Hx.
      destruct Hx as [Hx|[Hx|Hx]].
      * rewrite (Hts x Hx) in Hsp. discriminate.
      * now subst x.
      * destruct IH' as (_ & _ & Hs). exact (Hs x Hx Hsp).
Qed.

Lemma decimal_not_blank (d : ascii) : isdecimal d = true -> isspace d = false.
Proof. exact (decimal_not_space d). Qed.

Lemma convert_tidy (line : str) :
  tidy line -> tidy (convert_trailing_roman_numeral line).
Proof.
  intros Ht.
  destruct (convert_shape line)
    as [[E _]|(_ & _ & q & t & d & Hs & Htn & Hw & Hin & Hd & E)].
  - now rewrite E.
  - rewrite E.
    assert (Hr : rstrip line = line).
    { destruct Ht as (_ & [_ H2] & _). unfold rstrip.
      now rewrite H2, rev_involutive. }
    rewrite Hr in Hs.
    apply tidy_intro.
    + destruct q as [|c q'].
      * exists d, []. split; [reflexivity|].
        exact (decimal_not_blank d Hd).
      * exists c, (q' ++ [d]). split; [reflexivity|].
        destruct (tidy_head _ Ht) as (c' & r' & El & Hc).
        rewrite Hs in El. injection El as -> _. exact Hc.
    + exists q, d. split; [reflexivity|]. exact (decimal_not_blank d Hd).
    + intros x Hx Hsp. apply in_app_or in Hx.
      destruct Hx as [Hx|[<-|[]]].
      * destruct Ht as (_ & _ & Hall). apply Hall; [|exact Hsp].
        rewrite Hs. apply in_or_app. now left.
      * rewrite (decimal_not_blank _ Hd) in Hsp. discriminate.
Qed.

Lemma clean_lines_tidy (raw_lines : list str) (line : str) :
  In line (clean_lines raw_lines) -> tidy line.
Proof.
  induction raw_lines as [|raw rest IH]; simpl; [intros []|].
  destruct (join_space (split_ws raw)) as [|c r] eqn:E; [exact IH|].
  intros [<-|H]; [|exact (IH H)].
  apply convert_tidy. rewrite <- E.
  apply join_space_tidy.
  - intros t Ht. apply (split_aux_tokens raw [] ); [intros ? []|exact Ht].
  - intros N. rewrite N in E. discriminate.
Qed.

Lemma ocr_item_lines_tidy (Roi : Type) (text_lines : Roi -> list str)
      (name_roi_bgr : option Roi) (line : str) :
  In line (ocr_item_lines text_lines name_roi_bgr) -> tidy line.
Proof.
  destruct name_roi_bgr as [roi|]; simpl; [|intros []].
  exact (clean_lines_tidy (text_lines roi) line).
Qed.

(** X2: every line [ocr_item_lines] returns is non-empty, has no whitespace
    at either end, and holds no whitespace character but the plain space,
    whatever text the engine read. *)
Theorem ocr_lines_are_tidy (Roi : Type) (text_lines : Roi -> list str)
        (name_roi_bgr : option Roi) (line : str) :
  In line (ocr_item_lines text_lines name_roi_bgr) ->
  line <> [] /\ trimmed line
  /\ forall c, In c line -> isspace c = true -> c = " "%char.
Proof.
  destruct name_roi_bgr as [roi|]; simpl; [|intros []].
  intros H. exact (clean_lines_tidy (text_lines roi) line H).
Qed.

(** The engine reads two lines off the crop, the second one blank; the
    first comes back as "Power Ce2". *)
Lemma ocr_lines_are_tidy_witness :
  let text_lines := fun _ : unit => [lit "  Power   Cell "; lit "   "] in
  In (lit "Power Ce2") (ocr_item_lines text_lines (Some tt))
  /\ lit "Power Ce2" <> [] /\ trimmed (lit "Power Ce2")
  /\ forall c, In c (lit "Power Ce2") -> isspace c = true -> c = " "%char.
Proof.
  intros text_lines.
  assert (H : In (lit "Power Ce2") (ocr_item_lines text_lines (Some tt)))
    by (vm_compute; left; reflexivity).
  split; [exact H|].
  exact (ocr_lines_are_tidy unit text_lines (Some tt) (lit "Power Ce2") H).
Defined.

(** *** [ocr_item_name] *)

Section Name.

Variable Roi : Type.
Variable text_lines : Roi -> list str.
Variable find_row : str -> option Row.

Lemma first_found_spec (l : list str) :
  match first_found find_row l with
  | Some ln =>
      exists pre post, l = pre ++ ln :: post
                       /\ (forall x, In x pre -> find_row x = None)
                       /\ find_row ln <> None
  | None => forall x, In x l -> find_row x = None
  end.
Proof.
  induction l as [|a l IH]; simpl; [intros ? []|].
  destruct (find_row a) eqn:E.
  - exists [], l. repeat split; [intros ? []|congruence].
  - destruct (first_found find_row l) as [ln|].
    + destruct IH as (pre & post & -> & Hp & Hl).
      exists (a :: pre), post. repeat split; [|exact Hl].
      intros x [<-|Hx]; [exact E|exact (Hp x Hx)].
    + intros x [<-|Hx]; [exact E|exact (IH x Hx)].
Qed.

Lemma first_found_unique (pre post : list str) (ln : str) :
  (forall x, In x pre -> find_row x = None) ->
  find_row ln <> None ->
  first_found find_row (pre ++ ln :: post) = Some ln.
Proof.
  induction pre as [|a pre IH]; intros Hp Hl; simpl.
  - destruct (find_row ln); [reflexivity|congruence].
  - rewrite (Hp a (or_introl eq_refl)). apply IH; [|exact Hl].
    intros x Hx. apply Hp. now right.
Qed.

Lemma longest_spec (l : list str) :
  forall best,
    In (longest best l) (best :: l)
    /\ forall x, In x (best :: l) -> len x <= len (longest best l).
Proof.
  induction l as [|a l IH]; intros best; simpl.
  - split; [now left|]. intros x [<-|[]]. lia.
  - destruct (IH (if len best <? len a then a else best)) as [H1 H2].
    split.
    + destruct H1 as [H1|H1]; [|now right; right].
      rewrite <- H1. destruct (len best <? len a); [right|]; now left.
    + intros x Hx.
      assert (A : len x <= len (if len best <? len a then a else best)
                  \/ In x l).
      { destruct Hx as [Hx|[Hx|Hx]]; [| |now right]; left; subst x.
        - destruct (len best <? len a) eqn:E; [|lia].
          apply Nat.ltb_lt in E. lia.
        - destruct (len best <? len a) eqn:E; [lia|].
          apply Nat.ltb_ge in E. lia. }
      destruct A as [A|A].
      * specialize (H2 _ (or_introl eq_refl)). lia.
      * apply H2. now right.
Qed.

(** X3: [ocr_item_name] returns the empty string exactly when the engine
    read no line; otherwise it returns one of the lines: the first one that
    resolves in the table if any does, and else a line that no other line
    exceeds in length. *)
Theorem ocr_item_name_choice (name_roi_bgr : option Roi) :
  let candidates := ocr_item_lines text_lines name_roi_bgr in
  let name := ocr_item_name text_lines find_row name_roi_bgr in
  (name = [] <-> candidates = [])
  /\ (candidates <> [] -> In name candidates)
  /\ (forall pre ln post,
         candidates = pre ++ ln :: post ->
         (forall x, In x pre -> find_row x = None) ->
         find_row ln <> None -> name = ln)
  /\ ((forall x, In x candidates -> find_row x = None) ->
      forall x, In x candidates -> len x <= len name).
Proof.
  intros candidates name.
  assert (Hall : forall x, In x candidates -> x <> []).
  { intros x Hx.
    exact (proj1 (ocr_item_lines_tidy Roi text_lines name_roi_bgr x Hx)). }
  subst name. unfold ocr_item_name. fold candidates.
  destruct candidates as [|c rest] eqn:Ec.
  { repeat split; try congruence.
    - intros pre ln post E. destruct pre; discriminate.
    - intros _ x []. }
  pose proof (first_found_spec (c :: rest)) as S.
  destruct (first_found find_row (c :: rest)) as [ln|] eqn:F.
  - destruct S as (pre & post & E & Hp & Hl).
    assert (Hin : In ln (c :: rest))
      by (rewrite E; apply in_or_app; right; now left).
    repeat split.
    + intros N. exfalso. apply (Hall ln Hin). exact N.
    + discriminate.
    + intros _. exact Hin.
    + intros pre' ln' post' E' Hp' Hl'.
      rewrite E' in F. rewrite (first_found_unique _ _ _ Hp' Hl') in F.
      congruence.
    + intros Hnone. exfalso. apply Hl. exact (Hnone ln Hin).
  - destruct (longest_spec rest c) as [L1 L2].
    repeat split.
    + intros N. exfalso. apply (Hall _ L1). exact N.
    + discriminate.
    + intros _. exact L1.
    + intros pre' ln' post' E' Hp' Hl'. exfalso. apply Hl'. apply S.
      rewrite E'. apply in_or_app. right. now left.
    + intros _ x Hx. exact (L2 x Hx).
Qed.

End Name.

End OcrTextFacts.

(** ** Verdict overrides *)

Module VerdictFacts.

Import LookupFacts StrFacts Verdicts.
Local Open Scope Z_scope.

Lemma dict_set_set (V : Type) (d : dict V) (k : str) (v v' : V) :
  dict_set (dict_set d k v) k v' = dict_set d k v'.
Proof.
  induction d as [|[k0 v0] d IH]; simpl.
  - rewrite str_eqb_refl. reflexivity.
  - destruct (str_eqb k k0) eqn:E; simpl; rewrite E; [reflexivity|].
    now rewrite IH.
Qed.

(** Setting a key to the value it has changes nothing. *)
Lemma dict_set_same (V : Type) (d : dict V) (k : str) (v : V) :
  dict_get d k = Some v -> dict_set d k v = d.
Proof.
  induction d as [|[k0 v0] d IH]; simpl; [discriminate|].
  destruct (str_eqb k k0) eqn:E.
  - intros H. injection H as ->. reflexivity.
  - intros H. now rewrite IH.
Qed.

Lemma turn_member (direction : Z) (v : str) :
  In (turn direction v) VERDICT_CYCLE.
Proof.
  unfold turn.
  assert (B : (index_of v VERDICT_CYCLE <= 3)%nat).
  { unfold VERDICT_CYCLE. simpl.
    repeat match goal with |- context [str_eqb ?a ?b] =>
                             destruct (str_eqb a b) end; lia. }
  set (i := index_of v VERDICT_CYCLE) in *.
  assert (C : (i = 0 \/ i = 1 \/ i = 2 \/ i = 3)%nat) by lia.
  destruct (0 <=? direction);
    destruct C as [->|[->|[->| ->]]]; vm_compute; tauto.
Qed.

Lemma member_cases (v : str) :
  In v VERDICT_CYCLE ->
  v = lit "KEEP" \/ v = lit "RECYCLE" \/ v = lit "SELL".
Proof.
  unfold VERDICT_CYCLE. simpl. intuition congruence.
Qed.

Section Upper.

Variable str_upper : str -> str.

(** A press on a row that has a name writes the override of that name. *)
Lemma press_writes (shown : Row) (direction : Z) (st : verdict_state) :
  row_get shown "Name" [] <> [] ->
  exists v,
    In v VERDICT_CYCLE
    /\ cycle_verdict_for_current_item str_upper (Some shown) direction st
       = mkVerdicts
           (dict_set (USER_VERDICTS st) (row_get shown "Name" []) v) true.
Proof.
  intros Hn. unfold cycle_verdict_for_current_item.
  destruct (row_get shown "Name" []) as [|c n] eqn:E; [congruence|].
  eexists. split; [|reflexivity].
  match goal with
  | |- In (nth (Z.to_nat (if _ then (Z.of_nat (index_of ?cur _) + 1) mod _
                          else _)) _ _) _ =>
      exact (turn_member direction cur)
  end.
Qed.

(** A press when the override of the name is a verdict of the cycle. *)
Lemma press_on_member (shown : Row) (direction : Z) (d : dict str)
      (b : bool) (v : str) :
  row_get shown "Name" [] <> [] ->
  In v VERDICT_CYCLE ->
  dict_get d (row_get shown "Name" []) = Some v ->
  cycle_verdict_for_current_item str_upper (Some shown) direction
                                 (mkVerdicts d b)
  = mkVerdicts (dict_set d (row_get shown "Name" []) (turn direction v))
               true.
Proof.
  intros Hn Hv Hd. unfold cycle_verdict_for_current_item.
  destruct (row_get shown "Name" []) as [|c n] eqn:E; [congruence|].
  cbn [USER_VERDICTS]. rewrite Hd.
  destruct (member_cases v Hv) as [->|[->| ->]]; reflexivity.
Qed.

Lemma turn_back (df db : Z) (v : str) :
  0 <= df -> db < 0 -> In v VERDICT_CYCLE ->
  turn db (turn df v) = v /\ turn df (turn db v) = v
  /\ turn df (turn df (turn df v)) = v.
Proof.
  intros Hf Hb Hv. unfold turn.
  assert (F : (0 <=? df) = true) by (apply Z.leb_le; lia).
  assert (B : (0 <=? db) = false) by (apply Z.leb_gt; lia).
  rewrite F, B.
  destruct (member_cases v Hv) as [->|[->| ->]]; vm_compute; tauto.
Qed.

(** X4: once a press has been made on the shown row, a forward press
    followed by a backward press, a backward press followed by a forward
    press, and three forward presses each bring the overrides (and the
    refresh flag) back to what they were: the verdicts form a cycle of
    three, and a press rewrites the one entry of the row's name in
    place. *)
Theorem presses_cycle_with_period_three (LAST_SHOWN_ROW : option Row)
        (d0 df db : Z) (st : verdict_state) :
  0 <= df -> db < 0 ->
  let press := cycle_verdict_for_current_item str_upper LAST_SHOWN_ROW in
  let st1 := press d0 st in
  press db (press df st1) = st1
  /\ press df (press db st1) = st1
  /\ press df (press df (press df st1)) = st1.
Proof.
  intros Hf Hb press st1. subst press st1.
  destruct LAST_SHOWN_ROW as [shown|]; [|repeat split].
  destruct (list_eq_dec ascii_dec (row_get shown "Name" []) [])
    as [E|Hn].
  { unfold cycle_verdict_for_current_item. rewrite E. repeat split. }
  destruct (press_writes shown d0 st Hn) as (v & Hv & ->).
  set (name := row_get shown "Name" []) in *.
  set (d := USER_VERDICTS st).
  assert (G : forall u, dict_get (dict_set d name u) name = Some u).
  { intros u. rewrite dict_get_set, str_eqb_refl. reflexivity. }
  destruct (turn_back df db v Hf Hb Hv) as (T1 & T2 & T3).
  repeat split.
  - rewrite (press_on_member shown df _ _ v Hn Hv (G v)).
    fold name. rewrite dict_set_set.
    rewrite (press_on_member shown db _ _ _ Hn (turn_member df v)
                             (G _)).
    fold name. now rewrite dict_set_set, T1.
  - rewrite (press_on_member shown db _ _ v Hn Hv (G v)).
    fold name. rewrite dict_set_set.
    rewrite (press_on_member shown df _ _ _ Hn (turn_member db v)
                             (G _)).
    fold name. now rewrite dict_set_set, T2.
  - rewrite (press_on_member shown df _ _ v Hn Hv (G v)).
    fold name. rewrite dict_set_set.
    rewrite (press_on_member shown df _ _ _ Hn (turn_member df v)
                             (G _)).
    fold name. rewrite dict_set_set.
    rewrite (press_on_member shown df _ _ _ Hn
                             (turn_member df (turn df v)) (G _)).
    fold name. now rewrite dict_set_set, T3.
Qed.

(** X5: a press on a shown row with a name stores a verdict of
    [VERDICT_CYCLE] under that name, leaves the override of every other
    name as it was and raises the refresh flag; without a shown row, or
    with a row that has no name, it changes nothing. *)
Theorem press_stores_cycle_verdict (LAST_SHOWN_ROW : option Row)
        (direction : Z) (st : verdict_state) :
  let st' :=
    cycle_verdict_for_current_item str_upper LAST_SHOWN_ROW direction st in
  match LAST_SHOWN_ROW with
  | None => st' = st
  | Some shown =>
      let name := row_get shown "Name" [] in
      if str_eqb name [] then st' = st
      else (exists v, In v VERDICT_CYCLE
                      /\ dict_get (USER_VERDICTS st') name = Some v)
           /\ (forall k, k <> name ->
                         dict_get (USER_VERDICTS st') k
                         = dict_get (USER_VERDICTS st) k)
           /\ TOOLTIP_NEEDS_REFRESH st' = true
  end.
Proof.
  intros st'. subst st'.
  destruct LAST_SHOWN_ROW as [shown|]; [|reflexivity].
  cbv zeta.
  destruct (str_eqb (row_get shown "Name" []) []) eqn:E.
  - apply str_eqb_eq in E. unfold cycle_verdict_for_current_item.
    now rewrite E.
  - apply str_eqb_neq in E.
    destruct (press_writes shown direction st E) as (v & Hv & ->).
    cbn [USER_VERDICTS TOOLTIP_NEEDS_REFRESH].
    repeat split.
    + exists v. split; [exact Hv|].
      rewrite dict_get_set, str_eqb_refl. reflexivity.
    + intros k Hk. rewrite dict_get_set.
      apply str_eqb_neq in Hk. now rewrite Hk.
Qed.

Hypothesis upper_fixes_cycle :
  forall v, In v VERDICT_CYCLE -> str_upper v = v.

(** X6: after a press on a shown row whose name carries no whitespace at
    either end, [get_effective_verdict] of that row is the verdict the
    press stored, whatever name was detected.  (The press files the
    override under the name as the row has it, the lookup under the
    stripped name.) *)
Theorem pressed_verdict_is_effective (shown : Row) (direction : Z)
        (st : verdict_state) (detected_name : option str) :
  row_get shown "Name" [] <> [] ->
  strip (row_get shown "Name" []) = row_get shown "Name" [] ->
  let st' :=
    cycle_verdict_for_current_item str_upper (Some shown) direction st in
  In (get_effective_verdict str_upper (USER_VERDICTS st') (Some shown)
                            detected_name)
     VERDICT_CYCLE
  /\ dict_get (USER_VERDICTS st') (row_get shown "Name" [])
     = Some (get_effective_verdict str_upper (USER_VERDICTS st')
                                   (Some shown) detected_name).
Proof.
  intros Hn Hs st'. subst st'.
  destruct (press_writes shown direction st Hn) as (v & Hv & ->).
  cbn [USER_VERDICTS].
  assert (E : get_effective_verdict
                str_upper
                (dict_set (USER_VERDICTS st) (row_get shown "Name" []) v)
                (Some shown) detected_name = v).
  { unfold get_effective_verdict.
    destruct shown as [|col r]; [simpl in Hn; congruence|].
    rewrite Hs.
    destruct (row_get (col :: r) "Name" []) as [|c n] eqn:En;
      [congruence|].
    rewrite dict_get_set, str_eqb_refl.
    destruct (member_cases v Hv) as [->|[->| ->]];
      cbn [or_else lit list_ascii_of_string];
      rewrite upper_fixes_cycle by (vm_compute; tauto); reflexivity. }
  rewrite E. split; [exact Hv|].
  rewrite dict_get_set, str_eqb_refl. reflexivity.
Qed.

End Upper.

Lemma upper_fixes_cycle_words (v : str) :
  In v VERDICT_CYCLE -> upper v = v.
Proof.
  intros H. destruct (member_cases v H) as [->|[->| ->]]; reflexivity.
Qed.

(** A row "Rope" with the verdict SELL and no override: the first press
    stores KEEP; a forward and a backward press from there return to it. *)
Lemma presses_cycle_with_period_three_witness :
  let shown := [("Name"%string, lit "Rope"); ("Verdict"%string, lit "sell")] in
  let press := cycle_verdict_for_current_item upper (Some shown) in
  let st1 := press 1 (mkVerdicts [] false) in
  st1 = mkVerdicts [(lit "Rope", lit "KEEP")] true
  /\ press (-1) (press 1 st1) = st1
  /\ press 1 (press (-1) st1) = st1
  /\ press 1 (press 1 (press 1 st1)) = st1.
Proof.
  intros shown press st1. split; [reflexivity|].
  exact (presses_cycle_with_period_three
           upper (Some shown) 1 1 (-1) (mkVerdicts [] false)
           ltac:(lia) ltac:(lia)).
Defined.

Lemma pressed_verdict_is_effective_witness :
  let shown := [("Name"%string, lit "Rope"); ("Verdict"%string, lit "sell")] in
  let st' :=
    cycle_verdict_for_current_item upper (Some shown) 1
                                   (mkVerdicts [] false) in
  In (get_effective_verdict upper (USER_VERDICTS st') (Some shown) None)
     VERDICT_CYCLE
  /\ dict_get (USER_VERDICTS st') (lit "Rope")
     = Some (get_effective_verdict upper (USER_VERDICTS st') (Some shown)
                                   None).
Proof.
  intros shown st'.
  exact (pressed_verdict_is_effective
           upper upper_fixes_cycle_words shown 1 (mkVerdicts [] false) None
           ltac:(discriminate) ltac:(reflexivity)).
Defined.

End VerdictFacts.

(** ** Keys and the exact stage of the resolver *)

Module KeyFacts.

Import LookupFacts StrFacts RegexFacts NormalizeFacts ResolveOrder.

Lemma collapse_aux_chars (x : str) :
  forall b c, In c (collapse_aux b x) -> c = " "%char \/ In c x.
Proof.
  induction x as [|a x IH]; intros b c; simpl; [intros []|].
  destruct (isspace a).
  - destruct b; simpl.
    + intros H. destruct (IH _ _ H); auto.
    + intros [<-|H]; [now left|]. destruct (IH _ _ H); auto.
  - intros [<-|H]; [now right; left|]. destruct (IH _ _ H); auto.
Qed.

Lemma lower_fold_char (t : list (ascii * ascii)) (c : ascii) :
  t = trans_short \/ t = trans_long ->
  lower_char (fold_char t c) = fold_char t c.
Proof. intros [-> | ->]; each_char c; reflexivity. Qed.

Lemma normalize_strip (s : str) :
  normalize_name_for_match (strip s) = normalize_name_for_match s.
Proof.
  unfold normalize_name_for_match.
  now rewrite (trimmed_strip _ (strip_trimmed s)).
Qed.

Lemma normalize_blank (s : str) :
  strip s = [] -> normalize_name_for_match s = [].
Proof. unfold normalize_name_for_match. now intros ->. Qed.

(** X7: a normalized key is canonical: it has no whitespace at either end,
    collapsing its whitespace or lower-casing it again changes nothing, and
    it is empty exactly when the name is blank. *)
Theorem normalized_key_is_canonical (s : str) :
  trimmed (normalize_name_for_match s)
  /\ collapse_ws (normalize_name_for_match s) = normalize_name_for_match s
  /\ lower (normalize_name_for_match s) = normalize_name_for_match s
  /\ (normalize_name_for_match s = [] <-> strip s = []).
Proof.
  pose proof (convert_trimmed _ (strip_trimmed s)) as Ht.
  pose proof (table_for_cases (convert_numeral (strip s))) as Hc.
  rewrite normalize_shape. repeat split.
  - exact (proj1 (folded_trimmed _ _ Ht Hc)).
  - exact (proj2 (folded_trimmed _ _ Ht Hc)).
  - unfold collapse_ws. apply collapse_aux_idem.
  - unfold lower.
    rewrite <- (map_id (collapse_ws _)) at 2.
    apply map_ext_in. intros c Hin.
    destruct (collapse_aux_chars _ _ _ Hin) as [->|H]; [reflexivity|].
    apply in_map_iff in H. destruct H as (c0 & <- & _).
    exact (lower_fold_char _ c0 Hc).
  - intros E. destruct (strip s) as [|c r] eqn:Es; [reflexivity|].
    exfalso. apply (normalize_nonempty s); [rewrite Es; discriminate|].
    rewrite normalize_shape, Es. exact E.
  - intros E. rewrite <- normalize_shape. exact (normalize_blank s E).
Qed.

Lemma find_has (A : Type) (p : A -> bool) (l : list A) (x : A) :
  In x l -> p x = true -> exists y, find p l = Some y /\ p y = true.
Proof.
  intros Hin Hp. destruct (find p l) as [y|] eqn:E.
  - exists y. split; [reflexivity|]. exact (proj2 (find_some _ _ E)).
  - rewrite (find_none _ _ E x Hin) in Hp. discriminate.
Qed.

(** X8: the name of a row of the table, looked up as it stands in the
    table, is resolved by the exact stage, whatever the similarity measure:
    the resolver returns the last row of the table that has the same key,
    which need not be the row itself. *)
Theorem table_names_resolve_exactly
        (ratio quick_ratio real_quick_ratio : str -> str -> Q)
        (rows : list Row) (row : Row) (k : str) :
  In row rows -> row_key row = Some k ->
  find_item_row_by_name ratio quick_ratio real_quick_ratio
                        (fst (build_item_lookup rows))
                        (row_get row "Name" [])
  = last_such (has_key k) rows
  /\ exists r, last_such (has_key k) rows = Some r /\ row_key r = Some k.
Proof.
  intros Hin Hk.
  assert (Hhas : has_key k row = true)
    by (unfold has_key; rewrite Hk; apply str_eqb_refl).
  destruct (find_has _ (has_key k) (rev rows) row
                     (proj1 (in_rev _ _) Hin) Hhas) as (r & Hr & Hkr).
  fold (last_such (has_key k) rows) in Hr.
  assert (Hlook : dict_get (fst (build_item_lookup rows)) k = Some r).
  { unfold build_item_lookup. rewrite build_loop_lookup. now rewrite Hr. }
  split.
  - unfold row_key in Hk.
    destruct (strip (row_get row "Name" [])) as [|c n] eqn:Es;
      [discriminate|].
    injection Hk as Hk. rewrite <- Es, normalize_strip in Hk.
    unfold find_item_row_by_name.
    destruct (row_get row "Name" []) as [|c0 n0] eqn:En;
      [discriminate|].
    destruct (fst (build_item_lookup rows)) as [|e d] eqn:Ed;
      [discriminate|].
    rewrite Hk, Hlook. symmetry. exact Hr.
  - exists r. split; [exact Hr|].
    unfold has_key in Hkr. destruct (row_key r) as [k'|]; [|discriminate].
    apply str_eqb_eq in Hkr. now subst k'.
Qed.

(** In [colliding_rows] the name "Mag II" resolves to the row "MAG 2". *)
Lemma table_names_resolve_exactly_witness :
  In (nth 0 colliding_rows []) colliding_rows
  /\ row_key (nth 0 colliding_rows []) = Some (lit "mag 2")
  /\ find_item_row_by_name Difflib.ratio Difflib.quick_ratio
                           Difflib.real_quick_ratio
                           (fst (build_item_lookup colliding_rows))
                           (lit "Mag II")
     = Some (nth 1 colliding_rows []).
Proof.
  assert (H1 : In (nth 0 colliding_rows []) colliding_rows)
    by (left; reflexivity).
  assert (H2 : row_key (nth 0 colliding_rows []) = Some (lit "mag 2"))
    by reflexivity.
  split; [exact H1|]. split; [exact H2|].
  exact (proj1 (table_names_resolve_exactly
                  Difflib.ratio Difflib.quick_ratio
                  Difflib.real_quick_ratio
                  colliding_rows (nth 0 colliding_rows []) (lit "mag 2")
                  H1 H2)).
Defined.

End KeyFacts.

(** ** More on the result drain *)

Module DrainMore.

Import Drain DrainFacts.
Local Open Scope Z_scope.

(** X9: after a drain, [latest_result_id] is the greatest of its old value
    and the task ids of all dequeued results, applied or not, whether the
    tooltip is active or not. *)
Theorem drain_latest_is_running_max (active : bool)
        (queue : list OcrResult) (st : loop_state) :
  latest_result_id (fst (drain active st queue))
  = fold_left Z.max (map task_id queue) (latest_result_id st).
Proof.
  revert st. induction queue as [|res queue IH]; intros st; [reflexivity|].
  cbn [drain map fold_left].
  pose proof (drain_step_latest active st res) as L.
  destruct (drain_step active st res) as [st1 applied].
  specialize (IH st1).
  destruct (drain active st1 queue) as [st2 log].
  cbn [fst] in *. now rewrite IH, L.
Qed.

Lemma drain_step_idle (active : bool) (st : loop_state) (res : OcrResult) :
  active = false \/ truthy (error res) = true ->
  visible (fst (drain_step active st res)) = visible st
  /\ snd (drain_step active st res) = false.
Proof.
  intros H. unfold drain_step.
  destruct (task_id res <? latest_result_id st); [now split|].
  destruct H as [-> | H]; cbn [negb]; [now split|].
  destruct active; cbn [negb]; [|now split].
  rewrite H. now split.
Qed.

(** X10: while the tooltip is not active, and for results that carry an
    error, the drain consumes the queue without touching what the overlay
    shows: the matched name and row, the shown row and panel, the
    visibility and the overlay rectangle stay as they were, and no result
    is applied. *)
Theorem idle_drain_keeps_the_overlay (active : bool)
        (queue : list OcrResult) (st : loop_state) :
  active = false
  \/ (forall res, In res queue -> truthy (error res) = true) ->
  visible (fst (drain active st queue)) = visible st
  /\ snd (drain active st queue) = [].
Proof.
  revert st. induction queue as [|res queue IH]; intros st H;
    [now split|].
  cbn [drain].
  assert (H1 : active = false \/ truthy (error res) = true).
  { destruct H as [H|H]; [now left|]. right. apply H. now left. }
  assert (H2 : active = false
               \/ (forall r, In r queue -> truthy (error r) = true)).
  { destruct H as [H|H]; [now left|]. right. intros r Hr. apply H.
    now right. }
  destruct (drain_step_idle active st res H1) as [V A].
  destruct (drain_step active st res) as [st1 applied].
  cbn [fst snd] in V, A. subst applied.
  destruct (IH st1 H2) as [V' L'].
  destruct (drain active st1 queue) as [st2 log].
  cbn [fst snd] in *. split; [congruence|exact L'].
Qed.

(** The drain of a pass in which the tooltip is not active. *)
Lemma drain_inactive (queue : list OcrResult) :
  forall st, visible (fst (drain false st queue)) = visible st.
Proof.
  induction queue as [|res queue IH]; intros st; [reflexivity|].
  cbn [drain].
  destruct (drain_step_idle false st res (or_introl eq_refl)) as [V _].
  destruct (drain_step false st res) as [st1 applied].
  specialize (IH st1).
  destruct (drain false st1 queue) as [st2 log].
  cbn [fst] in *. congruence.
Qed.

(** The overlay shows "Rope"; a result with an error and a newer id is
    dequeued while the tooltip is active. *)
Lemma idle_drain_keeps_the_overlay_witness :
  let queue := [mkOcrResult 9 None None None false (Some (lit "boom"))] in
  visible (fst (drain true sample_state queue)) = visible sample_state
  /\ snd (drain true sample_state queue) = [].
Proof.
  intros queue.
  apply (idle_drain_keeps_the_overlay true queue sample_state).
  right. intros res [<-|[]]. reflexivity.
Defined.

End DrainMore.

(** ** More on the OCR worker *)

Module WorkerMore.

Import Worker WorkerFacts.

Section Loop.

Variable Roi : Type.
Variable ocr_item_lines : Roi -> raises (list str).
Variable find_row : str -> option Row.

Lemma first_match_spec (lines : list str) :
  match first_match find_row lines with
  | Some (ln, r) =>
      In ln lines /\ find_row ln = Some r
  | None => forall ln, In ln lines -> find_row ln = None
  end.
Proof.
  induction lines as [|a lines IH]; simpl; [intros ? []|].
  destruct (find_row a) as [r|] eqn:E.
  - split; [now left|exact E].
  - destruct (first_match find_row lines) as [[ln r]|].
    + destruct IH as [H1 H2]. split; [now right|exact H2].
    + intros ln [<-|H]; [exact E|exact (IH ln H)].
Qed.

(** X11: what the worker puts on the result queue for a task echoes the
    task's id and panel box, and either names no item (name and row are
    both none, the secondary flag is off) or carries no error and a line
    that the engine read off one of the task's crops together with the
    row that this very line resolves to; the secondary flag is set
    exactly when that crop is the secondary one, which is read only
    after every line of the primary crop failed to resolve. *)
Theorem worker_result_is_consistent (task : OcrTask Roi) :
  let res := handle_task ocr_item_lines find_row task in
  task_id res = t_task_id task
  /\ panel_box res = t_panel_box task
  /\ ((name res = None /\ row res = None /\ secondary_used res = false)
      \/ (error res = None
          /\ exists ln r roi lines,
               name res = Some ln /\ row res = Some r
               /\ find_row ln = Some r
               /\ (if secondary_used res then roi_secondary task
                   else roi_primary task) = Some roi
               /\ ocr_item_lines roi = inr lines /\ In ln lines
               /\ (secondary_used res = true ->
                   forall proi plines,
                     roi_primary task = Some proi ->
                     ocr_item_lines proi = inr plines ->
                     forall l, In l plines -> find_row l = None))).
Proof.
  intros res. subst res. unfold handle_task, try_task, lines_of.
  destruct (roi_primary task) as [proi|] eqn:Ep.
  - destruct (ocr_item_lines proi) as [e|plines] eqn:Op; cbn [bind ret].
    { repeat split. left. repeat split. }
    pose proof (first_match_spec plines) as Sp.
    destruct (first_match find_row plines) as [[ln r]|].
    + cbn [ret]. repeat split. right. split; [reflexivity|].
      exists ln, r, proi, plines. cbn [secondary_used name row].
      destruct Sp as [S1 S2]. repeat split; try assumption.
      discriminate.
    + destruct (roi_secondary task) as [sroi|] eqn:Es.
      * destruct (ocr_item_lines sroi) as [e|slines] eqn:Os;
          cbn [bind ret].
        { repeat split. left. repeat split. }
        pose proof (first_match_spec slines) as Ss.
        destruct (first_match find_row slines) as [[ln r]|].
        -- cbn [ret]. repeat split. right. split; [reflexivity|].
           exists ln, r, sroi, slines. cbn [secondary_used name row].
           destruct Ss as [S1 S2]. repeat split; try assumption.
           intros _ proi' plines' E1 E2 l Hl.
           injection E1 as <-. rewrite Op in E2. injection E2 as <-.
           exact (Sp l Hl).
        -- cbn [ret]. repeat split. left. repeat split.
      * cbn [bind ret first_match]. repeat split. left. repeat split.
  - cbn [bind ret first_match].
    destruct (roi_secondary task) as [sroi|] eqn:Es.
    + destruct (ocr_item_lines sroi) as [e|slines] eqn:Os;
        cbn [bind ret].
      { repeat split. left. repeat split. }
      pose proof (first_match_spec slines) as Ss.
      destruct (first_match find_row slines) as [[ln r]|].
      * cbn [ret]. repeat split. right. split; [reflexivity|].
        exists ln, r, sroi, slines. cbn [secondary_used name row].
        destruct Ss as [S1 S2]. repeat split; try assumption.
        intros _ proi' plines' E1. discriminate.
      * cbn [ret]. repeat split. left. repeat split.
    + cbn [bind ret first_match]. repeat split. left. repeat split.
Qed.

End Loop.

End WorkerMore.

(** ** Where the crops lie *)

Module RegionMore.

Import Region Geometry.
Local Open Scope Z_scope.

Lemma slice_bound_range (n i : Z) :
  0 <= n -> 0 <= slice_bound n i <= n.
Proof.
  intros H. unfold slice_bound. destruct (i <? 0) eqn:E; lia.
Qed.

Lemma slice2_within (v : view) (y1 y2 x1 x2 : Z) :
  0 <= rows v -> 0 <= cols v ->
  within (slice2 v y1 y2 x1 x2) v
  /\ 0 <= rows (slice2 v y1 y2 x1 x2)
  /\ 0 <= cols (slice2 v y1 y2 x1 x2).
Proof.
  intros Hr Hc. unfold within, slice2, slice_start, slice_len.
  cbn [top left rows cols].
  pose proof (slice_bound_range (rows v) y1 Hr).
  pose proof (slice_bound_range (rows v) y2 Hr).
  pose proof (slice_bound_range (cols v) x1 Hc).
  pose proof (slice_bound_range (cols v) x2 Hc).
  lia.
Qed.

(** A slice [lo:hi] with [0 <= lo < hi] is non-empty exactly when [lo] is
    an index of the axis. *)
Lemma slice_len_pos (n lo hi : Z) :
  0 <= n -> 0 <= lo -> lo < hi ->
  (0 < slice_len n lo hi <-> lo < n).
Proof.
  intros Hn Hlo Hhi. unfold slice_len, slice_bound.
  destruct (hi <? 0) eqn:E1; destruct (lo <? 0) eqn:E2; lia.
Qed.

Lemma within_trans (a b c : view) : within a b -> within b c -> within a c.
Proof. unfold within. lia. Qed.

(** X12: on a non-empty frame the crop is always produced and always lies
    within the panel image, which lies within the frame; it has at least
    one row and one column exactly when the scaled, clamped start offset of
    the name region is smaller than the panel image's height and width. *)
Theorem crop_lies_in_panel_nonempty_iff
        (frame : view) (px1 py1 px2 py2 ref_x ref_y ref_w ref_h : Z) :
  0 < rows frame -> 0 < cols frame ->
  let tooltip := slice2 frame py1 py2 px1 px2 in
  exists crop,
    _crop_name_region_from_panel_generic
      (Some frame) (Some (px1, py1, px2, py2)) ref_x ref_y ref_w ref_h
    = Some crop
    /\ within crop tooltip /\ within tooltip frame
    /\ (0 < rows crop /\ 0 < cols crop
        <-> start_offset ref_y (rows frame) REF_H < rows tooltip
            /\ start_offset ref_x (cols frame) REF_W < cols tooltip).
Proof.
  intros Hr Hc tooltip.
  unfold _crop_name_region_from_panel_generic.
  assert (S0 : (size frame =? 0) = false)
    by (apply Z.eqb_neq; unfold size; nia).
  assert (R0 : (rows frame =? 0) = false) by (apply Z.eqb_neq; lia).
  assert (C0 : (cols frame =? 0) = false) by (apply Z.eqb_neq; lia).
  rewrite S0, R0, C0. cbn [orb].
  fold tooltip.
  destruct (slice2_within frame py1 py2 px1 px2
                          ltac:(lia) ltac:(lia)) as (W1 & Tr & Tc).
  fold tooltip in W1, Tr, Tc.
  eexists. split; [reflexivity|].
  fold (start_offset ref_x (cols frame) REF_W).
  fold (start_offset ref_y (rows frame) REF_H).
  set (nx1 := start_offset ref_x (cols frame) REF_W).
  set (ny1 := start_offset ref_y (rows frame) REF_H).
  assert (Hx : 0 <= nx1) by (unfold nx1, start_offset; lia).
  assert (Hy : 0 <= ny1) by (unfold ny1, start_offset; lia).
  match goal with
  | |- within (slice2 _ _ ?ny2 _ ?nx2) _ /\ _ =>
      set (y2 := ny2); set (x2 := nx2)
  end.
  assert (Hx2 : nx1 < x2) by (unfold x2; lia).
  assert (Hy2 : ny1 < y2) by (unfold y2; lia).
  split; [exact (proj1 (slice2_within tooltip ny1 y2 nx1 x2 Tr Tc))|].
  split; [exact W1|].
  unfold slice2 at 1 2. cbn [rows cols].
  rewrite (slice_len_pos (rows tooltip) ny1 y2 Tr Hy Hy2).
  rewrite (slice_len_pos (cols tooltip) nx1 x2 Tc Hx Hx2).
  reflexivity.
Qed.

(** On a frame of 1220 rows the start offset is 60, not 61: the double of
    1220 / 1080 times 54 is 60.99999999999999, and the crop of a panel of
    61 rows has one row. *)
Example crop_of_low_panel :
  start_offset NAME_REF_Y 1220 REF_H = 60
  /\ crop_name_region_from_panel (Some frame_1220) (Some low_panel)
     = Some (mkView 160 115 1 340).
Proof. split; reflexivity. Qed.

(** A full-HD frame and a panel of 400 by 300 pixels: the primary crop is
    the 340 by 90 window at (115, 154). *)
Lemma crop_lies_in_panel_nonempty_iff_witness :
  let frame := frame_of 1080 1920 in
  let tooltip := slice2 frame 100 400 100 500 in
  exists crop,
    crop_name_region_from_panel (Some frame) (Some (100, 100, 500, 400))
    = Some crop
    /\ within crop tooltip /\ within tooltip frame
    /\ (0 < rows crop /\ 0 < cols crop
        <-> start_offset NAME_REF_Y 1080 REF_H < rows tooltip
            /\ start_offset NAME_REF_X 1920 REF_W < cols tooltip).
Proof.
  exact (crop_lies_in_panel_nonempty_iff
           (frame_of 1080 1920) 100 100 500 400
           NAME_REF_X NAME_REF_Y NAME_REF_W NAME_REF_H
           ltac:(reflexivity) ltac:(reflexivity)).
Defined.

End RegionMore.

(** ** Where the overlay is put *)

Module PlacementMore.

Import Placement.
Local Open Scope Z_scope.

Section Place.

Variable scr : screen.

Lemma try_place_on_screen (w h mx my cx cy x y : Z) :
  w + 2 * margin <= SCREEN_W scr ->
  h + 2 * margin <= SCREEN_H scr ->
  try_place scr w h mx my cx cy = Some (x, y) ->
  0 <= x /\ x + w <= SCREEN_W scr
  /\ margin <= y /\ y + h <= SCREEN_H scr - margin.
Proof.
  unfold try_place, clamp_to_screen, margin. intros Hw Hh.
  destruct (_ && _); [discriminate|].
  intros E. injection E as <- <-. lia.
Qed.

(** X13: when the rendered image, in its single-column and in its compact
    form, fits on the screen with the margin of 10 pixels on both sides,
    the overlay is always placed wholly on the screen, and vertically
    within the margins, wherever the panel and the pointer are. *)
Theorem overlay_stays_on_screen
        (test_w test_h compact_w compact_h : Z)
        (global_panel_box : Box) (used_secondary : bool)
        (mouse : option (Z * Z)) :
  test_w + 2 * margin <= SCREEN_W scr ->
  test_h + 2 * margin <= SCREEN_H scr ->
  compact_w + 2 * margin <= SCREEN_W scr ->
  compact_h + 2 * margin <= SCREEN_H scr ->
  let '(x, y, w, h) :=
    show_helper_tooltip scr test_w test_h compact_w compact_h
                        global_panel_box used_secondary mouse in
  0 <= x /\ x + w <= SCREEN_W scr
  /\ margin <= y /\ y + h <= SCREEN_H scr - margin
  /\ ((w, h) = (test_w, test_h) \/ (w, h) = (compact_w, compact_h)).
Proof.
  intros Htw Hth Hcw Hch.
  destruct global_panel_box as [[[gx1 gy1] gx2] gy2].
  unfold show_helper_tooltip.
  set (gap_y := snd (get_helper_gaps (SCREEN_W scr) (SCREEN_H scr))).
  set (g := side_gap scr).
  assert (Sized : forall w h,
             w + 2 * margin <= SCREEN_W scr ->
             h + 2 * margin <= SCREEN_H scr ->
             (w, h) = (test_w, test_h) \/ (w, h) = (compact_w, compact_h) ->
             let '(x, y, w', h') :=
               (let y := if used_secondary then gy1 else gy1 + gap_y in
                let y := if y <? margin then margin else y in
                let y := if SCREEN_H scr - margin <? y + h
                         then SCREEN_H scr - h - margin else y in
                let y := if y <? margin then margin else y in
                let x_right := gx2 + g in
                let x_left := gx1 - g - w in
                let right_fits := x_right + w <=? SCREEN_W scr - margin in
                let mouse :=
                  match mouse with
                  | Some (mx, my) =>
                      Some (mx - MONITOR_LEFT scr, my - MONITOR_TOP scr)
                  | None => None
                  end in
                let panel_center_x := gx1 + (gx2 - gx1) / 2 in
                let '(x, place_left) :=
                  if right_fits then
                    match mouse with
                    | Some (mx, _) =>
                        let d_right := horizontal_distance mx x_right w in
                        let d_left := horizontal_distance mx x_left w in
                        (if d_left <=? d_right then x_right else x_left,
                         false)
                    | None => (x_right, false)
                    end
                  else
                    match mouse with
                    | Some (mx, _) =>
                        if panel_center_x <? mx then (x_left, true)
                        else (margin, false)
                    | None =>
                        let preferred_center := gx1 + (gx2 - gx1) / 2 in
                        (preferred_center - w / 2, false)
                    end in
                let x := Z.max 0 (Z.min (SCREEN_W scr - w) x) in
                let y := Z.max 0 (Z.min (SCREEN_H scr - h) y) in
                let '(x, y) :=
                  if negb place_left && negb right_fits then
                    match mouse with
                    | Some (mx, my) =>
                        if x <=? mx then
                          let align_x := gx1 in
                          let under_y := gy2 + g in
                          let above_y := gy1 - g - h in
                          let fits_under :=
                            under_y + h <=? SCREEN_H scr - margin in
                          let fits_above := margin <=? above_y in
                          let first :=
                            if fits_under
                            then try_place scr w h mx my align_x under_y
                            else None in
                          match first with
                          | Some pos => pos
                          | None =>
                              let second :=
                                if fits_above
                                then try_place scr w h mx my align_x
                                               above_y
                                else None in
                              match second with
                              | Some pos => pos
                              | None =>
                                  match try_place scr w h mx my align_x
                                                  under_y with
                                  | Some pos => pos
                                  | None => (x, y)
                                  end
                              end
                          end
                        else (x, y)
                    | None => (x, y)
                    end
                  else (x, y) in
                (x, y, w, h)) in
             0 <= x /\ x + w' <= SCREEN_W scr
             /\ margin <= y /\ y + h' <= SCREEN_H scr - margin
             /\ ((w', h') = (test_w, test_h)
                 \/ (w', h') = (compact_w, compact_h))).
  { intros w h Hw Hh Hsz. cbv zeta.
    match goal with
    | |- context [Z.max 0 (Z.min (SCREEN_H scr - h) ?y0)] =>
        set (y1 := y0)
    end.
    assert (Hy1 : margin <= y1 /\ y1 + h <= SCREEN_H scr - margin).
    { unfold y1, margin in *.
      repeat match goal with
             | |- context [if ?b then _ else _] => destruct b eqn:?
             end; lia. }
    destruct (if gx2 + g + w <=? SCREEN_W scr - margin then _ else _)
      as [x0 place_left].
    set (x1 := Z.max 0 (Z.min (SCREEN_W scr - w) x0)).
    set (y2 := Z.max 0 (Z.min (SCREEN_H scr - h) y1)).
    assert (Hx1 : 0 <= x1 /\ x1 + w <= SCREEN_W scr)
      by (unfold x1, margin in *; lia).
    assert (Hy2 : margin <= y2 /\ y2 + h <= SCREEN_H scr - margin)
      by (unfold y2, margin in *; lia).
    assert (Base : 0 <= x1 /\ x1 + w <= SCREEN_W scr
                   /\ margin <= y2 /\ y2 + h <= SCREEN_H scr - margin
                   /\ ((w, h) = (test_w, test_h)
                       \/ (w, h) = (compact_w, compact_h)))
      by tauto.
    assert (Placed : forall mx my cx cy,
               match try_place scr w h mx my cx cy with
               | Some pos =>
                   let '(x, y) := pos in
                   0 <= x /\ x + w <= SCREEN_W scr
                   /\ margin <= y /\ y + h <= SCREEN_H scr - margin
                   /\ ((w, h) = (test_w, test_h)
                       \/ (w, h) = (compact_w, compact_h))
               | None => True
               end).
    { intros mx my cx cy.
      destruct (try_place scr w h mx my cx cy) as [[x y]|] eqn:E;
        [|exact I].
      pose proof (try_place_on_screen w h mx my cx cy x y Hw Hh E).
      tauto. }
    destruct (negb place_left && negb _); [|exact Base].
    destruct mouse as [[mx my]|]; [|exact Base].
    destruct (x1 <=? _); [|exact Base].
    destruct (_ <=? SCREEN_H scr - margin).
    - pose proof (Placed (mx - MONITOR_LEFT scr) (my - MONITOR_TOP scr)
                         gx1 (gy2 + g)) as P1.
      destruct (try_place scr w h _ _ gx1 (gy2 + g)) as [[x y]|];
        [exact P1|].
      destruct (margin <=? _).
      + pose proof (Placed (mx - MONITOR_LEFT scr)
                           (my - MONITOR_TOP scr)
                           gx1 (gy1 - g - h)) as P2.
        destruct (try_place scr w h _ _ gx1 (gy1 - g - h)) as [[x y]|];
          [exact P2|exact Base].
      + exact Base.
    - destruct (margin <=? _).
      + pose proof (Placed (mx - MONITOR_LEFT scr)
                           (my - MONITOR_TOP scr)
                           gx1 (gy1 - g - h)) as P2.
        destruct (try_place scr w h _ _ gx1 (gy1 - g - h)) as [[x y]|];
          [exact P2|].
        pose proof (Placed (mx - MONITOR_LEFT scr) (my - MONITOR_TOP scr)
                           gx1 (gy2 + g)) as P1.
        destruct (try_place scr w h _ _ gx1 (gy2 + g)) as [[x y]|];
          [exact P1|exact Base].
      + pose proof (Placed (mx - MONITOR_LEFT scr) (my - MONITOR_TOP scr)
                           gx1 (gy2 + g)) as P1.
        destruct (try_place scr w h _ _ gx1 (gy2 + g)) as [[x y]|];
          [exact P1|exact Base]. }
  destruct (gx2 + g + test_w <=? SCREEN_W scr - margin).
  - exact (Sized test_w test_h Htw Hth (or_introl eq_refl)).
  - exact (Sized compact_w compact_h Hcw Hch (or_intror eq_refl)).
Qed.

End Place.

(** The counterexample input of the right-anchor claim: the overlay goes to
    the left of the panel and is clamped to x = 0; it is on the screen. *)
Lemma overlay_stays_on_screen_witness :
  let '(x, y, w, h) :=
    show_helper_tooltip hd_screen 200 300 150 300 left_panel false
                        (Some (1900, 1000)) in
  (x, y, w, h) = (0, 146, 200, 300)
  /\ 0 <= x /\ x + w <= 1920 /\ margin <= y /\ y + h <= 1080 - margin
  /\ ((w, h) = (200, 300) \/ (w, h) = (150, 300)).
Proof.
  pose proof (overlay_stays_on_screen
                hd_screen 200 300 150 300 left_panel false
                (Some (1900, 1000))
                ltac:(vm_compute; discriminate)
                ltac:(vm_compute; discriminate)
                ltac:(vm_compute; discriminate)
                ltac:(vm_compute; discriminate)) as H.
  revert H. vm_compute. intros H. split; [reflexivity|exact H].
Defined.

End PlacementMore.

(** ** More on the OCR throttle *)

Module ThrottleMore.

Import Throttle ThrottleFacts Pacing.
Local Open Scope Z_scope.

Lemma dispatch_step_effect (st : throttle_state) (small : option gray)
      (now : Q) :
  if dispatched (snd (dispatch_step st small now))
  then (OCR_MIN_INTERVAL <= now - LAST_OCR_TIME st)%Q
       /\ LAST_OCR_TIME (fst (dispatch_step st small now)) = now
       /\ next_task_id (fst (dispatch_step st small now))
          = next_task_id st + 1
  else LAST_OCR_TIME (fst (dispatch_step st small now)) = LAST_OCR_TIME st
       /\ next_task_id (fst (dispatch_step st small now))
          = next_task_id st.
Proof.
  unfold dispatch_step.
  destruct (compute_name_roi_hash small 3%Q (cache st)) as [roi_hash c].
  destruct roi_hash as [h|]; [|now split].
  destruct (hash_eqb (Some h) (last_name_roi_hash st)); [now split|].
  destruct (Qle_bool OCR_MIN_INTERVAL (now - LAST_OCR_TIME st)) eqn:E;
    [|now split].
  apply Qle_bool_iff in E.
  destruct (_ <? 4)%nat; cbn; repeat split; assumption.
Qed.

(** X14: over any run of panel ticks, from any state, two dispatches are
    never closer than [OCR_MIN_INTERVAL] (0.35 s) on the clock the loop
    reads, the first one counted from [LAST_OCR_TIME]; and the task
    counter grows by exactly the number of dispatches, whether the task
    went on the queue or was dropped because the queue was full. *)
Theorem dispatches_are_paced (ticks : list (option gray * Q))
        (st : throttle_state) :
  spaced (LAST_OCR_TIME st) (combine (map snd ticks) (snd (run st ticks)))
  /\ next_task_id (fst (run st ticks))
     = next_task_id st + Z.of_nat (count_dispatched (snd (run st ticks))).
Proof.
  revert st. induction ticks as [|[small now] ticks IH]; intros st.
  - split; [exact I|]. cbn. lia.
  - cbn [run map snd combine].
    pose proof (dispatch_step_effect st small now) as E.
    destruct (dispatch_step st small now) as [st1 d].
    cbn [fst snd] in E.
    destruct (IH st1) as [S N].
    destruct (run st1 ticks) as [st2 ds].
    cbn [fst snd combine spaced] in *.
    unfold count_dispatched in *. cbn [filter].
    destruct (dispatched d).
    + destruct E as (E1 & E2 & E3). rewrite E2 in S.
      split; [split; assumption|].
      cbn [List.length]. lia.
    + destruct E as (E2 & E3). rewrite E2 in S.
      split; [assumption|]. lia.
Qed.

Lemma compute_cache_ok (c : hash_cache) (small : option gray) :
  cache_ok c ->
  cache_ok (snd (compute_name_roi_hash small 3%Q c))
  /\ forall g, small = Some g ->
               exists h, fst (compute_name_roi_hash small 3%Q c) = Some h.
Proof.
  unfold cache_ok. intros Hc.
  destruct small as [g|]; [|split; [exact Hc|discriminate]].
  unfold compute_name_roi_hash.
  destruct (prev_gray c) as [pg|] eqn:Ep.
  - destruct (List.length pg =? List.length g)%nat.
    + destruct (diff_below g pg 3%Q).
      * cbn [fst snd]. split; [congruence|]. intros _ _. now exists pg.
      * cbn. split; [reflexivity|]. intros _ _. now exists g.
    + cbn. split; [reflexivity|]. intros _ _. now exists g.
  - cbn. split; [reflexivity|]. intros _ _. now exists g.
Qed.

(** X15: the two entries of the hash cache stay in step, and the hash
    handed out for a crop is always the reduction of that crop or of an
    earlier crop whose mean absolute difference from it is below 3.0; a
    missing crop gives no hash and leaves the cache alone. *)
Theorem hash_is_of_a_near_crop :
  cache_ok empty_cache
  /\ forall (c : hash_cache) (small : option gray),
      cache_ok c ->
      let out := compute_name_roi_hash small 3%Q c in
      cache_ok (snd out)
      /\ match small with
         | None => out = (None, c)
         | Some g =>
             prev_hash (snd out) = fst out
             /\ exists g',
                  fst out = Some g'
                  /\ (g' = g
                      \/ ((mean_abs_diff g g' < 3)%Q
                          /\ prev_gray c = Some g'))
         end.
Proof.
  split; [reflexivity|].
  intros c small Hc out. subst out. unfold cache_ok in *.
  destruct small as [g|]; [|now split].
  unfold compute_name_roi_hash.
  destruct (prev_gray c) as [pg|] eqn:Ep.
  - destruct (List.length pg =? List.length g)%nat.
    + destruct (diff_below g pg 3%Q) eqn:D.
      * cbn [fst snd]. split; [congruence|].
        split; [reflexivity|].
        exists pg. split; [exact Hc|]. right. split; [|reflexivity].
        unfold diff_below in D. destruct g; [discriminate|].
        now apply Qltb_true.
      * cbn. repeat split. exists g. split; [reflexivity|now left].
    + cbn. repeat split. exists g. split; [reflexivity|now left].
  - cbn. repeat split. exists g. split; [reflexivity|now left].
Qed.

End ThrottleMore.

(** ** The loop of [main_live], pass by pass *)

Module LiveFacts.

Import LookupFacts Drain Throttle ThrottleFacts Pacing Live.
Import DrainMore ThrottleMore.
Local Open Scope Z_scope.

Lemma box_eqb_eq (a b : Box) : box_eqb a b = true -> a = b.
Proof.
  destruct a as [[[a1 a2] a3] a4], b as [[[b1 b2] b3] b4]. simpl.
  rewrite !andb_true_iff, !Z.eqb_eq. intros [[[-> ->] ->] ->].
  reflexivity.
Qed.

Lemma row_eqb_eq (a : Row) : forall b, row_eqb a b = true -> a = b.
Proof.
  induction a as [|[c v] a IH]; intros [|[d w] b]; simpl;
    try discriminate; [reflexivity|].
  rewrite !andb_true_iff. intros [[H1 H2] H3].
  apply String.eqb_eq in H1. apply str_eqb_eq in H2.
  apply IH in H3. now subst.
Qed.

Lemma visible_parts (s s' : loop_state) :
  visible s' = visible s ->
  last_name s' = last_name s /\ last_row s' = last_row s
  /\ last_used_secondary s' = last_used_secondary s
  /\ LAST_SHOWN_ROW s' = LAST_SHOWN_ROW s
  /\ LAST_SHOWN_PANEL_BOX s' = LAST_SHOWN_PANEL_BOX s
  /\ TOOLTIP_VISIBLE s' = TOOLTIP_VISIBLE s
  /\ HELPER_SCREEN_RECT s' = HELPER_SCREEN_RECT s.
Proof.
  unfold visible. intros H. injection H. intros. repeat split; assumption.
Qed.

Lemma drain_step_coherent (active : bool) (s : loop_state)
      (res : OcrResult) :
  coherent s -> coherent (fst (drain_step active s res)).
Proof.
  intros H. unfold drain_step.
  destruct (task_id res <? latest_result_id s); [exact H|].
  destruct (negb active); [exact H|].
  destruct (truthy (error res)); [exact H|].
  destruct (truthy (name res) && is_some (row res)).
  - exact H.
  - unfold coherent. cbn. repeat split.
Qed.

Lemma drain_coherent (active : bool) (queue : list OcrResult) :
  forall s, coherent s -> coherent (fst (drain active s queue)).
Proof.
  induction queue as [|res queue IH]; intros s H; [exact H|].
  cbn [drain].
  pose proof (drain_step_coherent active s res H) as H1.
  destruct (drain_step active s res) as [s1 applied].
  specialize (IH s1 H1).
  destruct (drain active s1 queue) as [s2 log]. exact IH.
Qed.

Lemma settled_coherent (st : live_state) :
  settled st -> coherent (shown st).
Proof.
  intros (_ & _ & H). unfold coherent.
  destruct (TOOLTIP_VISIBLE (shown st)); [|exact H].
  destruct H as (r & pb & _ & -> & _). reflexivity.
Qed.

Lemma start_settled : settled start.
Proof.
  split; [cbn; lia|]. split; [reflexivity|]. cbn. repeat split.
Qed.

Lemma dispatch_step_cache_ok (t : throttle_state) (small : option gray)
      (now : Q) :
  cache_ok (cache t) -> cache_ok (cache (fst (dispatch_step t small now))).
Proof.
  intros H. rewrite dispatch_step_cache.
  exact (proj1 (compute_cache_ok (cache t) small H)).
Qed.

(** What the first two parts of a pass keep. *)
Lemma detect_keeps (inp : pass_input) (st : live_state) :
  0 <= missing_frames st ->
  cache_ok (cache (throttle st)) ->
  coherent (shown st) ->
  let st' := detect inp (arrive inp st) in
  0 <= missing_frames st'
  /\ cache_ok (cache (throttle st'))
  /\ coherent (shown st')
  /\ (gating_active inp && is_some (last_panel_box st') = true ->
      missing_frames st' <= 1).
Proof.
  intros Hm Hc Hs st'. subst st'. unfold detect.
  destruct (gating_active inp).
  - destruct (Detector.find_tooltip_panel_by_color (contours inp)).
    + cbn. repeat split; try lia; try assumption.
      now apply dispatch_step_cache_ok.
    + cbn [with_missing arrive missing_frames shown throttle
                        last_panel_box].
      unfold MISSING_FRAMES_BEFORE_HIDE.
      destruct (2 <=? missing_frames st + 1) eqn:E.
      * cbn. repeat split; try lia; try assumption; try discriminate.
      * apply Z.leb_gt in E. cbn.
        repeat split; try lia; try assumption.
  - cbn [andb]. cbn [arrive shown last_panel_box].
    destruct (is_some (last_name (shown st))
              || is_some (last_row (shown st))
              || is_some (last_panel_box st));
      cbn; repeat split; try lia; try assumption; try discriminate.
Qed.

Section Identity.

Variable same_object : Row -> Row -> bool.

(** What the last part of a pass leaves. *)
Lemma present_leaves (inp : pass_input) (active : bool)
      (st : live_state) :
  (forall a b, same_object a b = true -> a = b) ->
  0 <= missing_frames st ->
  cache_ok (cache (throttle st)) ->
  coherent (shown st) ->
  let st' := present same_object inp active st in
  settled st'
  /\ (TOOLTIP_VISIBLE (shown st') = true ->
      active = true /\ TOOLTIP_NEEDS_REFRESH st' = false)
  /\ missing_frames st' = missing_frames st.
Proof.
  intros Hsame Hm Hc Hs st'. subst st'. unfold present.
  destruct active.
  - destruct (last_panel_box st) as [pb|] eqn:Ep.
    + destruct (last_row (shown st)) as [r|] eqn:Er.
      * destruct (LAST_SHOWN_ROW (shown st)) as [r'|] eqn:Esr;
          [destruct (same_object r r') eqn:Eo|]; cbn [negb orb].
        -- destruct (LAST_SHOWN_PANEL_BOX (shown st)) as [pb'|] eqn:Esp;
             [destruct (box_eqb pb pb') eqn:Eb|]; cbn [negb orb].
           ++ destruct (TOOLTIP_NEEDS_REFRESH st) eqn:En.
              ** cbn. repeat split; try assumption.
                 exists r, pb. repeat split.
              ** repeat split; try assumption; try reflexivity.
                 unfold coherent in Hs. rewrite Esr, Esp in Hs.
                 apply Hsame in Eo. apply box_eqb_eq in Eb. subst r' pb'.
                 destruct (TOOLTIP_VISIBLE (shown st)).
                 --- exists r, pb. repeat split; assumption.
                 --- destruct Hs as (Hs & _). discriminate.
           ++ cbn. repeat split; try assumption.
              exists r, pb. repeat split.
           ++ cbn. repeat split; try assumption.
              exists r, pb. repeat split.
        -- cbn. repeat split; try assumption.
           exists r, pb. repeat split.
        -- cbn. repeat split; try assumption.
           exists r, pb. repeat split.
      * destruct (is_some (LAST_SHOWN_ROW (shown st))
                  || is_some (LAST_SHOWN_PANEL_BOX (shown st))) eqn:E.
        -- cbn. repeat split; try assumption; discriminate.
        -- apply orb_false_iff in E. destruct E as [E1 E2].
           unfold coherent in Hs. unfold settled.
           destruct (TOOLTIP_VISIBLE (shown st)) eqn:Ev.
           ++ rewrite Hs in E1. discriminate.
           ++ repeat split; try assumption; try apply Hs; discriminate.
    + destruct (is_some (LAST_SHOWN_ROW (shown st))
                || is_some (LAST_SHOWN_PANEL_BOX (shown st))) eqn:E.
      * cbn. repeat split; try assumption; discriminate.
      * apply orb_false_iff in E. destruct E as [E1 E2].
        unfold coherent in Hs. unfold settled.
        destruct (TOOLTIP_VISIBLE (shown st)) eqn:Ev.
        -- rewrite Hs in E1. discriminate.
        -- repeat split; try assumption; try apply Hs; discriminate.
  - destruct (is_some (LAST_SHOWN_ROW (shown st))
              || is_some (LAST_SHOWN_PANEL_BOX (shown st))) eqn:E.
    + cbn. repeat split; try assumption; discriminate.
    + apply orb_false_iff in E. destruct E as [E1 E2].
      unfold coherent in Hs. unfold settled.
      destruct (TOOLTIP_VISIBLE (shown st)) eqn:Ev.
      * rewrite Hs in E1. discriminate.
      * repeat split; try assumption; try apply Hs; discriminate.
Qed.

Lemma pass_settles (inp : pass_input) (st : live_state) :
  (forall a b, same_object a b = true -> a = b) ->
  settled st ->
  settled (pass same_object inp st)
  /\ (TOOLTIP_VISIBLE (shown (pass same_object inp st)) = true ->
      gating_active inp = true
      /\ missing_frames (pass same_object inp st) <= 1
      /\ (verdict_cycled_late inp = false ->
          TOOLTIP_NEEDS_REFRESH (pass same_object inp st) = false)).
Proof.
  intros Hsame Hst.
  pose proof (settled_coherent st Hst) as Hco.
  destruct Hst as (Hm & Hc & _).
  destruct (detect_keeps inp st Hm Hc Hco) as (Dm & Dc & Ds & Dg).
  unfold pass.
  set (st1 := detect inp (arrive inp st)) in *.
  set (active := gating_active inp && is_some (last_panel_box st1)) in *.
  set (st2 := with_shown st1 (fst (drain active (shown st1)
                                         (ocr_results inp)))).
  assert (Hs2 : coherent (shown st2))
    by (apply drain_coherent; exact Ds).
  destruct (present_leaves inp active st2 Hsame Dm Dc Hs2)
    as (P1 & P2 & P3).
  unfold depart at 1. split; [exact P1|].
  unfold depart. cbn [shown missing_frames TOOLTIP_NEEDS_REFRESH].
  intros Hv.
  destruct (P2 Hv) as [Ha Hn].
  split; [|split].
  - unfold active in Ha. apply andb_true_iff in Ha. tauto.
  - rewrite P3. cbn [st2 with_shown missing_frames]. exact (Dg Ha).
  - intros Hl. rewrite Hn, Hl. reflexivity.
Qed.

Lemma run_passes_settled (inputs : list pass_input) :
  (forall a b, same_object a b = true -> a = b) ->
  forall st, settled st -> settled (run_passes same_object inputs st).
Proof.
  intros Hsame. induction inputs as [|inp inputs IH]; intros st Hst;
    [exact Hst|].
  cbn [run_passes fold_left]. apply IH.
  exact (proj1 (pass_settles inp st Hsame Hst)).
Qed.

(** X16: at the end of every pass of the loop, from the start of
    [main_live] on, the overlay is visible only if the gate (always-on or
    the held hotkey) was open in that pass and the panel was found in it
    or missed in it for the first time; the row and the panel box it
    shows are then the current match and the remembered box, and a
    refresh is pending only if the listener thread raised the flag after
    the pass had looked at it.  With the overlay hidden, the shown row,
    the shown box and the overlay rectangle are all none. *)
Theorem overlay_visible_only_while_gated (inputs : list pass_input)
        (inp : pass_input) :
  (forall a b, same_object a b = true -> a = b) ->
  let st := pass same_object inp (run_passes same_object inputs start) in
  (if TOOLTIP_VISIBLE (shown st)
   then gating_active inp = true
        /\ missing_frames st <= 1
        /\ (verdict_cycled_late inp = false ->
            TOOLTIP_NEEDS_REFRESH st = false)
        /\ exists r pb,
             last_row (shown st) = Some r
             /\ LAST_SHOWN_ROW (shown st) = Some r
             /\ last_panel_box st = Some pb
             /\ LAST_SHOWN_PANEL_BOX (shown st) = Some pb
   else LAST_SHOWN_ROW (shown st) = None
        /\ LAST_SHOWN_PANEL_BOX (shown st) = None
        /\ HELPER_SCREEN_RECT (shown st) = None).
Proof.
  intros Hsame st. subst st.
  pose proof (run_passes_settled inputs Hsame start start_settled) as R.
  destruct (pass_settles inp _ Hsame R) as ((_ & _ & S) & V).
  destruct (TOOLTIP_VISIBLE
              (shown (pass same_object inp
                           (run_passes same_object inputs start)))).
  - destruct (V eq_refl) as (V1 & V2 & V3). repeat split; assumption.
  - exact S.
Qed.

(** A pass in which no panel is found, with the gate open. *)
Lemma miss_pass (inp : pass_input) (st : live_state) :
  miss inp ->
  let st' := pass same_object inp st in
  missing_frames st' = missing_frames st + 1
  /\ cache (throttle st') = cache (throttle st)
  /\ LAST_OCR_TIME (throttle st') = LAST_OCR_TIME (throttle st)
  /\ next_task_id (throttle st') = next_task_id (throttle st)
  /\ (2 <= missing_frames st + 1 ->
      TOOLTIP_VISIBLE (shown st') = false
      /\ last_name (shown st') = None
      /\ last_row (shown st') = None
      /\ last_panel_box st' = None
      /\ last_name_roi_hash (throttle st') = None
      /\ LAST_SHOWN_ROW (shown st') = None
      /\ LAST_SHOWN_PANEL_BOX (shown st') = None
      /\ HELPER_SCREEN_RECT (shown st') = None).
Proof.
  intros [Hg Hp] st'. subst st'. unfold pass, detect.
  rewrite Hg, Hp.
  unfold MISSING_FRAMES_BEFORE_HIDE, depart, present, lose, with_shown,
    with_missing, arrive.
  cbn [missing_frames shown throttle last_panel_box
                      TOOLTIP_NEEDS_REFRESH].
  destruct (2 <=? missing_frames st + 1) eqn:E.
  - cbn [missing_frames shown throttle last_panel_box
                        TOOLTIP_NEEDS_REFRESH is_some andb cache
                        LAST_OCR_TIME next_task_id ocr_task_queue
                        last_name_roi_hash].
    pose proof (drain_inactive (ocr_results inp)
                               (clear_shown (shown st))) as V.
    apply visible_parts in V.
    destruct V as (V1 & V2 & V3 & V4 & V5 & V6 & V7).
    cbn [clear_shown last_name last_row last_used_secondary
                     LAST_SHOWN_ROW LAST_SHOWN_PANEL_BOX TOOLTIP_VISIBLE
                     HELPER_SCREEN_RECT] in *.
    rewrite V4, V5. cbn [is_some orb].
    cbn [missing_frames shown throttle last_panel_box
                        TOOLTIP_NEEDS_REFRESH cache LAST_OCR_TIME
                        next_task_id last_name_roi_hash].
    repeat split; try assumption; reflexivity.
  - apply Z.leb_gt in E.
    cbn [missing_frames shown throttle last_panel_box
                        TOOLTIP_NEEDS_REFRESH cache LAST_OCR_TIME
                        next_task_id ocr_task_queue last_name_roi_hash].
    repeat match goal with
           | |- context [match ?x with _ => _ end] =>
               destruct x; cbn [shown last_panel_box throttle
                                      missing_frames
                                      TOOLTIP_NEEDS_REFRESH cache
                                      LAST_OCR_TIME next_task_id]
           end;
      repeat split; try reflexivity; intros; lia.
Qed.

(** X17: a single pass in which the panel is not found does not take the
    overlay away.  If the panel was found in the pass before (the miss
    counter is 0), the overlay is visible, the gate is open and no OCR
    result arrives, then after a pass without a panel the overlay is
    still visible and shows the same row for the same panel box; the
    miss counter is 1. *)
Theorem one_missed_frame_keeps_the_overlay (inp : pass_input)
        (st : live_state) :
  settled st ->
  miss inp ->
  missing_frames st = 0 ->
  ocr_results inp = [] ->
  TOOLTIP_VISIBLE (shown st) = true ->
  let st' := pass same_object inp st in
  TOOLTIP_VISIBLE (shown st') = true
  /\ LAST_SHOWN_ROW (shown st') = LAST_SHOWN_ROW (shown st)
  /\ LAST_SHOWN_PANEL_BOX (shown st') = LAST_SHOWN_PANEL_BOX (shown st)
  /\ last_row (shown st') = last_row (shown st)
  /\ last_panel_box st' = last_panel_box st
  /\ missing_frames st' = 1.
Proof.
  intros (_ & _ & Hs) [Hg Hp] Hm Hq Hv st'. subst st'.
  rewrite Hv in Hs. destruct Hs as (r & pb & E1 & E2 & E3 & E4).
  unfold pass, detect. rewrite Hg, Hp, Hq.
  unfold MISSING_FRAMES_BEFORE_HIDE, depart, present, lose, with_shown,
    with_missing, arrive.
  cbn [missing_frames shown throttle last_panel_box
                      TOOLTIP_NEEDS_REFRESH].
  rewrite Hm. change (2 <=? 0 + 1) with false. cbv iota.
  cbn [missing_frames shown throttle last_panel_box
                      TOOLTIP_NEEDS_REFRESH].
  rewrite E3. cbn [is_some andb drain fst].
  rewrite E1, E2, E4.
  destruct (negb (same_object r r) || negb (box_eqb pb pb)
            || (TOOLTIP_NEEDS_REFRESH st || settings_changed inp
                || verdict_cycled inp)).
  - cbn. repeat split; assumption.
  - cbn [missing_frames shown throttle last_panel_box].
    repeat split; assumption.
Qed.

(** X18: two passes in a row in which the panel is not found, with the
    gate open, take the overlay away whatever arrives from the worker:
    after the second, the overlay is hidden, and the matched name and
    row, the remembered panel box, the hash of the last dispatch and the
    shown row and box are all none. *)
Theorem two_missed_frames_hide_the_overlay (inp1 inp2 : pass_input)
        (st : live_state) :
  0 <= missing_frames st ->
  miss inp1 -> miss inp2 ->
  let st' := pass same_object inp2 (pass same_object inp1 st) in
  TOOLTIP_VISIBLE (shown st') = false
  /\ last_name (shown st') = None
  /\ last_row (shown st') = None
  /\ last_panel_box st' = None
  /\ last_name_roi_hash (throttle st') = None
  /\ LAST_SHOWN_ROW (shown st') = None
  /\ LAST_SHOWN_PANEL_BOX (shown st') = None
  /\ HELPER_SCREEN_RECT (shown st') = None.
Proof.
  intros Hm H1 H2 st'. subst st'.
  destruct (miss_pass inp1 st H1) as (M1 & _).
  destruct (miss_pass inp2 (pass same_object inp1 st) H2)
    as (_ & _ & _ & _ & L).
  apply L. lia.
Qed.

(** X19: after the overlay was lost to two missed frames, the next pass
    that finds a panel and has a crop dispatches an OCR task, whatever
    the crop shows (also the crop of the last dispatch), as soon as
    [OCR_MIN_INTERVAL] has passed since that dispatch: the task counter
    grows by one, the clock reading is recorded and a hash is
    remembered again. *)
Theorem sighting_after_loss_is_dispatched
        (inp1 inp2 inp3 : pass_input) (st : live_state)
        (panel_box : Box) (g : gray) :
  settled st ->
  miss inp1 -> miss inp2 ->
  gating_active inp3 = true ->
  Detector.find_tooltip_panel_by_color (contours inp3) = Some panel_box ->
  small inp3 = Some g ->
  (OCR_MIN_INTERVAL <= now inp3 - LAST_OCR_TIME (throttle st))%Q ->
  let st' :=
    pass same_object inp3
         (pass same_object inp2 (pass same_object inp1 st)) in
  next_task_id (throttle st') = next_task_id (throttle st) + 1
  /\ LAST_OCR_TIME (throttle st') = now inp3
  /\ last_panel_box st' = Some panel_box
  /\ missing_frames st' = 0
  /\ exists h, last_name_roi_hash (throttle st') = Some h.
Proof.
  intros (Hm & Hc & _) H1 H2 Hg Hp Hs Ht st'. subst st'.
  destruct (miss_pass inp1 st H1) as (M1 & C1 & T1 & N1 & _).
  destruct (miss_pass inp2 (pass same_object inp1 st) H2)
    as (M2 & C2 & T2 & N2 & L).
  destruct (L ltac:(lia)) as (_ & _ & _ & _ & Lh & _).
  set (st2 := pass same_object inp2 (pass same_object inp1 st)) in *.
  assert (Ec : cache (throttle st2) = cache (throttle st))
    by congruence.
  assert (Et : LAST_OCR_TIME (throttle st2) = LAST_OCR_TIME (throttle st))
    by congruence.
  assert (En : next_task_id (throttle st2) = next_task_id (throttle st))
    by congruence.
  clearbody st2.
  assert (D : let t := throttle (arrive inp3 st2) in
              let out := dispatch_step t (Some g) (now inp3) in
              next_task_id (fst out) = next_task_id (throttle st) + 1
              /\ LAST_OCR_TIME (fst out) = now inp3
              /\ exists h, last_name_roi_hash (fst out) = Some h).
  { cbn [arrive throttle]. unfold dispatch_step.
    cbn [cache last_name_roi_hash LAST_OCR_TIME next_task_id
               ocr_task_queue].
    rewrite Ec, Lh, Et, En.
    destruct (compute_cache_ok (cache (throttle st)) (Some g) Hc)
      as [_ Hh].
    destruct (Hh g eq_refl) as (h & Eh).
    destruct (compute_name_roi_hash (Some g) 3%Q (cache (throttle st)))
      as [roi_hash c'].
    cbn [fst] in Eh. subst roi_hash. cbn [hash_eqb].
    apply Qle_bool_iff in Ht. rewrite Ht.
    destruct (_ <? 4)%nat; cbn; repeat split; now exists h. }
  cbv zeta in D. destruct D as (D1 & D2 & D3).
  unfold pass, detect. rewrite Hg, Hp, Hs.
  set (t3 := fst (dispatch_step (throttle (arrive inp3 st2)) (Some g)
                                (now inp3))) in *.
  clearbody t3.
  unfold depart, present, with_shown.
  cbn [missing_frames shown throttle last_panel_box
                      TOOLTIP_NEEDS_REFRESH is_some andb].
  repeat match goal with
         | |- context [match ?x with _ => _ end] =>
             destruct x; cbn [shown last_panel_box throttle
                                    missing_frames
                                    TOOLTIP_NEEDS_REFRESH]
         end;
    repeat split; try assumption; try reflexivity.
Qed.

End Identity.

Lemma overlay_visible_only_while_gated_witness :
  let st := pass row_eqb sighting (run_passes row_eqb [] start) in
  TOOLTIP_VISIBLE (shown st) = true
  /\ gating_active sighting = true
  /\ missing_frames st <= 1
  /\ (verdict_cycled_late sighting = false ->
      TOOLTIP_NEEDS_REFRESH st = false)
  /\ exists r pb,
       last_row (shown st) = Some r
       /\ LAST_SHOWN_ROW (shown st) = Some r
       /\ last_panel_box st = Some pb
       /\ LAST_SHOWN_PANEL_BOX (shown st) = Some pb.
Proof.
  intros st.
  pose proof (overlay_visible_only_while_gated
                row_eqb [] sighting (fun a b => row_eqb_eq a b)) as H.
  cbv zeta in H. fold st in H.
  assert (V : TOOLTIP_VISIBLE (shown st) = true) by (vm_compute; reflexivity).
  rewrite V in H. split; [exact V|exact H].
Defined.

Lemma one_missed_frame_keeps_the_overlay_witness :
  let st := pass row_eqb sighting start in
  let st' := pass row_eqb blank st in
  TOOLTIP_VISIBLE (shown st) = true
  /\ TOOLTIP_VISIBLE (shown st') = true
  /\ LAST_SHOWN_ROW (shown st') = LAST_SHOWN_ROW (shown st)
  /\ LAST_SHOWN_PANEL_BOX (shown st') = LAST_SHOWN_PANEL_BOX (shown st)
  /\ last_row (shown st') = last_row (shown st)
  /\ last_panel_box st' = last_panel_box st
  /\ missing_frames st' = 1.
Proof.
  intros st st'.
  assert (V : TOOLTIP_VISIBLE (shown st) = true) by (vm_compute; reflexivity).
  split; [exact V|].
  refine (one_missed_frame_keeps_the_overlay row_eqb blank st _ _ _ _ V).
  - exact (proj1 (pass_settles row_eqb sighting start
                               (fun a b => row_eqb_eq a b) start_settled)).
  - split; reflexivity.
  - vm_compute; reflexivity.
  - reflexivity.
Defined.

Lemma two_missed_frames_hide_the_overlay_witness :
  let st := pass row_eqb sighting start in
  let st' := pass row_eqb blank (pass row_eqb blank st) in
  TOOLTIP_VISIBLE (shown st) = true
  /\ TOOLTIP_VISIBLE (shown st') = false
  /\ last_name (shown st') = None
  /\ last_row (shown st') = None
  /\ last_panel_box st' = None
  /\ last_name_roi_hash (throttle st') = None
  /\ LAST_SHOWN_ROW (shown st') = None
  /\ LAST_SHOWN_PANEL_BOX (shown st') = None
  /\ HELPER_SCREEN_RECT (shown st') = None.
Proof.
  intros st st'.
  split; [vm_compute; reflexivity|].
  refine (two_missed_frames_hide_the_overlay row_eqb blank blank st _ _ _).
  - vm_compute; discriminate.
  - split; reflexivity.
  - split; reflexivity.
Defined.

Lemma sighting_after_loss_is_dispatched_witness :
  let st := pass row_eqb sighting start in
  let st' :=
    pass row_eqb resighting (pass row_eqb blank (pass row_eqb blank st)) in
  next_task_id (throttle st) = 1
  /\ next_task_id (throttle st') = next_task_id (throttle st) + 1
  /\ LAST_OCR_TIME (throttle st') = now resighting
  /\ last_panel_box st' = Detector.find_tooltip_panel_by_color
                            Detector.sample_contours
  /\ missing_frames st' = 0
  /\ exists h, last_name_roi_hash (throttle st') = Some h.
Proof.
  intros st st'.
  split; [vm_compute; reflexivity|].
  destruct (Detector.find_tooltip_panel_by_color Detector.sample_contours)
    as [pb|] eqn:E; [|vm_compute in E; discriminate].
  refine (sighting_after_loss_is_dispatched
            row_eqb blank blank resighting st pb (flat 0) _ _ _ _ _ _ _).
  - exact (proj1 (pass_settles row_eqb sighting start
                               (fun a b => row_eqb_eq a b) start_settled)).
  - split; reflexivity.
  - split; reflexivity.
  - reflexivity.
  - exact E.
  - reflexivity.
  - vm_compute. discriminate.
Defined.

End LiveFacts.

(** ** Choice of the monitor *)

Module MonitorFacts.

Import Monitors.
Local Open Scope Z_scope.

Lemma find_first (A : Type) (p : A -> bool) (l : list A) :
  match find p l with
  | Some x =>
      exists pre post, l = pre ++ x :: post /\ p x = true
                       /\ forall y, In y pre -> p y = false
  | None => forall y, In y l -> p y = false
  end.
Proof.
  induction l as [|a l IH]; simpl; [intros ? []|].
  destruct (p a) eqn:E.
  - exists [], l. repeat split; [exact E|intros ? []].
  - destruct (find p l) as [x|].
    + destruct IH as (pre & post & -> & Hx & Hp).
      exists (a :: pre), post. repeat split; [exact Hx|].
      intros y [<-|Hy]; [exact E|exact (Hp y Hy)].
    + intros y [<-|Hy]; [exact E|exact (IH y Hy)].
Qed.

(** X20: the monitor chosen for capture is always one of the real monitors
    ([sct.monitors[1:]]).  With a window rectangle it is the first monitor
    that holds the centre of the window (computed with floor division),
    and the primary monitor if none holds it; without one it is the primary
    monitor. *)
Theorem game_monitor_holds_window_centre (primary : monitor)
        (others : list monitor) (window : option (Z * Z * Z * Z)) :
  let m := get_arc_raiders_monitor primary others window in
  In m (primary :: others)
  /\ match window with
     | None => m = primary
     | Some (win_left, win_top, win_right, win_bottom) =>
         let cx := (win_left + win_right) / 2 in
         let cy := (win_top + win_bottom) / 2 in
         (exists pre post,
             primary :: others = pre ++ m :: post
             /\ holds cx cy m = true
             /\ forall x, In x pre -> holds cx cy x = false)
         \/ (m = primary
             /\ forall x, In x (primary :: others) -> holds cx cy x = false)
     end.
Proof.
  intros m. subst m. unfold get_arc_raiders_monitor.
  destruct window as [[[[wl wt] wr] wb]|]; [|split; [now left|reflexivity]].
  cbv zeta.
  pose proof (find_first _ (holds ((wl + wr) / 2) ((wt + wb) / 2))
                         (primary :: others)) as F.
  destruct (find (holds ((wl + wr) / 2) ((wt + wb) / 2))
                 (primary :: others)) as [m|].
  - destruct F as (pre & post & E & Hm & Hp). split.
    + rewrite E. apply in_or_app. right. now left.
    + left. exists pre, post. repeat split; assumption.
  - split; [now left|]. right. split; [reflexivity|exact F].
Qed.

End MonitorFacts.

(** ** Colours of the settings *)

Module ColorFacts.

Import StrFacts Colors.
Local Open Scope Z_scope.

Lemma clamp255_range (v : Z) : 0 <= clamp255 v <= 255.
Proof. unfold clamp255. lia. Qed.

Lemma hex_digit_facts (c : ascii) (v : Z) :
  hex_digit c = Some v ->
  0 <= v <= 15 /\ isspace c = false /\ Ascii.eqb c "#" = false.
Proof.
  each_char c; vm_compute; intros H; try discriminate;
    injection H as <-; repeat split; discriminate.
Qed.

Lemma hex_pair_facts (c d : ascii) (v : Z) :
  hex_pair [c; d] = Some v ->
  0 <= v <= 255 /\ isspace c = false /\ Ascii.eqb c "#" = false
  /\ isspace d = false.
Proof.
  unfold hex_pair.
  destruct (hex_digit c) as [x|] eqn:Ec; [|discriminate].
  destruct (hex_digit d) as [y|] eqn:Ed; [|discriminate].
  intros H. assert (E : v = 16 * x + y) by congruence. subst v. clear H.
  destruct (hex_digit_facts c x Ec) as (H1 & H2 & H3).
  destruct (hex_digit_facts d y Ed) as (H4 & H5 & _).
  repeat split; try assumption; lia.
Qed.

Lemma clamp255_byte (v : Z) : 0 <= v <= 255 -> clamp255 v = v.
Proof. unfold clamp255. lia. Qed.

Lemma strip_ends (c : ascii) (p : str) (d : ascii) :
  isspace c = false -> isspace d = false ->
  strip (c :: p ++ [d]) = c :: p ++ [d].
Proof.
  intros Hc Hd. apply trimmed_strip. apply trimmed_intro.
  - intros c' r E. injection E as <- _. exact Hc.
  - intros p' c' E.
    change (c :: p ++ [d]) with ((c :: p) ++ [d]) in E.
    apply app_inj_tail in E. destruct E as [_ <-]. exact Hd.
Qed.

Section Int.

Variable int16 : str -> option Z.

(** X21: whatever the string and whatever [int] makes of its pieces,
    [parse_color_hex] returns the default colour or a colour whose four
    channels are bytes (0..255). *)
Theorem parsed_colour_is_default_or_bytes (value : option str)
        (default_rgba : Z * Z * Z * Z) :
  parse_color_hex int16 value default_rgba = default_rgba
  \/ is_rgba (parse_color_hex int16 value default_rgba).
Proof.
  unfold parse_color_hex.
  destruct (strip _) as [|c s']; [now left|].
  destruct (negb _); [now left|].
  destruct (int16 _) as [r|]; [|now left].
  destruct (int16 _) as [g|]; [|now left].
  destruct (int16 _) as [b|]; [|now left].
  destruct (_ =? 8)%nat.
  - destruct (int16 _) as [a|]; [|now left].
    right. unfold is_rgba.
    pose proof (clamp255_range r). pose proof (clamp255_range g).
    pose proof (clamp255_range b). pose proof (clamp255_range a).
    tauto.
  - right. unfold is_rgba.
    pose proof (clamp255_range r). pose proof (clamp255_range g).
    pose proof (clamp255_range b). pose proof (clamp255_range 255).
    tauto.
Qed.

Hypothesis int16_hex :
  forall p v, hex_pair p = Some v -> int16 p = Some v.

(** X22: a string of six hexadecimal digits, with or without the leading
    hash sign, parses to its three channels and the alpha 255; a string
    of eight to its four channels.  All that is asked of [int] is that
    it reads two hexadecimal digits as their value. *)
Theorem hex_colour_parses_to_its_channels
        (s : str) (r g b a : Z) (default_rgba : Z * Z * Z * Z) :
  len s = 6%nat \/ len s = 8%nat ->
  hex_pair (slice 0 2 s) = Some r ->
  hex_pair (slice 2 4 s) = Some g ->
  hex_pair (slice 4 6 s) = Some b ->
  (if (len s =? 8)%nat then hex_pair (slice 6 8 s) else Some 255)
  = Some a ->
  parse_color_hex int16 (Some ("#"%char :: s)) default_rgba = (r, g, b, a)
  /\ parse_color_hex int16 (Some s) default_rgba = (r, g, b, a).
Proof.
  intros Hl Hr Hg Hb Ha.
  destruct s as [|c1 [|c2 [|c3 [|c4 [|c5 [|c6 s]]]]]];
    try (cbn in Hl; destruct Hl; discriminate).
  cbn [slice skipn firstn Nat.sub] in Hr, Hg, Hb.
  destruct (hex_pair_facts _ _ _ Hr) as (Rr & S1 & N1 & S2).
  destruct (hex_pair_facts _ _ _ Hg) as (Rg & S3 & _ & S4).
  destruct (hex_pair_facts _ _ _ Hb) as (Rb & S5 & _ & S6).
  destruct s as [|c7 [|c8 [|c9 s]]];
    try (cbn in Hl; destruct Hl; discriminate).
  - (* six digits *)
    cbn in Ha. injection Ha as <-.
    assert (E1 : strip ("#"%char :: [c1; c2; c3; c4; c5; c6])
                 = "#"%char :: [c1; c2; c3; c4; c5; c6])
      by (exact (strip_ends "#" [c1; c2; c3; c4; c5] c6 eq_refl S6)).
    assert (E2 : strip [c1; c2; c3; c4; c5; c6]
                 = [c1; c2; c3; c4; c5; c6])
      by (exact (strip_ends c1 [c2; c3; c4; c5] c6 S1 S6)).
    unfold parse_color_hex. rewrite E1, E2, N1.
    cbn [Ascii.eqb Bool.eqb len List.length Nat.eqb orb negb slice skipn
                   firstn Nat.sub].
    change (Ascii.eqb "#" "#") with true. cbv iota.
    cbn [len List.length Nat.eqb orb negb slice skipn firstn Nat.sub].
    rewrite (int16_hex _ _ Hr), (int16_hex _ _ Hg), (int16_hex _ _ Hb).
    rewrite !clamp255_byte by lia. split; reflexivity.
  - (* eight digits *)
    cbn [len List.length Nat.eqb slice skipn firstn Nat.sub] in Ha.
    destruct (hex_pair_facts _ _ _ Ha) as (Ra & S7 & _ & S8).
    assert (E1 : strip ("#"%char :: [c1; c2; c3; c4; c5; c6; c7; c8])
                 = "#"%char :: [c1; c2; c3; c4; c5; c6; c7; c8])
      by (exact (strip_ends "#" [c1; c2; c3; c4; c5; c6; c7] c8
                            eq_refl S8)).
    assert (E2 : strip [c1; c2; c3; c4; c5; c6; c7; c8]
                 = [c1; c2; c3; c4; c5; c6; c7; c8])
      by (exact (strip_ends c1 [c2; c3; c4; c5; c6; c7] c8 S1 S8)).
    unfold parse_color_hex. rewrite E1, E2, N1.
    change (Ascii.eqb "#" "#") with true. cbv iota.
    cbn [len List.length Nat.eqb orb negb slice skipn firstn Nat.sub].
    rewrite (int16_hex _ _ Hr), (int16_hex _ _ Hg), (int16_hex _ _ Hb),
      (int16_hex _ _ Ha).
    rewrite !clamp255_byte by lia. split; reflexivity.
Qed.

End Int.

(** The default panel colour of the settings, "#3737370f", read with
    [hex_pair] in the place of [int]. *)
Lemma hex_colour_parses_to_its_channels_witness :
  parse_color_hex hex_pair (Some (lit "#3737370f")) (0, 0, 0, 0)
  = (55, 55, 55, 15)
  /\ parse_color_hex hex_pair (Some (lit "3737370f")) (0, 0, 0, 0)
     = (55, 55, 55, 15).
Proof.
  exact (hex_colour_parses_to_its_channels
           hex_pair (fun p v H => H) (lit "3737370f") 55 55 55 15
           (0, 0, 0, 0)
           (or_intror eq_refl) eq_refl eq_refl eq_refl eq_refl).
Defined.

End ColorFacts.

(** ** Condensing roman variants *)

Module CondenseFacts.

Import LookupFacts StrFacts NormalizeFacts OcrText OcrTextFacts Condense.

(** *** The stable sort *)

Lemma insert_by_length (A : Type) (key : A -> nat) (x : A) (l : list A) :
  List.length (insert_by key x l) = S (List.length l).
Proof.
  induction l as [|y l IH]; simpl; [reflexivity|].
  destruct (key y <? key x); simpl; [now rewrite IH|reflexivity].
Qed.

Lemma sort_by_length (A : Type) (key : A -> nat) (l : list A) :
  List.length (sort_by key l) = List.length l.
Proof.
  induction l as [|x l IH]; simpl; [reflexivity|].
  now rewrite insert_by_length, IH.
Qed.

Lemma subseq_refl (A : Type) (l : list A) : subseq l l.
Proof. induction l; constructor; assumption. Qed.

Lemma subseq_insert (A : Type) (key : A -> nat) (x : A) (p l : list A) :
  subseq p l -> subseq p (insert_by key x l).
Proof.
  intros H. induction H as [|y l1 l2 H IH|y l1 l2 H IH]; simpl.
  - constructor. constructor.
  - destruct (key y <? key x).
    + now constructor.
    + constructor. now constructor.
  - destruct (key y <? key x).
    + now constructor.
    + constructor. now constructor.
Qed.

Lemma subseq_map (A B : Type) (f : A -> B) (p l : list A) :
  subseq p l -> subseq (map f p) (map f l).
Proof. induction 1; simpl; constructor; assumption. Qed.

Lemma subseq_full (A : Type) (p l : list A) :
  subseq p l -> List.length l <= List.length p -> p = l.
Proof.
  intros H. assert (B : List.length p <= List.length l)
    by (induction H; simpl; lia).
  induction H as [|y l1 l2 H IH|y l1 l2 H IH]; simpl; intros L.
  - reflexivity.
  - f_equal. apply IH; simpl in *; lia.
  - exfalso. assert (List.length l1 <= List.length l2)
      by (clear - H; induction H; simpl; lia).
    simpl in L. lia.
Qed.

(** *** The loop *)

Lemma pass_entries_ge (lines : list str) :
  forall idx e, In e (pass_entries idx lines) -> idx <= fst e.
Proof.
  induction lines as [|l lines IH]; intros idx e; simpl; [intros []|].
  destruct (passed l).
  - intros [<-|H]; [simpl; lia|]. specialize (IH _ _ H). lia.
  - intros H. specialize (IH _ _ H). lia.
Qed.

Lemma pass_entries_sorted (lines : list str) :
  forall idx, sort_by fst (pass_entries idx lines) = pass_entries idx lines.
Proof.
  induction lines as [|l lines IH]; intros idx; simpl; [reflexivity|].
  destruct (passed l); [|apply IH].
  cbn [sort_by]. rewrite IH.
  destruct (pass_entries (S idx) lines) as [|e es] eqn:E; [reflexivity|].
  cbn [insert_by fst].
  assert (S idx <= fst e)
    by (apply (pass_entries_ge lines); rewrite E; now left).
  destruct (fst e <? idx) eqn:L; [apply Nat.ltb_lt in L; lia|reflexivity].
Qed.

Lemma pass_entries_lines (lines : list str) :
  forall idx, map snd (pass_entries idx lines) = filter passed lines.
Proof.
  induction lines as [|l lines IH]; intros idx; simpl; [reflexivity|].
  destruct (passed l); simpl; now rewrite IH.
Qed.

Lemma groups_set_length (groups : list (str * str * group))
      (key : str * str) (g : group) :
  List.length (groups_set groups key g) <= S (List.length groups).
Proof.
  induction groups as [|[k g'] groups IH]; simpl; [lia|].
  destruct (key_eqb key k); simpl; lia.
Qed.

Lemma roman_loop_spec (lines : list str) :
  forall idx groups passthrough,
    snd (roman_loop idx lines groups passthrough)
    = passthrough ++ pass_entries idx lines
    /\ List.length (fst (roman_loop idx lines groups passthrough))
       + List.length (filter passed lines)
       <= List.length groups + List.length lines
    /\ ((forall l, In l lines -> strip l <> [] -> passed l = true) ->
        fst (roman_loop idx lines groups passthrough) = groups).
Proof.
  induction lines as [|l lines IH]; intros idx groups passthrough.
  - simpl. rewrite app_nil_r. repeat split. lia.
  - cbn [roman_loop pass_entries filter].
    assert (Pdef : passed l
                   = match strip l with
                     | [] => false
                     | line =>
                         match numeral_line line with
                         | Some _ => false
                         | None => true
                         end
                     end) by reflexivity.
    rewrite Pdef. clear Pdef.
    destruct (strip l) as [|c line] eqn:Es.
    + destruct (IH (S idx) groups passthrough) as (I1 & I2 & I3).
      repeat split.
      * exact I1.
      * cbn [List.length]. lia.
      * intros H. apply I3. intros x Hx. apply H. now right.
    + destruct (numeral_line (c :: line)) as [[[base qty_str] roman]|] eqn:En.
      * match goal with
        | |- context [roman_loop (S idx) lines ?G passthrough] =>
            destruct (IH (S idx) G passthrough) as (I1 & I2 & I3);
              pose proof (groups_set_length
                            groups
                            (lower base,
                             match qty_str with Some q => q | None => [] end)
                            match groups_get groups
                                             (lower base,
                                              match qty_str with
                                              | Some q => q
                                              | None => []
                                              end) with
                            | None => mkGroup base qty_str [roman] idx
                            | Some g =>
                                if existsb (str_eqb roman) (g_romans g)
                                then g
                                else mkGroup (g_base g) (g_qty g)
                                             (g_romans g ++ [roman])
                                             (g_first_index g)
                            end) as GL
        end.
        repeat split.
        -- exact I1.
        -- cbn [List.length]. lia.
        -- intros H. exfalso.
           assert (P : passed l = true)
             by (apply H; [now left|rewrite Es; discriminate]).
           unfold passed in P. rewrite Es, En in P. discriminate.
      * destruct (IH (S idx) groups (passthrough ++ [(idx, l)]))
          as (I1 & I2 & I3).
        repeat split.
        -- rewrite I1, <- app_assoc. reflexivity.
        -- cbn [List.length]. lia.
        -- intros H. apply I3. intros x Hx. apply H. now right.
Qed.

Lemma sort_keeps_passed (A : list (nat * str)) (lines : list str) :
  subseq (pass_entries 0 lines) (sort_by fst (A ++ pass_entries 0 lines)).
Proof.
  induction A as [|a A IH]; cbn [app sort_by].
  - rewrite pass_entries_sorted. apply subseq_refl.
  - now apply subseq_insert.
Qed.

(** X23: the lines [condense_roman_variants] does not put into a group
    (non-blank lines that do not end in a second or later word reading
    I, II, III or IV) all come back unchanged and in their order; the
    result never has more lines than the input; and when no line goes
    into a group, the result is the input without its blank lines. *)
Theorem passed_lines_come_back_in_order (lines : list str)
        (drop_suffix : bool) :
  subseq (filter passed lines) (condense_roman_variants lines drop_suffix)
  /\ List.length (condense_roman_variants lines drop_suffix)
     <= List.length lines
  /\ ((forall l, In l lines -> strip l <> [] -> passed l = true) ->
      condense_roman_variants lines drop_suffix = filter passed lines).
Proof.
  unfold condense_roman_variants.
  destruct (roman_loop_spec lines 0 [] []) as (S1 & S2 & S3).
  destruct (roman_loop 0 lines [] []) as [groups passthrough].
  cbn [fst snd app] in S1, S2, S3. subst passthrough.
  split; [|split].
  - rewrite <- (pass_entries_lines lines 0).
    apply subseq_map. apply sort_keeps_passed.
  - rewrite length_map, sort_by_length, length_app, length_map.
    rewrite <- (pass_entries_lines lines 0), length_map in S2.
    cbn [List.length] in S2. lia.
  - intros H. rewrite (S3 H). cbn [map app].
    now rewrite pass_entries_sorted, pass_entries_lines.
Qed.

(** *** Lines that differ by their numeral only *)

Lemma split_aux_word (t : str) :
  no_space t -> forall cur s, split_aux cur (t ++ s) = split_aux (cur ++ t) s.
Proof.
  induction t as [|c t IH]; intros Ht cur s; simpl.
  - now rewrite app_nil_r.
  - rewrite (Ht c (or_introl eq_refl)).
    rewrite IH by (intros x Hx; apply Ht; now right).
    now rewrite <- app_assoc.
Qed.

Lemma split_join (tokens : list str) :
  (forall t, In t tokens -> t <> [] /\ no_space t) ->
  split_ws (join_space tokens) = tokens.
Proof.
  unfold split_ws.
  induction tokens as [|t rest IH]; intros H; [reflexivity|].
  destruct (H t (or_introl eq_refl)) as [Hn Hs].
  cbn [join_space]. destruct rest as [|t' rest'].
  - rewrite <- (app_nil_r t) at 1.
    rewrite (split_aux_word t Hs [] []). simpl.
    destruct t; [congruence|reflexivity].
  - rewrite (split_aux_word t Hs [] _). cbn [app split_aux isspace].
    change (isspace " ") with true. cbv iota.
    destruct t as [|c r]; [congruence|].
    f_equal. apply IH. intros x Hx. apply H. now right.
Qed.

Lemma join_space_snoc (tokens : list str) (n : str) :
  tokens <> [] ->
  join_space (tokens ++ [n]) = join_space tokens ++ " "%char :: n.
Proof.
  induction tokens as [|t rest IH]; intros H; [congruence|].
  destruct rest as [|t' rest'].
  - reflexivity.
  - change (join_space ((t :: t' :: rest') ++ [n]))
      with (t ++ " "%char :: join_space ((t' :: rest') ++ [n])).
    rewrite IH by discriminate.
    change (join_space (t :: t' :: rest'))
      with (t ++ " "%char :: join_space (t' :: rest')).
    now rewrite <- app_assoc.
Qed.

Lemma numeral_char (c : ascii) :
  clean_char c = "I"%char \/ clean_char c = "V"%char ->
  isspace c = false
  /\ existsb (Ascii.eqb c) (lit ",.;: ") = false.
Proof.
  each_char c; vm_compute; intros [H|H]; try discriminate; split;
    reflexivity.
Qed.

Lemma numeral_token (n : str) :
  In (token_clean n) ROMAN_SUFFIXES ->
  n <> []
  /\ forall c, In c n ->
               isspace c = false
               /\ existsb (Ascii.eqb c) (lit ",.;: ") = false.
Proof.
  rewrite token_clean_map. unfold ROMAN_SUFFIXES. cbn [In].
  intros H. split.
  - intros ->. cbn in H. intuition discriminate.
  - intros c Hc. apply numeral_char.
    assert (Hm : In (clean_char c) (map clean_char n))
      by (apply in_map; exact Hc).
    destruct H as [H|[H|[H|[H|[]]]]]; rewrite <- H in Hm;
      cbn in Hm; intuition congruence.
Qed.

Lemma rstrip_chars_keeps (chars p : str) (c : ascii) :
  existsb (Ascii.eqb c) chars = false ->
  rstrip_chars chars (p ++ [c]) = p ++ [c].
Proof.
  intros H. unfold rstrip_chars. rewrite rev_app_distr. cbn [rev app].
  cbn [drop_while]. rewrite H.
  change (c :: rev p) with ([c] ++ rev p).
  now rewrite rev_app_distr, rev_involutive.
Qed.

Section Variants.

(** The words of the base, the first of which does not start with a
    digit. *)
Variable tokens : list str.
Hypothesis tokens_some : tokens <> [].
Hypothesis tokens_words :
  forall t, In t tokens -> t <> [] /\ no_space t.
Hypothesis no_count :
  forall c r, hd [] tokens = c :: r -> isdecimal c = false.

Lemma variant_line (n : str) :
  In (token_clean n) ROMAN_SUFFIXES ->
  strip (join_space (tokens ++ [n])) = join_space (tokens ++ [n])
  /\ join_space (tokens ++ [n]) <> []
  /\ numeral_line (join_space (tokens ++ [n]))
     = Some (join_space tokens, None, token_clean n).
Proof.
  intros Hn. destruct (numeral_token n Hn) as [Hne Hc].
  assert (Hall : forall t, In t (tokens ++ [n]) -> t <> [] /\ no_space t).
  { intros t Ht. apply in_app_or in Ht. destruct Ht as [Ht|[<-|[]]].
    - now apply tokens_words.
    - split; [exact Hne|]. intros c Hin. exact (proj1 (Hc c Hin)). }
  assert (Hsome : tokens ++ [n] <> [])
    by (intros E; apply app_eq_nil in E; destruct E; discriminate).
  pose proof (join_space_tidy _ Hall Hsome) as (T1 & T2 & _).
  split; [exact (trimmed_strip _ T2)|]. split; [exact T1|].
  unfold numeral_line.
  assert (Q : match_qty (join_space (tokens ++ [n])) = None).
  { unfold match_qty. rewrite (proj1 T2).
    assert (S : exists c rest,
               join_space (tokens ++ [n]) = c :: rest
               /\ isdecimal c = false).
    { generalize tokens_some tokens_words no_count.
      generalize tokens as toks. intros toks H1 H2 H3.
      destruct toks as [|t ts]; [congruence|].
      destruct (H2 t (or_introl eq_refl)) as [Ht _].
      destruct t as [|c r]; [congruence|].
      exists c. cbn [app join_space].
      destruct (ts ++ [n]); eexists; (split; [reflexivity|]);
        exact (H3 c r eq_refl). }
    destruct S as (c & rest & -> & D). cbn [span]. now rewrite D. }
  rewrite Q.
  destruct (exists_last Hne) as (np & c & En).
  assert (Hlast : existsb (Ascii.eqb c) (lit ",.;: ") = false).
  { apply Hc. rewrite En. apply in_or_app. right. now left. }
  assert (R : rstrip_chars (lit ",.;: ") (join_space (tokens ++ [n]))
              = join_space (tokens ++ [n])).
  { rewrite (join_space_snoc tokens n tokens_some), En.
    change (join_space tokens ++ " "%char :: np ++ [c])
      with (join_space tokens ++ (" "%char :: np) ++ [c]).
    rewrite app_assoc. now apply rstrip_chars_keeps. }
  rewrite R, (split_join _ Hall).
  rewrite length_app. cbn [List.length].
  assert (L : (2 <=? List.length tokens + 1) = true).
  { apply Nat.leb_le. generalize tokens_some.
    generalize tokens as toks. intros toks H1.
    destruct toks; [congruence|]. simpl. lia. }
  rewrite L, last_last, removelast_last.
  assert (M : existsb (str_eqb (token_clean n)) ROMAN_SUFFIXES = true).
  { apply existsb_exists. exists (token_clean n).
    split; [exact Hn|apply str_eqb_refl]. }
  now rewrite M.
Qed.

Lemma key_eqb_refl (k : str * str) : key_eqb k k = true.
Proof. unfold key_eqb. now rewrite !str_eqb_refl. Qed.

(** The loop on further variants, once the group is there. *)
Lemma loop_in_group (numerals : list str) :
  (forall n, In n numerals -> In (token_clean n) ROMAN_SUFFIXES) ->
  forall idx romans first passthrough,
    roman_loop idx
               (map (fun n => join_space (tokens ++ [n])) numerals)
               [((lower (join_space tokens), []),
                 mkGroup (join_space tokens) None romans first)]
               passthrough
    = ([((lower (join_space tokens), []),
         mkGroup (join_space tokens) None
                 (romans
                  ++ first_occurrences romans
                                       (map token_clean numerals))
                 first)],
       passthrough).
Proof.
  induction numerals as [|n numerals IH]; intros H idx romans first
                                                 passthrough.
  - simpl. now rewrite app_nil_r.
  - destruct (variant_line n (H n (or_introl eq_refl)))
      as (V1 & V2 & V3).
    cbn [map roman_loop]. rewrite V1.
    destruct (join_space (tokens ++ [n])) as [|c line] eqn:El;
      [congruence|].
    rewrite V3. cbn [groups_get]. rewrite key_eqb_refl.
    cbn [groups_set g_romans g_base g_qty g_first_index].
    rewrite key_eqb_refl. cbn [first_occurrences].
    destruct (existsb (str_eqb (token_clean n)) romans).
    + apply IH. intros x Hx. apply H. now right.
    + rewrite IH by (intros x Hx; apply H; now right).
      now rewrite <- app_assoc.
Qed.

(** X24: lines that consist of the same words followed by a word that
    reads as one of the numerals I, II, III, IV (with l, L, i or the bar
    for I, in either case) are condensed into one line: the words,
    followed by the numerals that occur, each once, in the order I, II,
    III, IV and separated by ", "; with [drop_suffix], the words
    alone. *)
Theorem variants_condense_to_one_line (numerals : list str)
        (drop_suffix : bool) :
  numerals <> [] ->
  (forall n, In n numerals -> In (token_clean n) ROMAN_SUFFIXES) ->
  condense_roman_variants
    (map (fun n => join_space (tokens ++ [n])) numerals) drop_suffix
  = [ if drop_suffix then join_space tokens
      else join_space tokens ++ lit " "
           ++ join_with (lit ", ")
                        (sort_by roman_order
                                 (first_occurrences
                                    [] (map token_clean numerals))) ].
Proof.
  intros Hs H. destruct numerals as [|n numerals]; [congruence|].
  destruct (variant_line n (H n (or_introl eq_refl))) as (V1 & V2 & V3).
  unfold condense_roman_variants. cbn [map roman_loop]. rewrite V1.
  destruct (join_space (tokens ++ [n])) as [|c line] eqn:El;
    [congruence|].
  rewrite V3. cbn [groups_get groups_set].
  rewrite loop_in_group by (intros x Hx; apply H; now right).
  cbn [map app snd fst g_first_index sort_by insert_by].
  unfold group_line. cbn [g_romans g_qty g_base first_occurrences existsb
                                   app].
  destruct drop_suffix; reflexivity.
Qed.

End Variants.

(** Four spellings of three variants of "Heavy Anvil". *)
Lemma variants_condense_to_one_line_witness :
  condense_roman_variants
    [lit "Heavy Anvil I"; lit "Heavy Anvil lll"; lit "Heavy Anvil II";
     lit "Heavy Anvil i"] false
  = [lit "Heavy Anvil I, II, III"].
Proof.
  exact (variants_condense_to_one_line
           [lit "Heavy"; lit "Anvil"]
           ltac:(discriminate)
           ltac:(intros t [<-|[<-|[]]]; (split; [discriminate|]);
                 intros c Hc; repeat (destruct Hc as [<-|Hc];
                                      [reflexivity|]); destruct Hc)
           ltac:(intros c r E; injection E as <- _; reflexivity)
           [lit "I"; lit "lll"; lit "II"; lit "i"] false
           ltac:(discriminate)
           ltac:(intros n [<-|[<-|[<-|[<-|[]]]]]; vm_compute; tauto)).
Defined.

End CondenseFacts.

(** ** From the resolver through the worker to the drain *)

Module PipelineFacts.

Import LookupFacts ResolveFacts ResolveOrder Drain Worker.
Local Open Scope Z_scope.

Section Resolver.

Variables ratio quick_ratio real_quick_ratio : str -> str -> Q.

Let find (ITEM_LOOKUP : dict Row) : str -> option Row :=
  find_item_row_by_name ratio quick_ratio real_quick_ratio ITEM_LOOKUP.

Lemma found_name_nonempty (ITEM_LOOKUP : dict Row) (name : str)
      (r : Row) :
  find ITEM_LOOKUP name = Some r -> name <> [].
Proof. intros H ->. discriminate H. Qed.

Lemma partial_stage_blank (keys : list str) :
  empty_dissimilar ratio keys = true ->
  partial_stage ratio keys [] = None.
Proof.
  intros He. pose proof (partial_stage_spec ratio keys []) as S.
  destruct (partial_stage ratio keys []) as [k|]; [|reflexivity].
  destruct S as [[Hin _] Hthr].
  apply filter_In in Hin. destruct Hin as [Hin _].
  destruct (empty_dissimilar_In ratio keys k He Hin) as [Hlt _].
  exfalso. exact (Qlt_not_le _ _ Hlt Hthr).
Qed.

Lemma fuzzy_stage_blank (keys : list str) :
  empty_dissimilar ratio keys = true ->
  fuzzy_stage ratio quick_ratio real_quick_ratio keys [] = None.
Proof.
  intros He. unfold fuzzy_stage, get_close_matches.
  pose proof (scored_In ratio quick_ratio real_quick_ratio
                        (70 # 100) [] keys) as HI.
  destruct (scored ratio quick_ratio real_quick_ratio (70 # 100) [] keys)
    as [|t l]; [reflexivity|].
  destruct (proj1 (HI t) (or_introl eq_refl)) as (Hin & Hc & _).
  apply close_enough_ratio in Hc.
  destruct (empty_dissimilar_In ratio keys (snd t) He Hin) as [_ Hlt].
  exfalso. exact (Qlt_not_le _ _ Hlt Hc).
Qed.

(** X25: a name that normalizes to the empty key, such as a name of
    blanks only, resolves to no row, whatever the table holds: no key of
    the table is empty, and although every key then counts as a partial
    candidate, none is similar enough to the empty string. *)
Theorem blank_name_resolves_to_nothing (rows : list Row) (name : str) :
  empty_dissimilar ratio (dict_keys (fst (build_item_lookup rows)))
  = true ->
  normalize_name_for_match name = [] ->
  find_item_row_by_name ratio quick_ratio real_quick_ratio
                        (fst (build_item_lookup rows)) name = None.
Proof.
  intros He Hn. pose proof (lookup_no_empty_key rows) as Hk.
  unfold find_item_row_by_name.
  destruct name as [|c name]; [reflexivity|].
  destruct (fst (build_item_lookup rows)) as [|kv tbl] eqn:Et;
    [reflexivity|].
  rewrite Hn, Hk.
  change (strict_stage ratio (dict_keys (kv :: tbl)) []) with (@None str).
  now rewrite (partial_stage_blank _ He), (fuzzy_stage_blank _ He).
Qed.

Section Tasks.

Variable Roi : Type.
Variable ocr_item_lines : Roi -> raises (list str).
Variable ITEM_LOOKUP : dict Row.

Lemma first_match_found (lines : list str) (ln : str) (r : Row) :
  first_match (find ITEM_LOOKUP) lines = Some (ln, r) ->
  ln <> [].
Proof.
  induction lines as [|a lines IH]; simpl; [discriminate|].
  destruct (find ITEM_LOOKUP a) as [r0|] eqn:E; [|exact IH].
  intros H. injection H as <- <-.
  exact (found_name_nonempty _ _ _ E).
Qed.

Lemma handle_task_shape (task : OcrTask Roi) :
  let res := handle_task ocr_item_lines (find ITEM_LOOKUP) task in
  task_id res = t_task_id task
  /\ (row res = None
      \/ (error res = None
          /\ exists ln, name res = Some ln /\ ln <> [])).
Proof.
  cbv zeta. unfold handle_task, try_task.
  destruct (lines_of ocr_item_lines (roi_primary task))
    as [e|plines]; cbn [bind ret]; [split; [reflexivity|now left]|].
  pose proof (first_match_found plines) as Fp.
  destruct (first_match (find ITEM_LOOKUP) plines) as [[ln r]|].
  { cbn. split; [reflexivity|]. right. split; [reflexivity|].
    exists ln. split; [reflexivity|]. exact (Fp ln r eq_refl). }
  destruct (lines_of ocr_item_lines (roi_secondary task))
    as [e|slines]; cbn [bind ret]; [split; [reflexivity|now left]|].
  pose proof (first_match_found slines) as Fs.
  destruct (first_match (find ITEM_LOOKUP) slines) as [[ln r]|].
  - cbn. split; [reflexivity|]. right. split; [reflexivity|].
    exists ln. split; [reflexivity|]. exact (Fs ln r eq_refl).
  - cbn. split; [reflexivity|now left].
Qed.

(** X26: a result of the worker that carries a row is shown: when the
    drain dequeues it while the tooltip is active and no newer result
    was seen, it takes the matched branch and stores the result's name,
    row and secondary flag.  The result's name cannot be empty, because
    the resolver returns no row for the empty name, so the drain never
    discards a resolved row. *)
Theorem resolved_result_is_shown (task : OcrTask Roi)
        (st : loop_state) (r : Row) :
  let res :=
    handle_task ocr_item_lines
      (find_item_row_by_name ratio quick_ratio real_quick_ratio
                             ITEM_LOOKUP) task in
  latest_result_id st <= t_task_id task ->
  row res = Some r ->
  drain_step true st res
  = (set_match (set_latest st (t_task_id task)) res, true).
Proof.
  cbv zeta. intros Hfresh Hrow.
  destruct (handle_task_shape task) as [Hid Hshape].
  unfold find in Hid, Hshape.
  destruct Hshape as [Hnone|[Herr (ln & Hname & Hln)]];
    [congruence|].
  unfold drain_step. rewrite Hid.
  destruct (t_task_id task <? latest_result_id st) eqn:E;
    [apply Z.ltb_lt in E; lia|].
  cbn [negb]. rewrite Herr, Hname, Hrow.
  destruct ln as [|c ln]; [congruence|reflexivity].
Qed.

(** X27: when handling a task raises, the drain tells the failure from
    an unmatched result by the exception's message alone.  With a
    message the result is only counted and the overlay is left alone;
    with an empty message the result goes the way of an unmatched one
    and the overlay is hidden. *)
Theorem failed_task_in_the_drain (find_row : str -> option Row)
        (task : OcrTask Roi) (st : loop_state) (e : str) :
  try_task ocr_item_lines find_row task = inl e ->
  latest_result_id st <= t_task_id task ->
  drain_step true st (handle_task ocr_item_lines find_row task)
  = match e with
    | [] => (clear_shown (set_latest st (t_task_id task)), true)
    | _ :: _ => (set_latest st (t_task_id task), false)
    end.
Proof.
  intros Htry Hfresh. unfold handle_task. rewrite Htry.
  unfold drain_step. cbn [task_id error name row].
  destruct (t_task_id task <? latest_result_id st) eqn:E;
    [apply Z.ltb_lt in E; lia|].
  cbn [negb]. now destruct e.
Qed.

End Tasks.

End Resolver.

(** The table of the sample rows and a name of three blanks, with the
    similarity of the [difflib] model. *)
Lemma blank_name_resolves_to_nothing_witness :
  find_item_row_by_name Difflib.ratio Difflib.quick_ratio
                        Difflib.real_quick_ratio
                        (fst (build_item_lookup sample_rows)) (lit "   ")
  = None.
Proof.
  apply (blank_name_resolves_to_nothing
           Difflib.ratio Difflib.quick_ratio Difflib.real_quick_ratio
           sample_rows (lit "   ")).
  - vm_compute. reflexivity.
  - vm_compute. reflexivity.
Defined.

(** The toy engine reads "Rope" off crop 1; the table holds "Rope". *)
Lemma resolved_result_is_shown_witness :
  let task := mkOcrTask 9 (Some 1%nat) None (Some (100, 100, 400, 300)) in
  let res :=
    handle_task sample_ocr
      (find_item_row_by_name Difflib.ratio Difflib.quick_ratio
                             Difflib.real_quick_ratio rope_table) task in
  drain_step true sample_state res
  = (set_match (set_latest sample_state 9) res, true).
Proof.
  intros task res.
  apply (resolved_result_is_shown
           Difflib.ratio Difflib.quick_ratio Difflib.real_quick_ratio
           nat sample_ocr rope_table task sample_state
           [("Name"%string, lit "Rope")]).
  - vm_compute. discriminate.
  - vm_compute. reflexivity.
Defined.

(** The toy engine fails on crop 0, with a message. *)
Lemma failed_task_in_the_drain_witness :
  drain_step true (set_latest sample_state 0)
             (handle_task sample_ocr sample_find failing_task)
  = (set_latest (set_latest sample_state 0) 1, false).
Proof.
  apply (failed_task_in_the_drain
           nat sample_ocr sample_find failing_task
           (set_latest sample_state 0) (lit "engine failure")).
  - reflexivity.
  - vm_compute. discriminate.
Defined.

End PipelineFacts.
